(** * Hand-driven particle field: pose estimator, stabilizer, particle
      state engine and popup animator

    Shallow embedding of [src/particleSystem.js] (class [ParticleSystem],
    the revision with 90000 particles and [lerpSpeed = 0.5]) and of the
    hand tracker of [src/database.js] (class [HandTracker]).

    Conventions of the embedding.
    - A JavaScript number is a real number ([R]): arithmetic is exact, and
      there is neither rounding nor NaN nor infinity.  A [Float32Array] is
      a [list R]; a store outside the array does nothing, as in JavaScript
      (this is stdpp's list insert).  For its tests on NaN the pose
      estimator is embedded a second time, on numbers that are a real
      number or NaN (module [NaN]).
    - [Math.random()] reads the next element of a stream of draws that is
      part of the world ([Rng]); functions that draw are written in a small
      state monad over it.  The monad also carries failure, which stands
      for a call that does not return: a [while (true)] loop that has not
      left after the given number of iterations, or a [TypeError].
      Probabilities are those of independent draws, uniform on a finite
      list of values ([probability]).
    - three.js is a dependency of the program, not part of it.  Its vector
      arithmetic is written out; its quaternion, Euler-angle and colour
      conversions are operations of the class [Three], over which the
      engine is parameterised. *)

From Stdlib Require Import Reals Lra Lia ZArith Bool.
From stdpp Require Import base list strings.

#[local] Open Scope R_scope.

(** ** JavaScript numbers and [Math] *)

Module Math.

Definition floor (a : R) : Z := Zfloor a.
Definition max (a b : R) : R := Rmax a b.
Definition min (a b : R) : R := Rmin a b.
Definition abs (a : R) : R := Rabs a.

(** [Math.pow(a, 2)] *)
Definition pow2 (a : R) : R := a * a.

(** [Math.pow(a, b)] for a base [a >= 0], the only use the program makes
    of it with an exponent that is not 2. *)
Definition pow (a b : R) : R :=
  if Rlt_dec 0 a then Rpower a b
  else if Rlt_dec 0 b then 0 else 1.

Definition cbrt (a : R) : R :=
  if Rlt_dec 0 a then Rpower a (1 / 3)
  else if Rlt_dec a 0 then - Rpower (- a) (1 / 3) else 0.

Definition atan2 (b a : R) : R :=
  if Rlt_dec 0 a then atan (b / a)
  else if Rlt_dec a 0 then
    (if Rle_dec 0 b then atan (b / a) + PI else atan (b / a) - PI)
  else if Rlt_dec 0 b then PI / 2
  else if Rlt_dec b 0 then - (PI / 2) else 0.

(** [a % 1] for [a >= 0] *)
Definition mod1 (a : R) : R := a - IZR (Zfloor a).

End Math.

(** A number used as a condition is false exactly when it is zero (NaN
    does not exist here). *)
Definition truthy (a : R) : bool := if Req_dec_T a 0 then false else true.

(** [a < b] as a boolean *)
Definition ltb (a b : R) : bool := if Rlt_dec a b then true else false.

(** ** three.js values *)

Record Vector3 := V3 { v_x : R; v_y : R; v_z : R }.
Record Quaternion := Quat { q_x : R; q_y : R; q_z : R; q_w : R }.
Record Euler := Eul { e_x : R; e_y : R; e_z : R }.
Record Color := RGB { c_r : R; c_g : R; c_b : R }.

Module Vec.

Definition zero : Vector3 := V3 0 0 0.

Definition add (a b : Vector3) : Vector3 :=
  V3 (v_x a + v_x b) (v_y a + v_y b) (v_z a + v_z b).

Definition subVectors (a b : Vector3) : Vector3 :=
  V3 (v_x a - v_x b) (v_y a - v_y b) (v_z a - v_z b).

Definition subScalar (a : Vector3) (s : R) : Vector3 :=
  V3 (v_x a - s) (v_y a - s) (v_z a - s).

Definition multiply (a b : Vector3) : Vector3 :=
  V3 (v_x a * v_x b) (v_y a * v_y b) (v_z a * v_z b).

Definition multiplyScalar (a : Vector3) (s : R) : Vector3 :=
  V3 (v_x a * s) (v_y a * s) (v_z a * s).

Definition addScaledVector (a b : Vector3) (s : R) : Vector3 :=
  V3 (v_x a + v_x b * s) (v_y a + v_y b * s) (v_z a + v_z b * s).

(** [a.lerp(b, alpha)]: [a.x += (b.x - a.x) * alpha] and so on *)
Definition lerp (a b : Vector3) (alpha : R) : Vector3 :=
  V3 (v_x a + (v_x b - v_x a) * alpha)
     (v_y a + (v_y b - v_y a) * alpha)
     (v_z a + (v_z b - v_z a) * alpha).

Definition lerpVectors (a b : Vector3) (alpha : R) : Vector3 :=
  V3 (v_x a + (v_x b - v_x a) * alpha)
     (v_y a + (v_y b - v_y a) * alpha)
     (v_z a + (v_z b - v_z a) * alpha).

Definition length (a : Vector3) : R :=
  sqrt (v_x a * v_x a + v_y a * v_y a + v_z a * v_z a).

(** [a.normalize()] is [a.divideScalar(a.length() || 1)] *)
Definition normalize (a : Vector3) : Vector3 :=
  let l := length a in
  multiplyScalar a (1 / (if truthy l then l else 1)).

Definition crossVectors (a b : Vector3) : Vector3 :=
  V3 (v_y a * v_z b - v_z a * v_y b)
     (v_z a * v_x b - v_x a * v_z b)
     (v_x a * v_y b - v_y a * v_x b).

End Vec.

Module Col.

(** [a.lerp(b, alpha)] on colours *)
Definition lerp (a b : Color) (alpha : R) : Color :=
  RGB (c_r a + (c_r b - c_r a) * alpha)
      (c_g a + (c_g b - c_g a) * alpha)
      (c_b a + (c_b b - c_b a) * alpha).

End Col.

(** The operations of three.js that the program calls and that are taken
    as given. *)
Class Three := {
  (** [new THREE.Euler().setFromQuaternion(q, 'YXZ')] *)
  euler_setFromQuaternion : Quaternion -> Euler;
  (** [q.setFromEuler(e)] for an Euler triple of order YXZ *)
  quat_setFromEuler : Euler -> Quaternion;
  (** [a.slerp(b, t)] *)
  quat_slerp : Quaternion -> Quaternion -> R -> Quaternion;
  (** [new THREE.Matrix4().makeBasis(x, y, z)] followed by
      [q.setFromRotationMatrix(m)] *)
  quat_setFromBasis : Vector3 -> Vector3 -> Vector3 -> Quaternion;
  (** [v.applyQuaternion(q)] *)
  vec_applyQuaternion : Vector3 -> Quaternion -> Vector3;
  (** [new THREE.Color('#rrggbb')] *)
  color_ofHex : string -> Color;
  (** [new THREE.Color().setHSL(h, s, l)] *)
  color_setHSL : R -> R -> R -> Color
}.

(** ** The random stream and the monad of functions that draw from it *)

Record Rng := mkRng { draws : nat -> R; cursor : nat }.

Definition M (A : Type) : Type := Rng -> option (A * Rng).

#[global] Instance M_ret : MRet M := fun A a g => Some (a, g).

#[global] Instance M_bind : MBind M := fun A B k m g =>
  match m g with
  | Some (a, g') => k a g'
  | None => None
  end.

(** No normal return: a loop that has used up its iterations, or an
    exception. *)
Definition diverge {A} : M A := fun _ => None.
Definition throw {A} : M A := fun _ => None.

(** [Math.random()] *)
Definition random : M R :=
  fun g => Some (draws g (cursor g), mkRng (draws g) (S (cursor g))).

(** The draws are in [0, 1), as [Math.random] promises. *)
Definition unitDraws (g : Rng) : Prop := forall n, 0 <= draws g n < 1.

(** ** The particle engine's state *)

(** [instancedGeometry.attributes]: one typed array per attribute. *)
Record Attributes := mkAttributes {
  aTargetPos : list R;
  aRandom : list R;
  aImgOffset : list R;
  aColor : list R;
  aID : list R;
  aIsPhoto : list R;
  aSize : list R
}.

(** [material.uniforms]: the values read by the shaders. *)
Record Uniforms := mkUniforms {
  uTime : R;
  uState : R;
  uHandPos : Vector3;
  uHandRotation : Quaternion;
  uScale : R;
  uClickedID : R
}.

Record PopupState := mkPopupState {
  active : bool;
  timer : R;
  totalDuration : R;
  startPos : Vector3;
  targetPos : Vector3;
  id : R
}.

(** [popupMesh], with its material's [uImgOffset]. *)
Record PopupMesh := mkPopupMesh {
  visible : bool;
  position : Vector3;
  scale : Vector3;
  quaternion : Quaternion;
  uImgOffset : R * R
}.

Record ParticleSystem := mkParticleSystem {
  particleCount : nat;
  currentShape : string;
  color : Color;
  attributes : Attributes;
  uniforms : Uniforms;
  (** [snowMaterial.uniforms.uTime], when there is a snow material *)
  snowTime : option R;
  handPos : Vector3;
  handRotation : Quaternion;
  smoothedHandPos : Vector3;
  smoothedHandRot : Quaternion;
  smoothedHandScale : R;
  isClosed : bool;
  photoCount : Z;
  atlasCols : Z;
  atlasRows : Z;
  popupState : PopupState;
  popupMesh : PopupMesh;
  (** [camera.quaternion] *)
  cameraQuaternion : Quaternion
}.

Definition set_attributes (a : Attributes) (st : ParticleSystem) : ParticleSystem :=
  mkParticleSystem (particleCount st) (currentShape st) (color st) a
    (uniforms st) (snowTime st) (handPos st) (handRotation st)
    (smoothedHandPos st) (smoothedHandRot st) (smoothedHandScale st)
    (isClosed st) (photoCount st) (atlasCols st) (atlasRows st)
    (popupState st) (popupMesh st) (cameraQuaternion st).

Definition set_uniforms (u : Uniforms) (st : ParticleSystem) : ParticleSystem :=
  mkParticleSystem (particleCount st) (currentShape st) (color st)
    (attributes st) u (snowTime st) (handPos st) (handRotation st)
    (smoothedHandPos st) (smoothedHandRot st) (smoothedHandScale st)
    (isClosed st) (photoCount st) (atlasCols st) (atlasRows st)
    (popupState st) (popupMesh st) (cameraQuaternion st).

Definition set_popup (p : PopupState) (m : PopupMesh) (st : ParticleSystem)
  : ParticleSystem :=
  mkParticleSystem (particleCount st) (currentShape st) (color st)
    (attributes st) (uniforms st) (snowTime st) (handPos st) (handRotation st)
    (smoothedHandPos st) (smoothedHandRot st) (smoothedHandScale st)
    (isClosed st) (photoCount st) (atlasCols st) (atlasRows st)
    p m (cameraQuaternion st).

Definition set_uTime (a : R) (u : Uniforms) : Uniforms :=
  mkUniforms a (uState u) (uHandPos u) (uHandRotation u) (uScale u) (uClickedID u).
Definition set_uState (a : R) (u : Uniforms) : Uniforms :=
  mkUniforms (uTime u) a (uHandPos u) (uHandRotation u) (uScale u) (uClickedID u).
Definition set_uHandPos (a : Vector3) (u : Uniforms) : Uniforms :=
  mkUniforms (uTime u) (uState u) a (uHandRotation u) (uScale u) (uClickedID u).
Definition set_uHandRotation (a : Quaternion) (u : Uniforms) : Uniforms :=
  mkUniforms (uTime u) (uState u) (uHandPos u) a (uScale u) (uClickedID u).
Definition set_uScale (a : R) (u : Uniforms) : Uniforms :=
  mkUniforms (uTime u) (uState u) (uHandPos u) (uHandRotation u) a (uClickedID u).
Definition set_uClickedID (a : R) (u : Uniforms) : Uniforms :=
  mkUniforms (uTime u) (uState u) (uHandPos u) (uHandRotation u) (uScale u) a.

(** The value handed to [update] by the tracker's [getState]. *)
Record HandData := mkHandData {
  hd_isClosed : bool;
  hd_position : R * R;
  (** [handData.rotation], tested for presence by [update] *)
  hd_rotation : option Quaternion;
  hd_scale : R
}.

(** ** The popup animator: [updatePopup] *)

(** The animation factor of [updatePopup] for the timer value [t]; there
    is none in the last branch, which ends the animation. *)
Definition popupFactor (t : R) : option R :=
  if Rlt_dec t 0.3 then Some (sin ((t / 0.3) * (PI / 2)))
  else if Rlt_dec t 1.2 then Some 1.0
  else if Rlt_dec t 1.5 then Some (1.0 - (t - 1.2) / 0.3)
  else None.

Definition updatePopup (dt : R) (st : ParticleSystem) : ParticleSystem :=
  let p := popupState st in
  if negb (active p) then st
  else
    let t := timer p + dt in
    let p := mkPopupState (active p) t (totalDuration p) (startPos p)
               (targetPos p) (id p) in
    match popupFactor t with
    | None =>
        let m := popupMesh st in
        set_uniforms (set_uClickedID (-1.0) (uniforms st))
          (set_popup
             (mkPopupState false t (totalDuration p) (startPos p) (targetPos p) (id p))
             (mkPopupMesh false (position m) (scale m) (quaternion m) (uImgOffset m))
             st)
    | Some factor =>
        let currentPos := Vec.lerpVectors (startPos p) (targetPos p) factor in
        let s := 0.2 + 0.8 * factor in
        let m := popupMesh st in
        set_popup p
          (mkPopupMesh (visible m) currentPos (V3 s s s) (cameraQuaternion st)
             (uImgOffset m))
          st
    end.

(** ** The frame tick: [update] *)

Section Engine.

Context `{Three}.

Definition update (dt : R) (handData : option HandData) (st : ParticleSystem)
  : ParticleSystem :=
  let st := set_uniforms (set_uTime (uTime (uniforms st) + dt) (uniforms st)) st in
  let st :=
    mkParticleSystem (particleCount st) (currentShape st) (color st)
      (attributes st) (uniforms st)
      (match snowTime st with Some a => Some (a + dt) | None => None end)
      (handPos st) (handRotation st)
      (smoothedHandPos st) (smoothedHandRot st) (smoothedHandScale st)
      (isClosed st) (photoCount st) (atlasCols st) (atlasRows st)
      (popupState st) (popupMesh st) (cameraQuaternion st) in
  let st :=
    match handData with
    | None => st
    | Some hd =>
        let x := (fst (hd_position hd) - 0.5) * 40 in
        let y := - (snd (hd_position hd) - 0.5) * 30 in
        let handPos' := V3 x y 0 in
        let isClosed' := hd_isClosed hd in
        let posLerpFactor := if isClosed' then 0.03 else 0.15 in
        let smoothedHandPos' := Vec.lerp (smoothedHandPos st) handPos' posLerpFactor in
        let u := set_uHandPos smoothedHandPos' (uniforms st) in
        (* 2. rotation *)
        let '(handRotation', smoothedHandRot', u) :=
          match hd_rotation hd with
          | None => (handRotation st, smoothedHandRot st, u)
          | Some rot =>
              let maxTilt := PI / 2.5 in
              let normalizedY :=
                Math.max (-1) (Math.min 1 (v_y smoothedHandPos' / 15.0)) in
              let tiltAngle := - normalizedY * maxTilt in
              let euler := euler_setFromQuaternion rot in
              let euler := Eul tiltAngle (e_y euler) (e_z euler) in
              let hr := quat_setFromEuler euler in
              let sr := quat_slerp (smoothedHandRot st) hr posLerpFactor in
              (hr, sr, set_uHandRotation sr u)
          end in
        (* 3. scale *)
        let '(smoothedHandScale', u) :=
          if truthy (hd_scale hd) then
            let minS := 0.1 in
            let maxS := 0.3 in
            let s := (hd_scale hd - minS) / (maxS - minS) in
            let s := Math.max 0.0 (Math.min 1.0 s) in
            let finalScale := 1.0 + s * 1.5 in
            let sm := smoothedHandScale st
                      + (finalScale - smoothedHandScale st) * posLerpFactor in
            (sm, set_uScale sm u)
          else (smoothedHandScale st, u) in
        (* blend *)
        let targetState := if isClosed' then 1.0 else 0.0 in
        let lerpSpeed := 0.5 in
        let u := set_uState (uState u + (targetState - uState u) * lerpSpeed * dt) u in
        mkParticleSystem (particleCount st) (currentShape st) (color st)
          (attributes st) u (snowTime st) handPos' handRotation'
          smoothedHandPos' smoothedHandRot' smoothedHandScale'
          isClosed' (photoCount st) (atlasCols st) (atlasRows st)
          (popupState st) (popupMesh st) (cameraQuaternion st)
    end in
  updatePopup dt st.

(** The animation loop of [main.js]: one [update] per frame, each with
    the frame's [dt] and the latest hand data. *)
Fixpoint run (frames : list (R * option HandData)) (st : ParticleSystem)
  : ParticleSystem :=
  match frames with
  | [] => st
  | (dt, hd) :: rest => run rest (update dt hd st)
  end.

(** *** The particle's current position on the CPU: [getParticlePos] *)

(** [array[i]]; an index outside the array reads [undefined], which the
    arithmetic that follows would turn into NaN: it is 0 here, and no
    state built by [initParticles] reaches it. *)
Definition readAt (l : list R) (i : nat) : R := default 0 (l !! i).

Definition getParticlePos (id : nat) (st : ParticleSystem) : Vector3 :=
  let attr := attributes st in
  let tPos := V3 (readAt (aTargetPos attr) (id * 3))
                 (readAt (aTargetPos attr) (id * 3 + 1))
                 (readAt (aTargetPos attr) (id * 3 + 2)) in
  let rand := V3 (readAt (aRandom attr) (id * 3))
                 (readAt (aRandom attr) (id * 3 + 1))
                 (readAt (aRandom attr) (id * 3 + 2)) in
  (* 1. closed state *)
  let uTime := uTime (uniforms st) in
  let breathe := sin (uTime * 2.0 + v_y rand * 10.0) * 0.5 + 0.5 in
  let shapePos := vec_applyQuaternion tPos (uHandRotation (uniforms st)) in
  let shapePos := Vec.multiplyScalar shapePos (uScale (uniforms st)) in
  let shapePos :=
    Vec.add shapePos (Vec.multiplyScalar (Vec.normalize shapePos) (breathe * 0.2)) in
  (* 2. open state *)
  let t := uTime * 0.5 + v_x rand * 10.0 in
  let floatOffset :=
    Vec.multiplyScalar (V3 (sin t) (cos (t * 0.8)) (sin (t * 1.2))) 3.0 in
  let randomSpread := Vec.multiply (Vec.subScalar rand 0.5) (V3 70.0 60.0 40.0) in
  let randomSpread :=
    V3 (v_x randomSpread) (v_y randomSpread) (v_z randomSpread - 10.0) in
  let handPos := uHandPos (uniforms st) in
  let cloudPos := Vec.add (Vec.add handPos randomSpread) floatOffset in
  (* 3. interpolation *)
  let controlPoint :=
    Vec.add shapePos (Vec.multiplyScalar (Vec.normalize shapePos) 20.0) in
  let uState := uState (uniforms st) in
  let progress := 1.0 - uState in
  let oneMinusT := 1.0 - progress in
  Vec.addScaledVector
    (Vec.addScaledVector
       (Vec.addScaledVector Vec.zero shapePos (oneMinusT * oneMinusT))
       controlPoint (2.0 * oneMinusT * progress))
    cloudPos (progress * progress).

(** *** Focus activation: [onClick] *)

(** [isPhotos[r] > 0.5] for the number [r]; an [r] that is no index of
    the array reads [undefined], and the comparison is false. *)
Definition isPhotoAt (isPhotos : list R) (r : Z) : bool :=
  if (r <? 0)%Z then false
  else match isPhotos !! Z.to_nat r with
       | Some a => ltb 0.5 a
       | None => false
       end.

(** The loop [for (let i = 0; i < 100; i++)] of [onClick], for any
    number of rounds left; [None] is [randomID = -1]. *)
Fixpoint findPhotoParticle (rounds : nat) (isPhotos : list R) (count : nat)
  : M (option Z) :=
  match rounds with
  | O => mret None
  | S rounds' =>
      a ← random;
      let r := Math.floor (a * INR count) in
      if isPhotoAt isPhotos r then mret (Some r)
      else findPhotoParticle rounds' isPhotos count
  end.

Definition onClick (st : ParticleSystem) : M ParticleSystem :=
  if isClosed st then mret st
  else
    let isPhotos := aIsPhoto (attributes st) in
    let count := particleCount st in
    a ← random;
    let randomPhotoSlot := Math.floor (a * IZR (photoCount st)) in
    let cellSize := 1.0 / IZR (atlasCols st) in
    let col := Z.rem randomPhotoSlot (atlasCols st) in
    let row := Math.floor (IZR randomPhotoSlot / IZR (atlasCols st)) in
    let ox := IZR col * cellSize in
    let oy := IZR (atlasRows st - 1 - row) * cellSize in
    randomID ← findPhotoParticle 100 isPhotos count;
    match randomID with
    | Some r =>
        let st := set_uniforms (set_uClickedID (IZR r) (uniforms st)) st in
        let startPos := getParticlePos (Z.to_nat r) st in
        let p := popupState st in
        let m := popupMesh st in
        mret (set_popup
                (mkPopupState true 0 (totalDuration p) startPos (targetPos p) (IZR r))
                (mkPopupMesh true startPos (V3 0.1 0.1 0.1) (quaternion m) (ox, oy))
                st)
    | None => mret st
    end.

(** The vertex shader draws no particle whose id is [uClickedID]:
    [if (abs(aID - uClickedID) < 0.1) { gl_Position = vec4(0.0); return; }]. *)
Definition hiddenFromDraw (st : ParticleSystem) (i : nat) : Prop :=
  exists a, aID (attributes st) !! i = Some a
            /\ Rabs (a - uClickedID (uniforms st)) < 0.1.

(** *** Shape targets: [generateShape] *)

(** The two arrays being rewritten, with the write cursors [idx] and
    [cIdx]. *)
Record Gen := mkGen {
  positions : list R;
  colors : list R;
  idx : nat;
  cIdx : nat
}.

Definition setRGB (r g b : R) (w : Gen) : Gen :=
  let c0 := <[cIdx w := r]> (colors w) in
  let c1 := <[S (cIdx w) := g]> c0 in
  let c2 := <[S (S (cIdx w)) := b]> c1 in
  mkGen (positions w) c2 (idx w) (S (S (S (cIdx w)))).

(** [setHex(hex)]: [new THREE.Color(hex)] is the colour itself when
    [hex] is [this.color], and [color_ofHex] of a string. *)
Definition setHex (c : Color) (w : Gen) : Gen := setRGB (c_r c) (c_g c) (c_b c) w.

(** [positions[idx++] = a; positions[idx++] = b; positions[idx++] = c] *)
Definition setPos (a b c : R) (w : Gen) : Gen :=
  let p0 := <[idx w := a]> (positions w) in
  let p1 := <[S (idx w) := b]> p0 in
  let p2 := <[S (S (idx w)) := c]> p1 in
  mkGen p2 (colors w) (S (S (S (idx w)))) (cIdx w).

Definition randomInSphere : M Vector3 :=
  u ← random;
  v ← random;
  let theta := 2 * PI * u in
  let phi := acos (2 * v - 1) in
  a ← random;
  let r := Math.cbrt a in
  mret (V3 (r * sin phi * cos theta) (r * sin phi * sin theta) (r * cos phi)).

(** The acceptance test of the heart volume. *)
Definition insideHeart (p : Vector3) : bool :=
  let x := v_x p in
  let y := v_y p in
  let z := v_z p in
  let a := x * x + 9 / 4 * y * y + z * z - 1 in
  ltb (a * a * a - x * x * z * z * z - 9 / 80 * y * y * z * z * z) 0.

(** The point drawn by one round of the [while (true)] loop. *)
Definition heartCandidate (a b c : R) : Vector3 :=
  V3 ((a - 0.5) * 3) ((b - 0.5) * 3) ((c - 0.5) * 3).

(** The loop [while (true) { p.set(...); if (...) break; }], for at most
    [fuel] rounds. *)
Fixpoint sampleHeart (fuel : nat) : M Vector3 :=
  match fuel with
  | O => diverge
  | S fuel' =>
      a ← random;
      b ← random;
      c ← random;
      let p := heartCandidate a b c in
      if insideHeart p then mret p else sampleHeart fuel'
  end.

Definition heartParticle (fuel : nat) (color : Color) (w : Gen) : M Gen :=
  let w := setHex color w in
  p ← sampleHeart fuel;
  mret (setPos (v_x p * 10) (v_y p * 10) (v_z p * 10) w).

Definition flowerParticle (color : Color) (w : Gen) : M Gen :=
  let w := setHex color w in
  u ← random;
  v ← random;
  a ← random;
  let theta := a * PI * 2 in
  b ← random;
  let phi := acos (2 * b - 1) in
  let r := 10 + 5 * sin (5 * theta) * sin phi in
  c ← random;
  let rFinal := r + (c - 0.5) * 2 in
  let x := rFinal * sin phi * cos theta in
  let y := rFinal * sin phi * sin theta in
  let z := rFinal * cos phi in
  mret (setPos x y z w).

(** The two tilts applied to ring and moon points of the planet. *)
Definition planetTilt (x y z : R) : R * R * R :=
  let tiltX := 0.4 in
  let tiltZ := 0.2 in
  let y1 := y * cos tiltX - z * sin tiltX in
  let z1 := y * sin tiltX + z * cos tiltX in
  let x1 := x in
  let x2 := x1 * cos tiltZ - y1 * sin tiltZ in
  let y2 := x1 * sin tiltZ + y1 * cos tiltZ in
  let z2 := z1 in
  (x2, y2, z2).

Definition moonOffsets : list (R * R) :=
  [(20, 0.0); (27, 2.1); (16, 4.5); (22, 5.4)].

Definition planetParticle (w : Gen) : M Gen :=
  r ← random;
  if ltb r 0.55 then
    d ← randomInSphere;
    let dir := Vec.normalize d in
    let latitude := asin (v_y dir) in
    a ← random;
    let band := sin (latitude * 4.0 + a * 0.4) * 0.5 + 0.5 in
    b ← random;
    let coreRadius := 10.0 + b * 0.8 in
    let coreColor := color_setHSL (0.04 + band * 0.025) 0.7 (0.28 + band * 0.25) in
    let w := setRGB (c_r coreColor) (c_g coreColor) (c_b coreColor) w in
    let pos := Vec.multiplyScalar dir coreRadius in
    mret (setPos (v_x pos) (v_y pos) (v_z pos) w)
  else if ltb r 0.78 then
    a ← random;
    let angle := a * PI * 2 in
    b ← random;
    let dist := 14 + b * 10 in
    c ← random;
    let height := (c - 0.5) * 0.6 in
    d ← random;
    let goldMix := 0.6 + d * 0.3 in
    let ringColor := Col.lerp (color_ofHex "#c9a34a") (color_ofHex "#f3d38c") goldMix in
    let w := setRGB (c_r ringColor) (c_g ringColor) (c_b ringColor) w in
    let x := dist * cos angle in
    let z := dist * sin angle in
    let y := height in
    let '(x2, y2, z2) := planetTilt x y z in
    mret (setPos x2 y2 z2 w)
  else if ltb r 0.92 then
    a ← random;
    let angle := a * PI * 2 in
    b ← random;
    let isVerticalArc := ltb b 0.35 in
    c ← random;
    let dist := if isVerticalArc then 18 + c * 6 else 24 + c * 6 in
    d ← random;
    let height := if isVerticalArc then (d - 0.5) * 8.0 else (d - 0.5) * 2.5 in
    e ← random;
    let colorBase := Col.lerp (color_ofHex "#d3b17d") (color_ofHex "#8c5c2b") (e * 0.4) in
    let w := setRGB (c_r colorBase) (c_g colorBase) (c_b colorBase) w in
    let x := dist * cos angle in
    let z := dist * sin angle in
    let y := height + sin (angle * 2.0) * 0.4 in
    let '(x2, y2, z2) := planetTilt x y z in
    mret (setPos x2 y2 z2 w)
  else
    a ← random;
    let k := Math.floor (a * 4) in
    match (if (k <? 0)%Z then None else moonOffsets !! Z.to_nat k) with
    | None => throw
    | Some (m_r, m_a) =>
        dir ← randomInSphere;
        b ← random;
        let moonR := 1.8 + b * 0.8 in
        c ← random;
        let moonColor :=
          Col.lerp (color_ofHex "#f0f8ff") (color_ofHex "#ffefd5") (c * 0.4) in
        let w := setRGB (c_r moonColor) (c_g moonColor) (c_b moonColor) w in
        let mx := m_r * cos m_a in
        let mz := m_r * sin m_a in
        let my := 0 in
        let '(x2, y2, z2) := planetTilt mx my mz in
        mret (setPos (x2 + v_x dir * moonR) (y2 + v_y dir * moonR)
                (z2 + v_z dir * moonR) w)
    end.

Definition starParticle (color : Color) (w : Gen) : M Gen :=
  let w := setHex color w in
  p ← randomInSphere;
  let dir := Vec.normalize p in
  let theta := Math.atan2 (v_z dir) (v_x dir) in
  let phi := acos (v_y dir) in
  let rBase := 8 in
  let spike := Math.pow (Math.abs (cos (2.5 * theta) * sin phi)) 4.0 * 15 in
  a ← random;
  let r := rBase + spike + a * 2 in
  mret (setPos (v_x dir * r) (v_y dir * r) (v_z dir * r) w).

Definition treeParticle (w : Gen) : M Gen :=
  let layers := 7 in
  let starCenter := V3 0 11 0 in
  t ← random;
  if ltb t 0.08 then
    let w := setHex (color_ofHex "#4a2e16") w in
    a ← random;
    let theta := a * PI * 2 in
    b ← random;
    let r := 0.6 + b * 0.8 in
    c ← random;
    let y := -10 + c * 4 in
    mret (setPos (r * cos theta * 0.8) y (r * sin theta * 0.8) w)
  else if ltb 0.94 t then
    let w := setHex (color_ofHex "#FFD700") w in
    d ← randomInSphere;
    let dir := Vec.normalize d in
    a ← random;
    let s := 1.0 + a * 0.8 in
    mret (setPos (v_x starCenter + v_x dir * s) (v_y starCenter + v_y dir * s)
            (v_z starCenter + v_z dir * s) w)
  else
    let y := t * 20 - 10 in
    let layerT := t * layers in
    let layerProgress := Math.mod1 layerT in
    let layerShape := Math.pow (1 - layerProgress) 0.8 in
    let maxR := 6.5 in
    let rBoundary := (1 - t) * maxR * (0.75 + 0.5 * layerShape) in
    a ← random;
    let theta := a * PI * 2 in
    let wobble := sin (theta * 3.0 + layerT) * 0.2 in
    b ← random;
    let r := rBoundary * sqrt (0.1 + 0.9 * b) in
    let edgeFactor := if ltb 0 rBoundary then r / rBoundary else 0.0 in
    let yPos := y + wobble in
    c ← random;
    if ltb c 0.12 then
      let w := setHex (color_ofHex "#FFD966") w in
      let turns := 4.5 in
      let angle := t * turns * 2 * PI in
      let garlandR := rBoundary * 0.85 + 0.3 in
      mret (setPos (garlandR * cos angle) yPos (garlandR * sin angle) w)
    else
      d ← random;
      w ← (if ltb d (0.12 + edgeFactor * 0.25) then
              mret (setHex (color_ofHex "#e6f6ff") w)
            else
              e ← random;
              if ltb e 0.14 then
                ornamentType ← random;
                if ltb ornamentType 0.33 then mret (setHex (color_ofHex "#FF0000") w)
                else if ltb ornamentType 0.66 then
                  mret (setHex (color_ofHex "#FFD700") w)
                else mret (setHex (color_ofHex "#1E90FF") w)
              else mret (setHex (color_ofHex "#0f5e2f") w));
      mret (setPos (r * cos theta) yPos (r * sin theta) w).

(** [for (let i = 0; i < this.particleCount; i++) body] *)
Fixpoint forParticles (n : nat) (body : Gen -> M Gen) (w : Gen) : M Gen :=
  match n with
  | O => mret w
  | S n' => w' ← body w; forParticles n' body w'
  end.

Definition allowedShapes : list string := ["heart"; "planet"; "star"; "tree"].

(** [allowedShapes.includes(type)] *)
Definition includes (l : list string) (type : string) : bool :=
  existsb (String.eqb type) l.

(** [fuel] bounds the rounds of each [while (true)] loop. *)
Definition generateShape (fuel : nat) (type : string) (st : ParticleSystem)
  : M ParticleSystem :=
  let type := if includes allowedShapes type then type else "heart" in
  let st :=
    mkParticleSystem (particleCount st) type (color st)
      (attributes st) (uniforms st) (snowTime st) (handPos st) (handRotation st)
      (smoothedHandPos st) (smoothedHandRot st) (smoothedHandScale st)
      (isClosed st) (photoCount st) (atlasCols st) (atlasRows st)
      (popupState st) (popupMesh st) (cameraQuaternion st) in
  let w := mkGen (aTargetPos (attributes st)) (aColor (attributes st)) 0 0 in
  let n := particleCount st in
  w ← (if String.eqb type "heart" then forParticles n (heartParticle fuel (color st)) w
       else if String.eqb type "flower" then forParticles n (flowerParticle (color st)) w
       else if String.eqb type "planet" then forParticles n planetParticle w
       else if String.eqb type "star" then forParticles n (starParticle (color st)) w
       else if String.eqb type "tree" then forParticles n treeParticle w
       else mret w);
  let a := attributes st in
  mret (set_attributes
          (mkAttributes (positions w) (aRandom a) (aImgOffset a) (colors w)
             (aID a) (aIsPhoto a) (aSize a))
          st).

Definition setColor (hex : string) (st : ParticleSystem) : ParticleSystem :=
  mkParticleSystem (particleCount st) (currentShape st) (color_ofHex hex)
    (attributes st) (uniforms st) (snowTime st) (handPos st) (handRotation st)
    (smoothedHandPos st) (smoothedHandRot st) (smoothedHandScale st)
    (isClosed st) (photoCount st) (atlasCols st) (atlasRows st)
    (popupState st) (popupMesh st) (cameraQuaternion st).

Definition setShape (fuel : nat) (shape : string) (st : ParticleSystem)
  : M ParticleSystem :=
  st ← generateShape fuel shape st;
  let appliedShape := currentShape st in
  mret (if String.eqb appliedShape "planet" then setColor "#800000" st
        else if String.eqb appliedShape "tree" then setColor "#0f5e2f" st
        else st).


(** *** Construction: [initParticles] *)

(** The body of the loop of [initParticles] for particle [i]; the seven
  arrays are the ones allocated before the loop. *)
Definition initParticle (defaultColor : Color) (cols rows : Z) (i : nat)
(a : Attributes) : M Attributes :=
t0 ← random;
t1 ← random;
t2 ← random;
let targets :=
  <[(i * 3 + 2)%nat := (t2 - 0.5) * 50]>
    (<[(i * 3 + 1)%nat := (t1 - 0.5) * 50]>
       (<[(i * 3)%nat := (t0 - 0.5) * 50]> (aTargetPos a))) in
r0 ← random;
r1 ← random;
r2 ← random;
let randoms :=
  <[(i * 3 + 2)%nat := r2]>
    (<[(i * 3 + 1)%nat := r1]> (<[(i * 3)%nat := r0]> (aRandom a))) in
let ids := <[i := INR i]> (aID a) in
f ← random;
let isPhotos := <[i := if ltb 0.75 f then 1.0 else 0.0]> (aIsPhoto a) in
g ← random;
let sizes := <[i := 0.8 + g * 0.7]> (aSize a) in
h ← random;
let imgIdx := Math.floor (h * 8) in
let col := Z.rem imgIdx cols in
let row := Math.floor (IZR imgIdx / IZR cols) in
let cellSize := 1.0 / IZR cols in
let imgOffsets :=
  <[(i * 2 + 1)%nat := IZR (rows - 1 - row) * cellSize]>
    (<[(i * 2)%nat := IZR col * cellSize]> (aImgOffset a)) in
let colors :=
  <[(i * 3 + 2)%nat := c_b defaultColor]>
    (<[(i * 3 + 1)%nat := c_g defaultColor]>
       (<[(i * 3)%nat := c_r defaultColor]> (aColor a))) in
mret (mkAttributes targets randoms imgOffsets colors ids isPhotos sizes).

(** The loop of [initParticles] from particle [i] on, for [n] particles. *)
Fixpoint initLoop (defaultColor : Color) (cols rows : Z) (n i : nat)
(a : Attributes) : M Attributes :=
match n with
| O => mret a
| S n' =>
    a' ← initParticle defaultColor cols rows i a;
    initLoop defaultColor cols rows n' (S i) a'
end.

(** The attributes of [initParticles] for [count] particles. *)
Definition initParticles (count : nat) (defaultColor : Color) (cols rows : Z)
: M Attributes :=
let zeros (k : nat) := replicate k 0 in
initLoop defaultColor cols rows count 0
  (mkAttributes (zeros (count * 3)%nat) (zeros (count * 3)%nat)
     (zeros (count * 2)%nat) (zeros (count * 3)%nat)
     (zeros count) (zeros count) (zeros count)).

End Engine.

(** ** The pose estimator: [HandTracker] *)

Record HandTracker := mkHandTracker {
  t_isClosed : bool;
  handPosition : R * R;
  rotation : Quaternion;
  (** [undefined] until the first frame with a hand *)
  handScale : option R
}.

(** A landmark has the fields [x], [y] and [z]. *)
Definition Landmark : Type := Vector3.

(** [isNaN(a)]: no real number is NaN. *)
Definition isNaN (a : R) : bool := false.

(** The distance of [updateHandState] between a landmark and the wrist. *)
Definition wristDistance (wrist p : Landmark) : R :=
  sqrt (Math.pow2 (v_x p - v_x wrist)
        + Math.pow2 (v_y p - v_y wrist)
        + Math.pow2 (v_z p - v_z wrist)).

(** [let avg = 0; ps.forEach(p => avg += dist(p)); avg /= 4] *)
Definition averageDistance (wrist : Landmark) (ps : list Landmark) : R :=
  fold_left (fun avg p => avg + wristDistance wrist p) ps 0 / 4.

(** The gesture computed by [updateHandState] from the wrist, the four
    finger tips and the four knuckles. *)
Definition classify (wrist : Landmark) (tips mcps : list Landmark) : bool :=
  let avgTipDist := averageDistance wrist tips in
  let avgMcpDist := averageDistance wrist mcps in
  ltb avgTipDist (avgMcpDist * 1.3).

Section Tracker.

Context `{Three}.

(** [updateHandState(landmarks)].  Reading a field of a landmark that the
    frame does not have throws, before anything is assigned: that is the
    result [None]. *)
Definition updateHandState (landmarks : list Landmark) (tr : HandTracker)
  : option HandTracker :=
  wrist ← landmarks !! 0%nat;
  tips ← mapM (fun i : nat => landmarks !! i) [8; 12; 16; 20]%nat;
  mcps ← mapM (fun i : nat => landmarks !! i) [5; 9; 13; 17]%nat;
  l9 ← landmarks !! 9%nat;
  l5 ← landmarks !! 5%nat;
  l17 ← landmarks !! 17%nat;
  let isClosed' := classify wrist tips mcps in
  let handPosition' := (1 - v_x l9, v_y l9) in
  let wristToMiddleDist :=
    sqrt (Math.pow2 (v_x l9 - v_x wrist) + Math.pow2 (v_y l9 - v_y wrist)) in
  let handScale' := Some wristToMiddleDist in
  let skip := mkHandTracker isClosed' handPosition' (rotation tr) handScale' in
  let vWrist := wrist in
  let vMiddle := l9 in
  let vIndex := l5 in
  let vPinky := l17 in
  let vWtoI := Vec.subVectors vIndex vWrist in
  let vWtoP := Vec.subVectors vPinky vWrist in
  let vWtoI := V3 (- v_x vWtoI) (- v_y vWtoI) (v_z vWtoI) in
  let vWtoP := V3 (- v_x vWtoP) (- v_y vWtoP) (v_z vWtoP) in
  let zAxis := Vec.normalize (Vec.crossVectors vWtoI vWtoP) in
  if isNaN (v_x zAxis) || isNaN (v_y zAxis) || isNaN (v_z zAxis) then Some skip
  else
    let yAxisFinal := Vec.subVectors vMiddle vWrist in
    let yAxisFinal :=
      Vec.normalize (V3 (- v_x yAxisFinal) (- v_y yAxisFinal) (v_z yAxisFinal)) in
    if isNaN (v_x yAxisFinal) || isNaN (v_y yAxisFinal) || isNaN (v_z yAxisFinal)
    then Some skip
    else
      let xAxis := Vec.normalize (Vec.crossVectors yAxisFinal zAxis) in
      if isNaN (v_x xAxis) || isNaN (v_y xAxis) || isNaN (v_z xAxis) then Some skip
      else
        Some (mkHandTracker isClosed' handPosition'
                (quat_setFromBasis xAxis yAxisFinal zAxis) handScale').

Definition getState (tr : HandTracker) : HandData :=
  mkHandData (t_isClosed tr) (handPosition tr) (Some (rotation tr))
    (match handScale tr with
     | Some a => if truthy a then a else 0.2
     | None => 0.2
     end).

(** [handleResults(results)] for [results.multiHandLandmarks] (absent is
    the empty list): the new tracker and the value given to the callback. *)
Definition handleResults (multiHandLandmarks : list (list Landmark))
  (tr : HandTracker) : option (HandTracker * option HandData) :=
  match multiHandLandmarks with
  | landmarks :: _ =>
      tr' ← updateHandState landmarks tr;
      Some (tr', Some (getState tr'))
  | [] => Some (tr, None)
  end.

End Tracker.

(** A landmark with its coordinates multiplied by [k]. *)
Definition scaleLandmark (k : R) (p : Landmark) : Landmark :=
  V3 (k * v_x p) (k * v_y p) (k * v_z p).

(** Every landmark of a frame multiplied by [k]. *)
Definition scaleFrame (k : R) (landmarks : list Landmark) : list Landmark :=
  map (scaleLandmark k) landmarks.


(** ** An implementation of the three.js operations

    The formulas of three.js, over the reals.  The engine is run with them
    on concrete inputs; no statement below depends on what they compute. *)

Module ThreeJS.

(** The rotation of the vertex shader's [applyQuaternion]:
    [v + 2.0 * cross(q.xyz, cross(q.xyz, v) + q.w * v)]. *)
Definition applyQuaternion (v : Vector3) (q : Quaternion) : Vector3 :=
  let u := V3 (q_x q) (q_y q) (q_z q) in
  let t := Vec.add (Vec.crossVectors u v) (Vec.multiplyScalar v (q_w q)) in
  Vec.add v (Vec.multiplyScalar (Vec.crossVectors u t) 2.0).

Definition setFromEuler (e : Euler) : Quaternion :=
  let c1 := cos (e_x e / 2) in
  let c2 := cos (e_y e / 2) in
  let c3 := cos (e_z e / 2) in
  let s1 := sin (e_x e / 2) in
  let s2 := sin (e_y e / 2) in
  let s3 := sin (e_z e / 2) in
  Quat (s1 * c2 * c3 + c1 * s2 * s3)
       (c1 * s2 * c3 - s1 * c2 * s3)
       (c1 * c2 * s3 - s1 * s2 * c3)
       (c1 * c2 * c3 + s1 * s2 * s3).

Definition clamp (a lo hi : R) : R := Rmax lo (Rmin hi a).

Definition setFromQuaternion (q : Quaternion) : Euler :=
  let x := q_x q in
  let y := q_y q in
  let z := q_z q in
  let w := q_w q in
  let m11 := 1 - (y * (y + y) + z * (z + z)) in
  let m13 := x * (z + z) + w * (y + y) in
  let m21 := x * (y + y) + w * (z + z) in
  let m22 := 1 - (x * (x + x) + z * (z + z)) in
  let m23 := y * (z + z) - w * (x + x) in
  let m31 := x * (z + z) - w * (y + y) in
  let m33 := 1 - (x * (x + x) + y * (y + y)) in
  if Rlt_dec (Rabs m23) 0.9999999 then
    Eul (asin (- clamp m23 (-1) 1)) (Math.atan2 m13 m33) (Math.atan2 m21 m22)
  else
    Eul (asin (- clamp m23 (-1) 1)) (Math.atan2 (- m31) m11) 0.

Definition quatNormalize (q : Quaternion) : Quaternion :=
  let l := sqrt (q_x q * q_x q + q_y q * q_y q + q_z q * q_z q + q_w q * q_w q) in
  if truthy l then Quat (q_x q / l) (q_y q / l) (q_z q / l) (q_w q / l)
  else Quat 0 0 0 1.

Definition slerp (a b : Quaternion) (t : R) : Quaternion :=
  if Req_dec_T t 0 then a
  else if Req_dec_T t 1 then b
  else
    let c := q_w a * q_w b + q_x a * q_x b + q_y a * q_y b + q_z a * q_z b in
    let b := if Rlt_dec c 0 then Quat (- q_x b) (- q_y b) (- q_z b) (- q_w b) else b in
    let c := Rabs c in
    if Rle_dec 1 c then a
    else
      let sqrSin := 1 - c * c in
      let sinHalf := sqrt sqrSin in
      let halfTheta := Math.atan2 sinHalf c in
      let ratioA := sin ((1 - t) * halfTheta) / sinHalf in
      let ratioB := sin (t * halfTheta) / sinHalf in
      Quat (q_x a * ratioA + q_x b * ratioB)
           (q_y a * ratioA + q_y b * ratioB)
           (q_z a * ratioA + q_z b * ratioB)
           (q_w a * ratioA + q_w b * ratioB).

Definition setFromBasis (xAxis yAxis zAxis : Vector3) : Quaternion :=
  let m11 := v_x xAxis in let m12 := v_x yAxis in let m13 := v_x zAxis in
  let m21 := v_y xAxis in let m22 := v_y yAxis in let m23 := v_y zAxis in
  let m31 := v_z xAxis in let m32 := v_z yAxis in let m33 := v_z zAxis in
  let trace := m11 + m22 + m33 in
  if Rlt_dec 0 trace then
    let s := 0.5 / sqrt (trace + 1.0) in
    Quat ((m32 - m23) * s) ((m13 - m31) * s) ((m21 - m12) * s) (0.25 / s)
  else if ltb m22 m11 && ltb m33 m11 then
    let s := 2.0 * sqrt (1.0 + m11 - m22 - m33) in
    Quat (0.25 * s) ((m12 + m21) / s) ((m13 + m31) / s) ((m32 - m23) / s)
  else if Rlt_dec m33 m22 then
    let s := 2.0 * sqrt (1.0 + m22 - m11 - m33) in
    Quat ((m12 + m21) / s) (0.25 * s) ((m23 + m32) / s) ((m13 - m31) / s)
  else
    let s := 2.0 * sqrt (1.0 + m33 - m11 - m22) in
    Quat ((m13 + m31) / s) ((m23 + m32) / s) (0.25 * s) ((m21 - m12) / s).

Definition hexDigit (c : Ascii.ascii) : Z :=
  let n := Z.of_N (Ascii.N_of_ascii c) in
  if (48 <=? n)%Z && (n <=? 57)%Z then n - 48
  else if (65 <=? n)%Z && (n <=? 70)%Z then n - 55
  else if (97 <=? n)%Z && (n <=? 102)%Z then n - 87
  else 0.

(** ["#rrggbb"], each channel divided by 255. *)
Definition ofHex (hex : string) : Color :=
  match hex with
  | String _ (String r1 (String r0 (String g1 (String g0 (String b1 (String b0 _)))))) =>
      RGB (IZR (16 * hexDigit r1 + hexDigit r0) / 255)
          (IZR (16 * hexDigit g1 + hexDigit g0) / 255)
          (IZR (16 * hexDigit b1 + hexDigit b0) / 255)
  | _ => RGB 1 1 1
  end.

Definition hue2rgb (p q t : R) : R :=
  let t := if Rlt_dec t 0 then t + 1 else t in
  let t := if Rlt_dec 1 t then t - 1 else t in
  if Rlt_dec t (1 / 6) then p + (q - p) * 6 * t
  else if Rlt_dec t (1 / 2) then q
  else if Rlt_dec t (2 / 3) then p + (q - p) * 6 * (2 / 3 - t)
  else p.

Definition setHSL (h s l : R) : Color :=
  let h := Math.mod1 h in
  let s := clamp s 0 1 in
  let l := clamp l 0 1 in
  if Req_dec_T s 0 then RGB l l l
  else
    let p := if Rle_dec l 0.5 then l * (1 + s) else l + s - l * s in
    let q := 2 * l - p in
    RGB (hue2rgb q p (h + 1 / 3)) (hue2rgb q p h) (hue2rgb q p (h - 1 / 3)).

End ThreeJS.

#[global] Instance three : Three := {
  euler_setFromQuaternion := ThreeJS.setFromQuaternion;
  quat_setFromEuler := ThreeJS.setFromEuler;
  quat_slerp := ThreeJS.slerp;
  quat_setFromBasis := ThreeJS.setFromBasis;
  vec_applyQuaternion := ThreeJS.applyQuaternion;
  color_ofHex := ThreeJS.ofHex;
  color_setHSL := ThreeJS.setHSL
}.

(** ** Concrete inputs *)

(** An engine with two particles, of which the first carries a photo, as
    the constructor leaves it (blend 0, no popup, no hand seen yet). *)
Definition twoParticles : ParticleSystem :=
  mkParticleSystem 2 "heart" (RGB 1 0 0.4)
    (mkAttributes [1; 2; 3; 4; 5; 6] [0.1; 0.2; 0.3; 0.4; 0.5; 0.6]
       [0; 0.875; 0.125; 0.875] [1; 0; 0.4; 1; 0; 0.4] [0; 1] [1; 0] [1; 1.2])
    (mkUniforms 0 0 Vec.zero (Quat 0 0 0 1) 1 (-1))
    (Some 0) Vec.zero (Quat 0 0 0 1) Vec.zero (Quat 0 0 0 1) 1 false
    8 8 8
    (mkPopupState false 0 1.5 Vec.zero (V3 0 0 42) (-1))
    (mkPopupMesh false Vec.zero (V3 1 1 1) (Quat 0 0 0 1) (0, 0))
    (Quat 0 0 0 1).

(** A closed fist in the middle of the image, at the distance where the
    wrist-to-knuckle length is 0.2. *)
Definition fist : HandData := mkHandData true (0.5, 0.5) None 0.2.

(** An open hand in the middle of the image. *)
Definition openHand : HandData := mkHandData false (0.5, 0.5) None 0.2.

(** The stream whose every draw is [a]. *)
Definition constantDraws (a : R) : Rng := mkRng (fun _ => a) 0.

(** ** Predicates of the statements *)

(** A frame of the animation loop at 60 frames per second in which the
    tracker reports a closed hand. *)
Definition closedFrame (f : R * option HandData) : Prop :=
  fst f = 1 / 60 /\ exists hd, snd f = Some hd /\ hd_isClosed hd = true.

(** The remapping of the depth scale in the words of the specification:
    linear from [0.1, 0.3] onto [1.0, 2.5], clamped at both ends. *)
Definition remapDepthScale_spec (a : R) : R :=
  if Rle_dec a 0.1 then 1.0
  else if Rle_dec 0.3 a then 2.5
  else 1.0 + (a - 0.1) * ((2.5 - 1.0) / (0.3 - 0.1)).

(** The smoothing factor of the specification for a gesture. *)
Definition smoothingFactor_spec (closed : bool) : R :=
  if closed then 0.03 else 0.15.

(** The popup as [updatePopup] leaves it while the animation runs with
    factor [f]: still active, placed between the start and the target
    position, scaled to [0.2 + 0.8 * f] and facing the camera. *)
Definition popupShown (st st' : ParticleSystem) (f : R) : Prop :=
  popupFactor (timer (popupState st')) = Some f
  /\ active (popupState st') = true
  /\ position (popupMesh st')
     = Vec.lerpVectors (startPos (popupState st)) (targetPos (popupState st)) f
  /\ scale (popupMesh st') = V3 (0.2 + 0.8 * f) (0.2 + 0.8 * f) (0.2 + 0.8 * f)
  /\ quaternion (popupMesh st') = cameraQuaternion st
  /\ visible (popupMesh st') = visible (popupMesh st)
  /\ uClickedID (uniforms st') = uClickedID (uniforms st).

(** An engine whose popup was activated [t0] seconds ago on particle 0
    at position (1, 2, 3). *)
Definition popupRunning (t0 : R) : ParticleSystem :=
  set_uniforms (set_uClickedID 0 (uniforms twoParticles))
    (set_popup
       (mkPopupState true t0 1.5 (V3 1 2 3) (V3 0 0 42) 0)
       (mkPopupMesh true (V3 1 2 3) (V3 0.1 0.1 0.1) (Quat 0 0 0 1) (0, 0.875))
       twoParticles).

(** The particle index that the [k]-th draw from the cursor on selects
    among [count] particles: [Math.floor(Math.random() * count)]. *)
Definition drawnIndex (g : Rng) (count : nat) (k : nat) : Z :=
  Math.floor (draws g (cursor g + k) * INR count).

(** Particle [i] carries a photo: [aIsPhoto[i] > 0.5]. *)
Definition flagged (st : ParticleSystem) (i : nat) : Prop :=
  exists a, aIsPhoto (attributes st) !! i = Some a /\ 0.5 < a.

(** Draw [k] of the search of [onClick] misses: the particle it selects
    carries no photo.  (Draw 0 of [onClick] chooses the photo slot; the
    search uses the draws 1 to 100.) *)
Definition searchMisses (st : ParticleSystem) (g : Rng) (k : nat) : Prop :=
  isPhotoAt (aIsPhoto (attributes st)) (drawnIndex g (particleCount st) (S k)) = false.

(** Draw [k] of the search is the first that selects a particle with a
    photo. *)
Definition firstHit (st : ParticleSystem) (g : Rng) (k : nat) : Prop :=
  isPhotoAt (aIsPhoto (attributes st)) (drawnIndex g (particleCount st) (S k)) = true
  /\ forall j, (j < k)%nat -> searchMisses st g j.

(** The attribute arrays have the lengths given by [initParticles], and
    particle [i] has the id [i]. *)
Definition wellFormed (st : ParticleSystem) : Prop :=
  let n := particleCount st in
  let a := attributes st in
  aID a = map INR (seq 0 n)
  /\ length (aIsPhoto a) = n
  /\ length (aTargetPos a) = (n * 3)%nat
  /\ length (aRandom a) = (n * 3)%nat
  /\ length (aColor a) = (n * 3)%nat.

(** Partial correctness in the monad: every result of [m] satisfies [Q]. *)
Definition post {A} (m : M A) (Q : A -> Prop) : Prop :=
  forall g a g', m g = Some (a, g') -> Q a.

(** The two arrays of [w'] are as long as those of [w]. *)
Definition sameSizes (w w' : Gen) : Prop :=
  length (positions w') = length (positions w)
  /\ length (colors w') = length (colors w).

(** The candidate point of round [k] of the heart loop started on [g]. *)
Definition heartDraw (g : Rng) (k : nat) : Vector3 :=
  heartCandidate (draws g (cursor g + 3 * k))
                 (draws g (cursor g + 3 * k + 1))
                 (draws g (cursor g + 3 * k + 2)).

(** Round [k] is the first whose candidate lies in the heart. *)
Definition firstAccepted (g : Rng) (k : nat) : Prop :=
  insideHeart (heartDraw g k) = true
  /\ forall j, (j < k)%nat -> insideHeart (heartDraw g j) = false.

(** [l1] and [l2] have the same length and the same entries below [k]. *)
Definition agreeBelow (k : nat) (l1 l2 : list R) : Prop :=
  length l1 = length l2 /\ forall i, (i < k)%nat -> l1 !! i = l2 !! i.

(** The stream [g] after [n] more draws. *)
Definition advance (g : Rng) (n : nat) : Rng := mkRng (draws g) (cursor g + n).

(** Two write states of [generateShape] with the same cursors that agree
    on everything written so far. *)
Definition genAgree (w1 w2 : Gen) : Prop :=
  idx w1 = idx w2 /\ cIdx w1 = cIdx w2
  /\ agreeBelow (idx w1) (positions w1) (positions w2)
  /\ agreeBelow (cIdx w1) (colors w1) (colors w2).

(** Total correctness in the monad, for streams of draws in [0, 1): [m]
    returns, with a result that satisfies [P], having only advanced the
    cursor. *)
Definition returns {A} (m : M A) (P : A -> Prop) : Prop :=
  forall g, unitDraws g ->
    exists a g', m g = Some (a, g') /\ draws g' = draws g /\ P a.

(** A frame of 21 landmarks: the wrist at the origin and every other
    landmark at distance 1 from it (a fist). *)
Definition fistFrame : list Landmark := V3 0 0 0 :: replicate 20 (V3 1 0 0).

(** The tracker before the first frame. *)
Definition newTracker : HandTracker :=
  mkHandTracker false (0.5, 0.5) (Quat 0 0 0 1) None.

(** A quaternion of norm 1. *)
Definition unitQuat (q : Quaternion) : Prop :=
  q_x q * q_x q + q_y q * q_y q + q_z q * q_z q + q_w q * q_w q = 1.

(** What the smoothing of the orientation needs of three.js: a quaternion
    made from Euler angles has norm 1, and [slerp] between quaternions of
    norm 1 has norm 1. *)
Class UnitThree `{Three} : Prop := {
  setFromEuler_unit : forall e, unitQuat (quat_setFromEuler e);
  slerp_unit : forall a b t, unitQuat a -> unitQuat b -> unitQuat (quat_slerp a b t)
}.

(** ** The photo atlas: [addPhotoToAtlas], [addPhotoToAtlasAtSlot],
       [_drawImageToSlot] and [updateParticlePhotoAssignments] *)

(** An image, as far as the atlas looks at it. *)
Record Image := mkImage { img_width : R; img_height : R }.

(** One call [ctx.drawImage(img, sx, sy, sw, sh, dx, dy, dw, dh)]. *)
Record DrawCall := mkDrawCall {
  src_x : R; src_y : R; src_w : R; src_h : R;
  dst_x : R; dst_y : R; dst_w : R; dst_h : R
}.

(** The engine together with the atlas fields of [ParticleSystem]. *)
Record PhotoAtlas := mkPhotoAtlas {
  system : ParticleSystem;
  nextPhotoSlot : Z;
  atlasSize : R;
  (** [photoAtlasCtx] and [photoAtlasCanvas] are set *)
  atlasReady : bool;
  (** the [drawImage] calls made on the atlas canvas, latest first *)
  drawn : list DrawCall
}.

Definition set_photoCount (n : Z) (st : ParticleSystem) : ParticleSystem :=
  mkParticleSystem (particleCount st) (currentShape st) (color st)
    (attributes st) (uniforms st) (snowTime st) (handPos st) (handRotation st)
    (smoothedHandPos st) (smoothedHandRot st) (smoothedHandScale st)
    (isClosed st) n (atlasCols st) (atlasRows st)
    (popupState st) (popupMesh st) (cameraQuaternion st).

(** The source rectangle of the centre crop: [(sx, sy, sw, sh)]. *)
Definition cropToSquare (img : Image) : R * R * R * R :=
  let aspect := img_width img / img_height img in
  if Rlt_dec 1 aspect
  then ((img_width img - img_height img) / 2, 0, img_height img, img_height img)
  else (0, (img_height img - img_width img) / 2, img_width img, img_width img).

(** The call of [drawImage] made by [_drawImageToSlot(img, slot)] on an
    atlas of [size] pixels with [cols] by [rows] cells. *)
Definition _drawImageToSlot (size : R) (cols rows : Z) (img : Image) (slot : Z)
  : DrawCall :=
  let cellW := size / IZR cols in
  let cellH := size / IZR rows in
  let col := Z.rem slot cols in
  let row := Math.floor (IZR slot / IZR cols) in
  let '(sx, sy, sw, sh) := cropToSquare img in
  mkDrawCall sx sy sw sh (IZR col * cellW) (IZR row * cellH) cellW cellH.

(** The [onload] handler of [createPhotoAtlas] for the initial photo
    number [index]. *)
Definition createPhotoAtlas_onload (size : R) (cols rows : Z) (index : Z)
  (img : Image) : DrawCall :=
  let cellW := size / IZR cols in
  let cellH := size / IZR rows in
  let c := Z.rem index cols in
  let r := Math.floor (IZR index / IZR cols) in
  let aspect := img_width img / img_height img in
  let '(sx, sy, sw, sh) :=
    if Rlt_dec 1 aspect
    then ((img_width img - img_height img) / 2, 0, img_height img, img_height img)
    else (0, (img_height img - img_width img) / 2, img_width img, img_width img) in
  mkDrawCall sx sy sw sh (IZR c * cellW) (IZR r * cellH) cellW cellH.

(** The texture offset of a photo slot, as [onClick], [initParticles] and
    [updateParticlePhotoAssignments] compute it: [(col * cellSize,
    (atlasRows - 1 - row) * cellSize)]. *)
Definition slotOffset (cols rows : Z) (slot : Z) : R * R :=
  let cellSize := 1.0 / IZR cols in
  let col := Z.rem slot cols in
  let row := Math.floor (IZR slot / IZR cols) in
  (IZR col * cellSize, IZR (rows - 1 - row) * cellSize).

(** The loop of [updateParticlePhotoAssignments] from particle [i] on,
    for [n] particles. *)
Fixpoint assignLoop (n i : nat) (isPhotos : list R) (cols rows maxSlots : Z)
  (imgOffsets : list R) : M (list R) :=
  match n with
  | O => mret imgOffsets
  | S n' =>
      if isPhotoAt isPhotos (Z.of_nat i) then
        a ← random;
        let imgIdx := Math.floor (a * IZR maxSlots) in
        let cellSize := 1.0 / IZR cols in
        let col := Z.rem imgIdx cols in
        let row := Math.floor (IZR imgIdx / IZR cols) in
        let imgOffsets := <[(i * 2)%nat := IZR col * cellSize]> imgOffsets in
        let imgOffsets :=
          <[(i * 2 + 1)%nat := IZR (rows - 1 - row) * cellSize]> imgOffsets in
        assignLoop n' (S i) isPhotos cols rows maxSlots imgOffsets
      else assignLoop n' (S i) isPhotos cols rows maxSlots imgOffsets
  end.

Definition updateParticlePhotoAssignments (st : ParticleSystem) : M ParticleSystem :=
  let a := attributes st in
  let cols := atlasCols st in
  let maxSlots := Z.min (photoCount st) (cols * atlasRows st) in
  imgOffsets ← assignLoop (particleCount st) 0 (aIsPhoto a) cols (atlasRows st)
                  maxSlots (aImgOffset a);
  mret (set_attributes
          (mkAttributes (aTargetPos a) (aRandom a) imgOffsets (aColor a)
             (aID a) (aIsPhoto a) (aSize a))
          st).

(** [addPhotoToAtlas(img)]; the result [None] is [false]. *)
Definition addPhotoToAtlas (img : Image) (at_ : PhotoAtlas)
  : M (option Z * PhotoAtlas) :=
  if negb (atlasReady at_) then mret (None, at_)
  else
    let st := system at_ in
    let slot := Z.rem (nextPhotoSlot at_) (atlasCols st * atlasRows st) in
    let call := _drawImageToSlot (atlasSize at_) (atlasCols st) (atlasRows st) img slot in
    let next := (nextPhotoSlot at_ + 1)%Z in
    let st :=
      if (photoCount st <? next)%Z
      then set_photoCount (Z.min next (atlasCols st * atlasRows st)) st
      else st in
    st ← updateParticlePhotoAssignments st;
    mret (Some slot, mkPhotoAtlas st next (atlasSize at_) (atlasReady at_)
                       (call :: drawn at_)).

(** [addPhotoToAtlasAtSlot(img, slot)] *)
Definition addPhotoToAtlasAtSlot (img : Image) (slot : Z) (at_ : PhotoAtlas)
  : M (bool * PhotoAtlas) :=
  if negb (atlasReady at_) then mret (false, at_)
  else
    let st := system at_ in
    let call := _drawImageToSlot (atlasSize at_) (atlasCols st) (atlasRows st) img slot in
    let maxSlots := (atlasCols st * atlasRows st)%Z in
    let st :=
      if (photoCount st <=? slot)%Z && (slot <? maxSlots)%Z
      then set_photoCount (slot + 1) st
      else st in
    let next :=
      if (nextPhotoSlot at_ <=? slot)%Z then (slot + 1)%Z else nextPhotoSlot at_ in
    st ← updateParticlePhotoAssignments st;
    mret (true, mkPhotoAtlas st next (atlasSize at_) (atlasReady at_)
                  (call :: drawn at_)).

(** [getPhotoCount()] *)
Definition getPhotoCount (at_ : PhotoAtlas) : Z := photoCount (system at_).

(** The restore of [UI.loadPhotosFromDatabase]: one
    [addPhotoToAtlasAtSlot] per stored photo, in the order in which the
    images finish loading. *)
Fixpoint restorePhotos (photos : list (Z * Image)) (at_ : PhotoAtlas)
  : M PhotoAtlas :=
  match photos with
  | [] => mret at_
  | (slot, img) :: rest =>
      r ← addPhotoToAtlasAtSlot img slot at_;
      restorePhotos rest (snd r)
  end.

(** The uploads of [UI.handleFiles]: one [addPhotoToAtlas] per image, in
    the order in which the images finish loading; the result lists the
    slots handed to [photoDatabase.savePhoto], oldest first. *)
Fixpoint uploadPhotos (imgs : list Image) (at_ : PhotoAtlas)
  : M (list (Z * Image) * PhotoAtlas) :=
  match imgs with
  | [] => mret ([], at_)
  | img :: rest =>
      r ← addPhotoToAtlas img at_;
      r' ← uploadPhotos rest (snd r);
      mret (match fst r with
            | Some slot => (slot, img) :: fst r'
            | None => fst r'
            end, snd r')
  end.

(** ** The events of the page *)

(** What reaches the engine: an animation frame of [main.js], a click on
    the page, and the shape buttons and colour picker of [ui.js]. *)
Inductive Event :=
| Frame (dt : R) (handData : option HandData)
| Click
| ShapeButton (fuel : nat) (shape : string)
| ColorInput (hex : string).

Section Events.

Context `{Three}.

Definition handle (e : Event) (st : ParticleSystem) : M ParticleSystem :=
  match e with
  | Frame dt handData => mret (update dt handData st)
  | Click => onClick st
  | ShapeButton fuel shape => setShape fuel shape st
  | ColorInput hex => mret (setColor hex st)
  end.

Fixpoint handleAll (es : list Event) (st : ParticleSystem) : M ParticleSystem :=
  match es with
  | [] => mret st
  | e :: rest => st' ← handle e st; handleAll rest st'
  end.

End Events.

(** ** The shaders *)

Module GLSL.

(** [mod(a, b)] is [a - b * floor(a / b)]. *)
Definition mod_ (a b : R) : R := a - b * IZR (Zfloor (a / b)).

Definition clamp (a lo hi : R) : R := Rmin (Rmax a lo) hi.

(** [normalize(v)]: the vector divided by its length (the shader leaves
    the zero vector undefined; here it stays zero). *)
Definition normalize (v : Vector3) : Vector3 :=
  Vec.multiplyScalar v (1 / Vec.length v).

(** [quadraticBezier(p0, p1, p2, t)] of the vertex shader. *)
Definition quadraticBezier (p0 p1 p2 : Vector3) (t : R) : Vector3 :=
  let oneMinusT := 1.0 - t in
  Vec.add
    (Vec.add (Vec.multiplyScalar p0 (oneMinusT * oneMinusT))
             (Vec.multiplyScalar p1 (2.0 * oneMinusT * t)))
    (Vec.multiplyScalar p2 (t * t)).

(** [finalPos] of the particle vertex shader for the instance [i]. *)
Definition finalPos (i : nat) (st : ParticleSystem) : Vector3 :=
  let attr := attributes st in
  let u := uniforms st in
  let aTargetPos := V3 (default 0 (aTargetPos attr !! (i * 3)%nat))
                       (default 0 (aTargetPos attr !! (i * 3 + 1)%nat))
                       (default 0 (aTargetPos attr !! (i * 3 + 2)%nat)) in
  let aRandom := V3 (default 0 (aRandom attr !! (i * 3)%nat))
                    (default 0 (aRandom attr !! (i * 3 + 1)%nat))
                    (default 0 (aRandom attr !! (i * 3 + 2)%nat)) in
  let breathe := sin (uTime u * 2.0 + v_y aRandom * 10.0) * 0.5 + 0.5 in
  let shapePos := ThreeJS.applyQuaternion aTargetPos (uHandRotation u) in
  let shapePos := Vec.multiplyScalar shapePos (uScale u * 1.5) in
  let shapePos :=
    Vec.add shapePos (Vec.multiplyScalar (normalize shapePos) (breathe * 0.2)) in
  let t := uTime u * 0.5 + v_x aRandom * 10.0 in
  let floatOffset :=
    Vec.multiplyScalar (V3 (sin t) (cos (t * 0.8)) (sin (t * 1.2))) 3.0 in
  let randomSpread := Vec.multiply (Vec.subScalar aRandom 0.5) (V3 70.0 60.0 40.0) in
  let randomSpread :=
    V3 (v_x randomSpread) (v_y randomSpread) (v_z randomSpread - 10.0) in
  let cloudPos := Vec.add (Vec.add (uHandPos u) randomSpread) floatOffset in
  let controlPoint :=
    Vec.add shapePos (Vec.multiplyScalar (normalize shapePos) 20.0) in
  let progress := 1.0 - uState u in
  quadraticBezier shapePos controlPoint cloudPos progress.

(** [mixT] of the particle fragment shader for the varying [vState]. *)
Definition mixT (vState : R) : R :=
  let t := clamp vState 0.0 1.0 in
  t * t * t * (t * (t * 6.0 - 15.0) + 10.0).

(** The height of a snow flake in the snow vertex shader. *)
Definition snowY (pos_y uTime aSpeed : R) : R :=
  let y := pos_y - uTime * aSpeed in
  mod_ (y + 10000.0) 50.0 - 20.0.

End GLSL.

(** ** Further predicates of the statements *)

(** The sum of the [dt] of the frames. *)
Definition elapsed (frames : list (R * option HandData)) : R :=
  fold_right (fun f acc => fst f + acc) 0 frames.

(** A point of the scene inside the box that [update] maps the image to. *)
Definition inScene (p : Vector3) : Prop :=
  -20 <= v_x p <= 20 /\ -15 <= v_y p <= 15 /\ v_z p = 0.

(** The hand data of a frame, if any, has its position in the image. *)
Definition inImage (f : R * option HandData) : Prop :=
  forall hd, snd f = Some hd ->
    0 <= fst (hd_position hd) <= 1 /\ 0 <= snd (hd_position hd) <= 1.

(** The uniforms show the smoothed pose. *)
Definition mirrored (st : ParticleSystem) : Prop :=
  uHandPos (uniforms st) = smoothedHandPos st
  /\ uHandRotation (uniforms st) = smoothedHandRot st
  /\ uScale (uniforms st) = smoothedHandScale st.

(** The popup and the hidden particle belong together: an active popup
    is visible and [uClickedID] is the id of a particle, the one the
    popup was started on; without an active popup [uClickedID] is -1 and
    the popup mesh is invisible. *)
Definition popupConsistent (st : ParticleSystem) : Prop :=
  if active (popupState st)
  then visible (popupMesh st) = true
       /\ exists i, (i < particleCount st)%nat
                    /\ uClickedID (uniforms st) = INR i
                    /\ id (popupState st) = INR i
  else visible (popupMesh st) = false /\ uClickedID (uniforms st) = -1.

(** What the popup and the hiding of a particle depend on. *)
Definition popupView (st : ParticleSystem) :=
  (popupState st, popupMesh st, uClickedID (uniforms st), cameraQuaternion st,
   particleCount st, attributes st).

(** The pose that [update] smooths, with the uniforms that show it. *)
Definition pose (st : ParticleSystem) :=
  (handPos st, handRotation st, isClosed st,
   (smoothedHandPos st, smoothedHandRot st, smoothedHandScale st),
   (uState (uniforms st), uHandPos (uniforms st), uHandRotation (uniforms st),
    uScale (uniforms st))).

(** The pitch that [update] computes for a smoothed hand at height [y]
    (lines 2084 to 2091 of particleSystem.js): the height over 15,
    clamped to [-1, 1], times minus [maxTilt]. *)
Definition heightPitch (y : R) : R :=
  let maxTilt := PI / 2.5 in
  let normalizedY := Math.max (-1) (Math.min 1 (y / 15.0)) in
  - normalizedY * maxTilt.

(** The point of the scene that [update] maps the hand position to. *)
Definition sceneTarget (hd : HandData) : Vector3 :=
  V3 ((fst (hd_position hd) - 0.5) * 40) (- (snd (hd_position hd) - 0.5) * 30) 0.

(** An open hand in the lower right of the image, with a rotation. *)
Definition turnedHand : HandData :=
  mkHandData false (0.75, 0.75) (Some (Quat 0 0 0 1)) 0.25.

(** The target of particle [i] turned by the hand rotation, as the vertex
    shader computes it before scaling. *)
Definition rotatedTarget (i : nat) (st : ParticleSystem) : Vector3 :=
  ThreeJS.applyQuaternion
    (V3 (readAt (aTargetPos (attributes st)) (i * 3))
        (readAt (aTargetPos (attributes st)) (i * 3 + 1))
        (readAt (aTargetPos (attributes st)) (i * 3 + 2)))
    (uHandRotation (uniforms st)).

(** The engine [twoParticles] with the blend at closed. *)
Definition twoClosed : ParticleSystem :=
  set_uniforms (set_uState 1 (uniforms twoParticles)) twoParticles.

(** The entry [j] of an array is there and lies in [[lo, hi)]. *)
Definition within (l : list R) (j : nat) (lo hi : R) : Prop :=
  exists v, l !! j = Some v /\ lo <= v < hi.

(** The seven arrays have the lengths allocated for [count] particles. *)
Definition allocated (count : nat) (a : Attributes) : Prop :=
  length (aTargetPos a) = (count * 3)%nat
  /\ length (aRandom a) = (count * 3)%nat
  /\ length (aImgOffset a) = (count * 2)%nat
  /\ length (aColor a) = (count * 3)%nat
  /\ length (aID a) = count
  /\ length (aIsPhoto a) = count
  /\ length (aSize a) = count.

(** What [initParticles] gives particle [i]: a target in the cube of
    side 50 around the origin, three random numbers, its own id, a photo
    flag, a size, the texture offset of one of the slots 0 to 7, and the
    default colour. *)
Definition freshParticle (c : Color) (cols rows : Z) (a : Attributes) (i : nat)
  : Prop :=
  within (aTargetPos a) (i * 3) (-25) 25
  /\ within (aTargetPos a) (i * 3 + 1) (-25) 25
  /\ within (aTargetPos a) (i * 3 + 2) (-25) 25
  /\ within (aRandom a) (i * 3) 0 1
  /\ within (aRandom a) (i * 3 + 1) 0 1
  /\ within (aRandom a) (i * 3 + 2) 0 1
  /\ aID a !! i = Some (INR i)
  /\ (exists p, aIsPhoto a !! i = Some p /\ (p = 1 \/ p = 0))
  /\ within (aSize a) i 0.8 1.5
  /\ (exists k, (0 <= k < 8)%Z
        /\ aImgOffset a !! (i * 2)%nat = Some (fst (slotOffset cols rows k))
        /\ aImgOffset a !! (i * 2 + 1)%nat = Some (snd (slotOffset cols rows k)))
  /\ aColor a !! (i * 3)%nat = Some (c_r c)
  /\ aColor a !! (i * 3 + 1)%nat = Some (c_g c)
  /\ aColor a !! (i * 3 + 2)%nat = Some (c_b c).

(** The target of particle [i] is the point [p]. *)
Definition targetOf (a : Attributes) (i : nat) (p : Vector3) : Prop :=
  aTargetPos a !! (i * 3)%nat = Some (v_x p)
  /\ aTargetPos a !! (i * 3 + 1)%nat = Some (v_y p)
  /\ aTargetPos a !! (i * 3 + 2)%nat = Some (v_z p).

(** The colour of particle [i] is [c]. *)
Definition colourOf (a : Attributes) (i : nat) (c : Color) : Prop :=
  aColor a !! (i * 3)%nat = Some (c_r c)
  /\ aColor a !! (i * 3 + 1)%nat = Some (c_g c)
  /\ aColor a !! (i * 3 + 2)%nat = Some (c_b c).

(** One round of a shape loop wrote the colour [c] and the point [p],
    for some [p] and [c] with [P]. *)
Definition written (P : Vector3 -> Color -> Prop) (w w' : Gen) : Prop :=
  exists p c,
    P p c
    /\ w' = setPos (v_x p) (v_y p) (v_z p) (setRGB (c_r c) (c_g c) (c_b c) w).

(** The arrays of [w'] hold, for each of the [n] particles from the
    cursors of [w] on, a point and a colour with [P], and are as in [w]
    before the cursors. *)
Definition filled (P : Vector3 -> Color -> Prop) (n : nat) (w w' : Gen) : Prop :=
  idx w' = (idx w + 3 * n)%nat
  /\ cIdx w' = (cIdx w + 3 * n)%nat
  /\ sameSizes w w'
  /\ (forall j, (j < idx w)%nat -> positions w' !! j = positions w !! j)
  /\ (forall j, (j < cIdx w)%nat -> colors w' !! j = colors w !! j)
  /\ ((idx w + 3 * n <= length (positions w))%nat ->
      (cIdx w + 3 * n <= length (colors w))%nat ->
      forall i, (i < n)%nat ->
        exists p c,
          P p c
          /\ positions w' !! (idx w + 3 * i)%nat = Some (v_x p)
          /\ positions w' !! (idx w + 3 * i + 1)%nat = Some (v_y p)
          /\ positions w' !! (idx w + 3 * i + 2)%nat = Some (v_z p)
          /\ colors w' !! (cIdx w + 3 * i)%nat = Some (c_r c)
          /\ colors w' !! (cIdx w + 3 * i + 1)%nat = Some (c_g c)
          /\ colors w' !! (cIdx w + 3 * i + 2)%nat = Some (c_b c)).

(** The destination rectangle of a [drawImage] call lies on a canvas of
    [size] by [size] pixels. *)
Definition onCanvas (size : R) (c : DrawCall) : Prop :=
  0 <= dst_x c /\ dst_x c + dst_w c <= size
  /\ 0 <= dst_y c /\ dst_y c + dst_h c <= size.

(** The destination rectangles of two [drawImage] calls do not overlap. *)
Definition apart (c c' : DrawCall) : Prop :=
  dst_x c + dst_w c <= dst_x c' \/ dst_x c' + dst_w c' <= dst_x c
  \/ dst_y c + dst_h c <= dst_y c' \/ dst_y c' + dst_h c' <= dst_y c.

(** A photo of 1200 by 800 pixels. *)
Definition landscape : Image := mkImage 1200 800.

(** The counters of a ready atlas fit together: the grid is not empty,
    and [photoCount] is [nextPhotoSlot] capped at the number of slots. *)
Definition atlasInvariant (at_ : PhotoAtlas) : Prop :=
  let st := system at_ in
  atlasReady at_ = true
  /\ (0 < atlasCols st)%Z /\ (0 < atlasRows st)%Z
  /\ (0 <= nextPhotoSlot at_)%Z
  /\ photoCount st = Z.min (nextPhotoSlot at_) (atlasCols st * atlasRows st).

(** The slots that [n] uploads are drawn into, from [nextPhotoSlot = next]
    on, in an atlas of [maxSlots] slots. *)
Fixpoint uploadSlots (maxSlots next : Z) (n : nat) : list Z :=
  match n with
  | O => []
  | S n' => Z.rem next maxSlots :: uploadSlots maxSlots (next + 1) n'
  end.

(** What one restored photo does to [(nextPhotoSlot, photoCount)]. *)
Definition restoreStep (maxSlots : Z) (counters : Z * Z) (slot : Z) : Z * Z :=
  let '(next, count) := counters in
  (if (next <=? slot)%Z then (slot + 1)%Z else next,
   if (count <=? slot)%Z && (slot <? maxSlots)%Z then (slot + 1)%Z else count).

(** The [drawImage] calls, latest first, that drawing the photos
    [photos], each a slot and an image, one after the other makes on an
    atlas of [size] pixels with [cols] by [rows] cells. *)
Definition drawCalls (size : R) (cols rows : Z) (photos : list (Z * Image))
  : list DrawCall :=
  rev (map (fun p => _drawImageToSlot size cols rows (snd p) (fst p)) photos).

(** The two counters of the atlas. *)
Definition counters (at_ : PhotoAtlas) : Z * Z :=
  (nextPhotoSlot at_, photoCount (system at_)).

(** The grid of the atlas. *)
Definition grid (at_ : PhotoAtlas) : Z * Z :=
  (atlasCols (system at_), atlasRows (system at_)).

(** The texture offset of particle [i] is that of the slot [k]. *)
Definition showsSlot (cols rows : Z) (offsets : list R) (i : nat) (k : Z) : Prop :=
  offsets !! (i * 2)%nat = Some (fst (slotOffset cols rows k))
  /\ offsets !! (i * 2 + 1)%nat = Some (snd (slotOffset cols rows k)).

(** The atlas of a new engine with two particles: eight photos on a grid
    of 8 by 8 slots of a canvas of 4096 pixels. *)
Definition newAtlas : PhotoAtlas := mkPhotoAtlas twoParticles 8 4096 true [].

(** A landmark moved by [d], and a frame with every landmark moved. *)
Definition translateLandmark (d : Vector3) (p : Landmark) : Landmark :=
  V3 (v_x p + v_x d) (v_y p + v_y d) (v_z p + v_z d).

Definition translateFrame (d : Vector3) (landmarks : list Landmark) : list Landmark :=
  map (translateLandmark d) landmarks.

(** The tracker state with the hand position moved as a move of the
    landmarks by [d] moves it: mirrored in x. *)
Definition movedBy (d : Vector3) (tr : HandTracker) : HandTracker :=
  mkHandTracker (t_isClosed tr)
    (fst (handPosition tr) - v_x d, snd (handPosition tr) + v_y d)
    (rotation tr) (handScale tr).

(** The square of the distance of a point from the origin. *)
Definition normSq (p : Vector3) : R := v_x p * v_x p + v_y p * v_y p + v_z p * v_z p.

(** Partial correctness for streams of draws in [0, 1): a result of [m]
    on such a stream satisfies [Q], and the stream it leaves is one. *)
Definition postUnit {A} (m : M A) (Q : A -> Prop) : Prop :=
  forall g a g', unitDraws g -> m g = Some (a, g') -> unitDraws g' /\ Q a.

(** A point within 31 of the origin, whatever its colour. *)
Definition fits (p : Vector3) (c : Color) : Prop := normSq p <= 961.

(** ** Uniform draws *)




(** [m] does not return on the stream [g]. *)
Definition fails {A} (m : M A) (g : Rng) : bool :=
  match m g with Some _ => false | None => true end.





(** The streams [g] and [g'] hold the same draws from their cursors on. *)
Definition sameFuture (g g' : Rng) : Prop :=
  forall i, draws g (cursor g + i) = draws g' (cursor g' + i).

Section UniformDraws.

Context `{Three}.

(** The heart loop of one particle with [n'] rounds, followed by the
    loops of [N] more particles with [n] rounds each. *)
Definition heartsFrom (n' n : nat) (col : Color) (N : nat) (w : Gen) : M Gen :=
  w' ← heartParticle n' col w;
  forParticles N (heartParticle n col) w'.

End UniformDraws.

(** ** The pose estimator on numbers that may be NaN *)

(** [updateHandState] once more, on JavaScript numbers that are a real
    number or NaN, so that its three tests [isNaN(...)] can be true. *)
Module NaN.

(** A number: [None] is NaN. *)
Definition num : Type := option R.

Definition isNaN (a : num) : bool :=
  match a with Some _ => false | None => true end.

(** An operation with a NaN operand gives NaN. *)
Definition lift2 (f : R -> R -> R) (a b : num) : num :=
  match a, b with
  | Some x, Some y => Some (f x y)
  | _, _ => None
  end.

Definition add : num -> num -> num := lift2 Rplus.
Definition sub : num -> num -> num := lift2 Rminus.
Definition mul : num -> num -> num := lift2 Rmult.
Definition div : num -> num -> num := lift2 Rdiv.

(** [-a] *)
Definition neg (a : num) : num :=
  match a with Some x => Some (- x) | None => None end.

(** [Math.sqrt(a)], which is NaN for a negative number *)
Definition sqrt (a : num) : num :=
  match a with
  | Some x => if Rlt_dec x 0 then None else Some (sqrt x)
  | None => None
  end.

(** [Math.pow(a, 2)] *)
Definition pow2 (a : num) : num := mul a a.

(** [a < b], which is false when an operand is NaN *)
Definition lt (a b : num) : bool :=
  match a, b with
  | Some x, Some y => ltb x y
  | _, _ => false
  end.

(** [a || d]: as a condition a number is false when it is 0 or NaN. *)
Definition orElse (a : num) (d : R) : num :=
  Some (match a with
        | Some x => if truthy x then x else d
        | None => d
        end).

(** A landmark or a [THREE.Vector3] *)
Record Vector := V { vx : num; vy : num; vz : num }.


(** The vector of real numbers, when no component is NaN. *)
Definition real (a : Vector) : option Vector3 :=
  x ← vx a; y ← vy a; z ← vz a; Some (V3 x y z).


Definition subVectors (a b : Vector) : Vector :=
  V (sub (vx a) (vx b)) (sub (vy a) (vy b)) (sub (vz a) (vz b)).

Definition crossVectors (a b : Vector) : Vector :=
  V (sub (mul (vy a) (vz b)) (mul (vz a) (vy b)))
    (sub (mul (vz a) (vx b)) (mul (vx a) (vz b)))
    (sub (mul (vx a) (vy b)) (mul (vy a) (vx b))).

Definition multiplyScalar (a : Vector) (s : num) : Vector :=
  V (mul (vx a) s) (mul (vy a) s) (mul (vz a) s).

Definition length (a : Vector) : num :=
  sqrt (add (add (mul (vx a) (vx a)) (mul (vy a) (vy a))) (mul (vz a) (vz a))).

(** [a.normalize()] is [a.divideScalar(a.length() || 1)] *)
Definition normalize (a : Vector) : Vector :=
  let l := length a in
  multiplyScalar a (div (Some 1) (orElse l 1)).

Definition wristDistance (wrist p : Vector) : num :=
  sqrt (add (add (pow2 (sub (vx p) (vx wrist)))
                 (pow2 (sub (vy p) (vy wrist))))
            (pow2 (sub (vz p) (vz wrist)))).

Definition averageDistance (wrist : Vector) (ps : list Vector) : num :=
  div (fold_left (fun avg p => add avg (wristDistance wrist p)) ps (Some 0)) (Some 4).

Definition classify (wrist : Vector) (tips mcps : list Vector) : bool :=
  let avgTipDist := averageDistance wrist tips in
  let avgMcpDist := averageDistance wrist mcps in
  lt avgTipDist (mul avgMcpDist (Some 1.3)).

(** The tracker; its [rotation] is [None] when a component of the
    quaternion is NaN. *)
Record Tracker := mkTracker {
  t_isClosed : bool;
  handPosition : num * num;
  rotation : option Quaternion;
  (** [undefined] until the first frame with a hand *)
  handScale : option num
}.

(** The palm normal of lines 253 to 262: [vWtoI] and [vWtoP] with [y] and
    [x] inverted, their cross product, normalized. *)
Definition zAxis (vWrist vIndex vPinky : Vector) : Vector :=
  let vWtoI := subVectors vIndex vWrist in
  let vWtoP := subVectors vPinky vWrist in
  let vWtoI := V (neg (vx vWtoI)) (neg (vy vWtoI)) (vz vWtoI) in
  let vWtoP := V (neg (vx vWtoP)) (neg (vy vWtoP)) (vz vWtoP) in
  normalize (crossVectors vWtoI vWtoP).

(** The finger direction of lines 270 to 273 *)
Definition yAxisFinal (vWrist vMiddle : Vector) : Vector :=
  let yAxisFinal := subVectors vMiddle vWrist in
  normalize (V (neg (vx yAxisFinal)) (neg (vy yAxisFinal)) (vz yAxisFinal)).

(** Line 277 *)
Definition xAxis (yAxisFinal zAxis : Vector) : Vector :=
  normalize (crossVectors yAxisFinal zAxis).

Section Tracker.

Context `{Three}.

(** [makeBasis(x, y, z)] followed by [setFromRotationMatrix(m)]: every
    entry of the matrix enters a component of the quaternion, which has
    a NaN as soon as an axis has one. *)
Definition quat_setFromBasis (x y z : Vector) : option Quaternion :=
  x ← real x; y ← real y; z ← real z; Some (quat_setFromBasis x y z).

(** [updateHandState(landmarks)] *)
Definition updateHandState (landmarks : list Vector) (tr : Tracker)
  : option Tracker :=
  wrist ← landmarks !! 0%nat;
  tips ← mapM (fun i : nat => landmarks !! i) [8; 12; 16; 20]%nat;
  mcps ← mapM (fun i : nat => landmarks !! i) [5; 9; 13; 17]%nat;
  l9 ← landmarks !! 9%nat;
  l5 ← landmarks !! 5%nat;
  l17 ← landmarks !! 17%nat;
  let isClosed' := classify wrist tips mcps in
  let handPosition' := (sub (Some 1) (vx l9), vy l9) in
  let wristToMiddleDist :=
    sqrt (add (pow2 (sub (vx l9) (vx wrist))) (pow2 (sub (vy l9) (vy wrist)))) in
  let handScale' := Some wristToMiddleDist in
  let skip := mkTracker isClosed' handPosition' (rotation tr) handScale' in
  let zAxis := zAxis wrist l5 l17 in
  if isNaN (vx zAxis) || isNaN (vy zAxis) || isNaN (vz zAxis) then Some skip
  else
    let yAxisFinal := yAxisFinal wrist l9 in
    if isNaN (vx yAxisFinal) || isNaN (vy yAxisFinal) || isNaN (vz yAxisFinal)
    then Some skip
    else
      let xAxis := xAxis yAxisFinal zAxis in
      if isNaN (vx xAxis) || isNaN (vy xAxis) || isNaN (vz xAxis) then Some skip
      else
        Some (mkTracker isClosed' handPosition'
                (quat_setFromBasis xAxis yAxisFinal zAxis) handScale').

End Tracker.

End NaN.


(** ** The page: camera results and animation frames *)



Section Page.

Context `{Three}.



End Page.



(** * Properties *)

(** ** Numbers *)

Lemma ltb_true a b : ltb a b = true <-> a < b.
Proof. unfold ltb. destruct (Rlt_dec a b); split; intros; auto; discriminate. Qed.

Lemma ltb_false a b : ltb a b = false <-> b <= a.
Proof.
  unfold ltb. destruct (Rlt_dec a b); split; intros; auto; try discriminate; lra.
Qed.

Lemma truthy_true a : truthy a = true <-> a <> 0.
Proof.
  unfold truthy. destruct (Req_dec_T a 0); split; intros; auto;
    try discriminate; contradiction.
Qed.

Lemma truthy_false a : truthy a = false <-> a = 0.
Proof.
  unfold truthy. destruct (Req_dec_T a 0); split; intros; auto;
    try discriminate; contradiction.
Qed.

Lemma div_lt_cross a b c d : 0 < b -> 0 < d -> a * d < c * b -> a / b < c / d.
Proof.
  intros Hb Hd Hlt.
  apply (Rmult_lt_reg_r (b * d)); [nra|].
  replace (a / b * (b * d)) with (a * d) by (field; lra).
  replace (c / d * (b * d)) with (c * b) by (field; lra).
  exact Hlt.
Qed.

Lemma pow_ratio (p q : Z) (n : nat) :
  (0 < q)%Z -> (IZR p / IZR q) ^ n = IZR (p ^ Z.of_nat n) / IZR (q ^ Z.of_nat n).
Proof.
  intros Hq. rewrite <- !pow_IZR.
  assert (IZR q <> 0) by (apply not_0_IZR; lia).
  unfold Rdiv. rewrite Rpow_mult_distr, pow_inv. reflexivity.
Qed.

(** A power of a ratio of integers is compared with a ratio of integers by
    a comparison of integers, which is computed. *)
Lemma pow_ratio_lt (p q c d : Z) (n : nat) :
  (0 < q)%Z -> (0 < d)%Z ->
  (p ^ Z.of_nat n * d < c * q ^ Z.of_nat n)%Z ->
  (IZR p / IZR q) ^ n < IZR c / IZR d.
Proof.
  intros Hq Hd Hlt. rewrite pow_ratio by assumption.
  apply div_lt_cross.
  - apply IZR_lt. apply Z.pow_pos_nonneg; lia.
  - apply IZR_lt. assumption.
  - rewrite <- !mult_IZR. apply IZR_lt. assumption.
Qed.

Lemma pow_ratio_gt (p q c d : Z) (n : nat) :
  (0 < q)%Z -> (0 < d)%Z ->
  (c * q ^ Z.of_nat n < p ^ Z.of_nat n * d)%Z ->
  IZR c / IZR d < (IZR p / IZR q) ^ n.
Proof.
  intros Hq Hd Hlt. rewrite pow_ratio by assumption.
  apply div_lt_cross.
  - apply IZR_lt. assumption.
  - apply IZR_lt. apply Z.pow_pos_nonneg; lia.
  - rewrite <- !mult_IZR. apply IZR_lt. assumption.
Qed.

Lemma pow_decay_le (a : R) (m n : nat) :
  0 <= a <= 1 -> (m <= n)%nat -> a ^ n <= a ^ m.
Proof.
  intros Ha Hmn. replace n with (m + (n - m))%nat by lia.
  rewrite pow_add.
  assert (0 <= a ^ m) by (apply pow_le; lra).
  assert (a ^ (n - m) <= 1).
  { rewrite <- (pow1 (n - m)). apply pow_incr. lra. }
  nra.
Qed.

Lemma decay_551 : (119 / 120) ^ 551 < 1 / 100.
Proof. apply (pow_ratio_lt 119 120 1 100 551); [lia | lia | vm_compute; reflexivity]. Qed.

Lemma decay_300_lt : (119 / 120) ^ 300 < 9 / 100.
Proof. apply (pow_ratio_lt 119 120 9 100 300); [lia | lia | vm_compute; reflexivity]. Qed.

Lemma decay_300_gt : 8 / 100 < (119 / 120) ^ 300.
Proof. apply (pow_ratio_gt 119 120 8 100 300); [lia | lia | vm_compute; reflexivity]. Qed.

(** ** The blend parameter [uState] *)

Lemma uState_updatePopup dt st :
  uState (uniforms (updatePopup dt st)) = uState (uniforms st).
Proof.
  unfold updatePopup.
  destruct (active (popupState st)); simpl; [|reflexivity].
  destruct (popupFactor _); reflexivity.
Qed.

Section Blend.

Context `{Three}.

(** One tick moves [uState] by [(target - uState) * 0.5 * dt] when a hand
    is present and leaves it alone otherwise. *)
Lemma uState_update dt hd st :
  uState (uniforms (update dt hd st)) =
  match hd with
  | Some h => uState (uniforms st)
              + ((if hd_isClosed h then 1.0 else 0.0) - uState (uniforms st)) * 0.5 * dt
  | None => uState (uniforms st)
  end.
Proof.
  unfold update. rewrite uState_updatePopup.
  destruct hd as [h|]; [|reflexivity].
  destruct (hd_rotation h); destruct (truthy (hd_scale h)); reflexivity.
Qed.

(** With a closed hand in every frame at 60 frames per second, the
    distance of [uState] to 1 shrinks by 119/120 per frame. *)
Lemma blend_closed_form frames st :
  Forall closedFrame frames ->
  1 - uState (uniforms (run frames st))
  = (1 - uState (uniforms st)) * (119 / 120) ^ length frames.
Proof.
  intros Hall. revert st.
  induction Hall as [|[dt hd] frames [Hdt (h & Hhd & Hclosed)] _ IH]; intros st.
  - simpl. lra.
  - simpl in Hdt, Hhd. subst dt hd. cbn [run length].
    rewrite IH, uState_update, Hclosed. rewrite <- tech_pow_Rmult. lra.
Qed.

(** C1 (as amended).  From blend 0, with a hand present and closed in
    every tick at dt = 1/60 s: after at least 5 s of ticks (300 ticks) the
    blend exceeds 0.91, and after at least 551 ticks (about 9.2 s) it
    exceeds 0.99. *)
Theorem blend_converges_closed frames st :
  uState (uniforms st) = 0 ->
  Forall closedFrame frames ->
  (300 <= length frames)%nat ->
  0.91 < uState (uniforms (run frames st))
  /\ ((551 <= length frames)%nat -> 0.99 < uState (uniforms (run frames st))).
Proof.
  intros H0 Hall Hlen.
  pose proof (blend_closed_form frames st Hall) as Hform.
  rewrite H0 in Hform.
  split.
  - pose proof (pow_decay_le (119 / 120) 300 (length frames)
                  ltac:(lra) Hlen) as Hle.
    pose proof decay_300_lt. lra.
  - intros Hlen'.
    pose proof (pow_decay_le (119 / 120) 551 (length frames)
                  ltac:(lra) Hlen') as Hle.
    pose proof decay_551. lra.
Qed.

End Blend.

Example blend_one_tick :
  uState (uniforms (update (1 / 60) (Some fist) twoParticles)) = 1 / 120.
Proof. rewrite uState_update. simpl. lra. Qed.

Lemma closedFrame_fist : closedFrame (1 / 60, Some fist).
Proof. split; [reflexivity|]. exists fist. split; reflexivity. Qed.

Lemma blend_converges_closed_witness :
  uState (uniforms twoParticles) = 0
  /\ Forall closedFrame (replicate 551 (1 / 60, Some fist))
  /\ (300 <= length (replicate 551 (1 / 60, Some fist)))%nat
  /\ (551 <= length (replicate 551 (1 / 60, Some fist)))%nat
  /\ 0.91 < uState (uniforms (run (replicate 551 (1 / 60, Some fist)) twoParticles))
  /\ 0.99 < uState (uniforms (run (replicate 551 (1 / 60, Some fist)) twoParticles)).
Proof.
  assert (H1 : Forall closedFrame (replicate 551 (1 / 60, Some fist))).
  { apply Forall_replicate, closedFrame_fist. }
  assert (H2 : (300 <= length (replicate 551 (1 / 60, Some fist)))%nat).
  { rewrite length_replicate. lia. }
  assert (H3 : (551 <= length (replicate 551 (1 / 60, Some fist)))%nat).
  { rewrite length_replicate. lia. }
  split; [reflexivity|]. split; [exact H1|]. split; [exact H2|]. split; [exact H3|].
  destruct (blend_converges_closed (replicate 551 (1 / 60, Some fist)) twoParticles
              eq_refl H1 H2) as [Hlow Hhigh].
  split; [exact Hlow | exact (Hhigh H3)].
Defined.

(** C1 (as stated) fails: after exactly 5 s of ticks with a closed hand,
    from blend 0, the blend is below 0.92. *)
Lemma blend_after_5s_counterexample :
  uState (uniforms twoParticles) = 0
  /\ Forall closedFrame (replicate 300 (1 / 60, Some fist))
  /\ length (replicate 300 (1 / 60, Some fist)) = 300%nat
  /\ ~ 0.99 < uState (uniforms (run (replicate 300 (1 / 60, Some fist)) twoParticles)).
Proof.
  assert (H1 : Forall closedFrame (replicate 300 (1 / 60, Some fist))).
  { apply Forall_replicate, closedFrame_fist. }
  split; [reflexivity|]. split; [exact H1|]. split; [apply length_replicate|].
  pose proof (blend_closed_form (replicate 300 (1 / 60, Some fist)) twoParticles H1)
    as Hform.
  rewrite length_replicate in Hform.
  change (uState (uniforms twoParticles)) with 0 in Hform.
  pose proof decay_300_gt. lra.
Qed.

Section BlendRange.

Context `{Three}.

Lemma blend_step_range dt hd st :
  0 <= uState (uniforms st) <= 1 -> 0 <= dt <= 2 ->
  0 <= uState (uniforms (update dt hd st)) <= 1.
Proof.
  intros Hu Hdt. rewrite uState_update.
  destruct hd as [h|]; [|exact Hu].
  destruct (hd_isClosed h); nra.
Qed.

Lemma blend_run_range frames st :
  0 <= uState (uniforms st) <= 1 ->
  Forall (fun f => 0 <= fst f <= 2) frames ->
  0 <= uState (uniforms (run frames st)) <= 1.
Proof.
  intros Hu Hall. revert st Hu.
  induction Hall as [|[dt hd] frames Hdt _ IH]; intros st Hu; simpl; [exact Hu|].
  apply IH, blend_step_range; assumption.
Qed.

(** C2 (as amended).  From a blend in [0,1], through any frames with
    0 <= dt <= 2 and any hand data, the blend stays in [0,1], and a tick
    changes it by at most 0.5 * dt. *)
Theorem blend_in_range_and_continuous frames dt hd st :
  0 <= uState (uniforms st) <= 1 ->
  Forall (fun f => 0 <= fst f <= 2) frames ->
  0 <= dt <= 2 ->
  0 <= uState (uniforms (update dt hd (run frames st))) <= 1
  /\ Rabs (uState (uniforms (update dt hd (run frames st)))
           - uState (uniforms (run frames st))) <= 0.5 * dt.
Proof.
  intros Hu Hall Hdt.
  pose proof (blend_run_range frames st Hu Hall) as Hr.
  split; [apply blend_step_range; assumption|].
  rewrite uState_update.
  destruct hd as [h|].
  - apply Rabs_le. destruct (hd_isClosed h); nra.
  - apply Rabs_le. lra.
Qed.

End BlendRange.

Lemma blend_in_range_and_continuous_witness :
  0 <= uState (uniforms twoParticles) <= 1
  /\ Forall (fun f : R * option HandData => 0 <= fst f <= 2) [(2, Some fist)]
  /\ 0 <= 2 <= 2
  /\ 0 <= uState (uniforms (update 2 (Some openHand)
                              (run [(2, Some fist)] twoParticles))) <= 1
  /\ Rabs (uState (uniforms (update 2 (Some openHand)
                               (run [(2, Some fist)] twoParticles)))
           - uState (uniforms (run [(2, Some fist)] twoParticles))) <= 0.5 * 2.
Proof.
  assert (H0 : 0 <= uState (uniforms twoParticles) <= 1) by (simpl; lra).
  assert (H1 : Forall (fun f : R * option HandData => 0 <= fst f <= 2)
                 [(2, Some fist)]).
  { constructor; [simpl; lra | constructor]. }
  assert (H2 : 0 <= 2 <= 2) by lra.
  split; [exact H0|]. split; [exact H1|]. split; [exact H2|].
  exact (blend_in_range_and_continuous [(2, Some fist)] 2 (Some openHand)
           twoParticles H0 H1 H2).
Defined.

(** C2 (as stated) fails for a long frame: with dt = 4 (a tab that was in
    the background) a closed hand takes the blend from 0 to 2, and the
    next such frame with an open hand moves it by 4, which is more than
    0.5 * dt = 2. *)
Lemma blend_long_frame_counterexample :
  uState (uniforms twoParticles) = 0
  /\ 0 <= 4
  /\ uState (uniforms (update 4 (Some fist) twoParticles)) = 2
  /\ ~ (0 <= uState (uniforms (update 4 (Some fist) twoParticles)) <= 1)
  /\ ~ (Rabs (uState (uniforms (update 4 (Some openHand)
                                  (update 4 (Some fist) twoParticles)))
              - uState (uniforms (update 4 (Some fist) twoParticles)))
        <= 0.5 * 4).
Proof.
  assert (E1 : uState (uniforms (update 4 (Some fist) twoParticles)) = 2).
  { rewrite uState_update. simpl. lra. }
  split; [reflexivity|]. split; [lra|]. split; [exact E1|].
  split.
  - rewrite E1. lra.
  - rewrite uState_update, E1. simpl hd_isClosed. cbv iota.
    replace (2 + (0.0 - 2) * 0.5 * 4 - 2) with (-4) by lra.
    rewrite Rabs_left by lra. lra.
Qed.

(** ** The smoothed scale *)

Section Scale.

Context `{Three}.

Lemma smoothedHandScale_updatePopup dt st :
  smoothedHandScale (updatePopup dt st) = smoothedHandScale st.
Proof.
  unfold updatePopup.
  destruct (active (popupState st)); simpl; [|reflexivity].
  destruct (popupFactor _); reflexivity.
Qed.

Lemma uScale_updatePopup dt st :
  uScale (uniforms (updatePopup dt st)) = uScale (uniforms st).
Proof.
  unfold updatePopup.
  destruct (active (popupState st)); simpl; [|reflexivity].
  destruct (popupFactor _); reflexivity.
Qed.

(** The clamped linear map of [update] is the remapping of the
    specification. *)
Lemma remap_refines a :
  1.0 + Math.max 0.0 (Math.min 1.0 ((a - 0.1) / (0.3 - 0.1))) * 1.5
  = remapDepthScale_spec a.
Proof.
  replace ((a - 0.1) / (0.3 - 0.1)) with ((a - 0.1) * 5) by lra.
  replace ((2.5 - 1.0) / (0.3 - 0.1)) with 7.5 by lra.
  unfold remapDepthScale_spec, Math.max, Math.min.
  destruct (Rle_dec a 0.1), (Rle_dec 0.3 a);
    apply Rmin_case_strong; intros; apply Rmax_case_strong; intros; lra.
Qed.

(** What a tick with a hand does to the smoothed scale and to [uScale]. *)
Lemma smoothedHandScale_update dt hd st :
  smoothedHandScale (update dt (Some hd) st)
  = (if truthy (hd_scale hd)
     then smoothedHandScale st
          + (remapDepthScale_spec (hd_scale hd) - smoothedHandScale st)
            * smoothingFactor_spec (hd_isClosed hd)
     else smoothedHandScale st)
  /\ uScale (uniforms (update dt (Some hd) st))
     = (if truthy (hd_scale hd) then smoothedHandScale (update dt (Some hd) st)
        else uScale (uniforms st)).
Proof.
  unfold update. rewrite smoothedHandScale_updatePopup, uScale_updatePopup.
  unfold smoothingFactor_spec. rewrite <- remap_refines.
  destruct (truthy (hd_scale hd)); destruct (hd_rotation hd);
    destruct (hd_isClosed hd); simpl; split; reflexivity.
Qed.

Example remap_at_200 : remapDepthScale_spec 0.2 = 1.75.
Proof.
  unfold remapDepthScale_spec.
  destruct (Rle_dec 0.2 0.1); [lra|]. destruct (Rle_dec 0.3 0.2); lra.
Qed.

(** The tracker never hands a depth scale of zero to [update]: its
    [getState] replaces a missing or zero [handScale] by 0.2. *)
Lemma getState_scale_nonzero tr : hd_scale (getState tr) <> 0.
Proof.
  unfold getState. cbn [hd_scale].
  destruct (handScale tr) as [a|]; [|lra].
  destruct (truthy a) eqn:E; [apply truthy_true; exact E | lra].
Qed.

(** C9.  In a tick with a hand present, [update] is given the hand data
    of the tracker ([getState], the only hand data that [main.js] passes
    on); its depth scale is remapped linearly from [0.1, 0.3] onto
    [1.0, 2.5], clamped at both ends, and the smoothed scale (also
    written to [uScale]) moves towards that target by the factor 0.03
    for a closed and 0.15 for an open hand. *)
Theorem scale_remap_and_smoothing dt tr st :
  let hd := getState tr in
  let st' := update dt (Some hd) st in
  smoothedHandScale st'
  = smoothedHandScale st
    + (remapDepthScale_spec (hd_scale hd) - smoothedHandScale st)
      * smoothingFactor_spec (hd_isClosed hd)
  /\ uScale (uniforms st') = smoothedHandScale st'.
Proof.
  intros hd st'. subst st'.
  destruct (smoothedHandScale_update dt hd st) as [Hs Hu].
  assert (Hnz : truthy (hd_scale hd) = true).
  { apply truthy_true. subst hd. apply getState_scale_nonzero. }
  rewrite Hnz in Hs, Hu. split; assumption.
Qed.

End Scale.

(** ** The popup animator *)

Lemma popupFactor_in t : t < 0.3 -> popupFactor t = Some (sin ((t / 0.3) * (PI / 2))).
Proof. intros Ht. unfold popupFactor. destruct (Rlt_dec t 0.3); [reflexivity | lra]. Qed.

Lemma popupFactor_hold t : 0.3 <= t < 1.2 -> popupFactor t = Some 1.0.
Proof.
  intros Ht. unfold popupFactor.
  destruct (Rlt_dec t 0.3); [lra|]. destruct (Rlt_dec t 1.2); [reflexivity | lra].
Qed.

Lemma popupFactor_out t :
  1.2 <= t < 1.5 -> popupFactor t = Some (1.0 - (t - 1.2) / 0.3).
Proof.
  intros Ht. unfold popupFactor.
  destruct (Rlt_dec t 0.3); [lra|]. destruct (Rlt_dec t 1.2); [lra|].
  destruct (Rlt_dec t 1.5); [reflexivity | lra].
Qed.

Lemma popupFactor_end t : 1.5 <= t -> popupFactor t = None.
Proof.
  intros Ht. unfold popupFactor.
  destruct (Rlt_dec t 0.3); [lra|]. destruct (Rlt_dec t 1.2); [lra|].
  destruct (Rlt_dec t 1.5); [lra | reflexivity].
Qed.

Lemma updatePopup_running dt st f :
  active (popupState st) = true ->
  popupFactor (timer (popupState st) + dt) = Some f ->
  popupShown st (updatePopup dt st) f.
Proof.
  intros Hact Hf. unfold popupShown, updatePopup. rewrite Hact. cbn [negb].
  cbv zeta. rewrite Hf. cbn. repeat split; auto.
Qed.

Lemma updatePopup_finished dt st :
  active (popupState st) = true ->
  popupFactor (timer (popupState st) + dt) = None ->
  active (popupState (updatePopup dt st)) = false
  /\ visible (popupMesh (updatePopup dt st)) = false
  /\ uClickedID (uniforms (updatePopup dt st)) = -1.
Proof.
  intros Hact Hf. unfold updatePopup. rewrite Hact. cbn [negb].
  cbv zeta. rewrite Hf. cbn. repeat split; try reflexivity. lra.
Qed.

(** C3.  With an active popup whose timer reaches [t] in this tick, the
    animation factor is sin((t/0.3)(pi/2)) for t < 0.3, is 1 for
    0.3 <= t < 1.2, is 1 - (t - 1.2)/0.3 (from 1 down to 0) for
    1.2 <= t < 1.5, and for t >= 1.5 the animator is switched off, the
    popup mesh is hidden and [uClickedID] is reset to -1. *)
Theorem popup_phases dt st :
  active (popupState st) = true ->
  let t := timer (popupState st) + dt in
  let st' := updatePopup dt st in
  (t < 0.3 -> popupShown st st' (sin ((t / 0.3) * (PI / 2))))
  /\ (0.3 <= t < 1.2 -> popupShown st st' 1)
  /\ (1.2 <= t < 1.5 ->
      popupShown st st' (1 - (t - 1.2) / 0.3)
      /\ 1 - (t - 1.2) / 0.3 = (1.5 - t) / 0.3
      /\ 0 < 1 - (t - 1.2) / 0.3 <= 1)
  /\ (1.5 <= t ->
      active (popupState st') = false
      /\ visible (popupMesh st') = false
      /\ uClickedID (uniforms st') = -1).
Proof.
  intros Hact t st'. subst t st'.
  split; [|split; [|split]]; intros Ht.
  - apply updatePopup_running; [assumption | apply popupFactor_in; assumption].
  - apply updatePopup_running; [assumption|].
    rewrite popupFactor_hold by assumption. f_equal. lra.
  - split; [|split].
    + apply updatePopup_running; [assumption|].
      rewrite popupFactor_out by assumption. f_equal. lra.
    + lra.
    + lra.
  - apply updatePopup_finished; [assumption | apply popupFactor_end; assumption].
Qed.

Example popupFactor_at_300ms : popupFactor 0.3 = Some 1.0.
Proof. apply popupFactor_hold. lra. Qed.

Example popupFactor_at_1500ms : popupFactor 1.5 = None.
Proof. apply popupFactor_end. lra. Qed.

Lemma popup_phases_witness :
  popupShown (popupRunning 0) (updatePopup 0.1 (popupRunning 0))
    (sin ((0.1 / 0.3) * (PI / 2)))
  /\ popupShown (popupRunning 0) (updatePopup 0.3 (popupRunning 0)) 1
  /\ popupShown (popupRunning 1.2) (updatePopup 0.15 (popupRunning 1.2)) 0.5
  /\ (active (popupState (updatePopup 1.5 (popupRunning 0))) = false
      /\ visible (popupMesh (updatePopup 1.5 (popupRunning 0))) = false
      /\ uClickedID (uniforms (updatePopup 1.5 (popupRunning 0))) = -1).
Proof.
  split; [|split; [|split]].
  - pose proof (proj1 (popup_phases 0.1 (popupRunning 0) eq_refl)) as P.
    cbn [popupRunning set_uniforms set_popup popupState timer] in P.
    replace (0 + 0.1) with 0.1 in P by lra. apply P. lra.
  - pose proof (proj1 (proj2 (popup_phases 0.3 (popupRunning 0) eq_refl))) as P.
    apply P. cbn. lra.
  - pose proof (proj1 (proj2 (proj2 (popup_phases 0.15 (popupRunning 1.2) eq_refl)))) as P.
    cbn [popupRunning set_uniforms set_popup popupState timer] in P.
    replace (1 - (1.2 + 0.15 - 1.2) / 0.3) with 0.5 in P by lra.
    apply P. lra.
  - pose proof (proj2 (proj2 (proj2 (popup_phases 1.5 (popupRunning 0) eq_refl)))) as P.
    apply P. cbn. lra.
Defined.

(** ** Focus activation *)

Lemma bind_run {A B} (m : M A) (k : A -> M B) (g : Rng) :
  (m ≫= k) g = match m g with Some (a, g') => k a g' | None => None end.
Proof. reflexivity. Qed.

Lemma ret_run {A} (a : A) (g : Rng) : (mret a : M A) g = Some (a, g).
Proof. reflexivity. Qed.

Lemma drawnIndex_next g count k :
  drawnIndex (mkRng (draws g) (S (cursor g))) count k = drawnIndex g count (S k).
Proof. unfold drawnIndex. simpl. rewrite Nat.add_succ_r. reflexivity. Qed.

Lemma cursor_drawnIndex g count :
  Math.floor (draws g (cursor g) * INR count) = drawnIndex g count 0.
Proof. unfold drawnIndex. rewrite Nat.add_0_r. reflexivity. Qed.

(** The search stops at the first draw that selects a photo particle. *)
Lemma findPhotoParticle_hit rounds isPhotos count g k :
  (k < rounds)%nat ->
  isPhotoAt isPhotos (drawnIndex g count k) = true ->
  (forall j, (j < k)%nat -> isPhotoAt isPhotos (drawnIndex g count j) = false) ->
  findPhotoParticle rounds isPhotos count g
  = Some (Some (drawnIndex g count k), mkRng (draws g) (cursor g + S k)).
Proof.
  revert g k. induction rounds as [|rounds IH]; intros g k Hk Hhit Hmiss; [lia|].
  cbn [findPhotoParticle]. rewrite bind_run. cbn [random].
  rewrite cursor_drawnIndex.
  destruct k as [|k].
  - rewrite Hhit. cbn. rewrite Nat.add_1_r. reflexivity.
  - rewrite (Hmiss 0%nat) by lia.
    rewrite (IH _ k); [| lia | rewrite drawnIndex_next; assumption |].
    + rewrite drawnIndex_next. cbn [draws cursor]. do 3 f_equal. lia.
    + intros j Hj. rewrite drawnIndex_next. apply Hmiss. lia.
Qed.

(** A search whose draws all miss gives up after [rounds] draws. *)
Lemma findPhotoParticle_miss rounds isPhotos count g :
  (forall j, (j < rounds)%nat -> isPhotoAt isPhotos (drawnIndex g count j) = false) ->
  findPhotoParticle rounds isPhotos count g
  = Some (None, mkRng (draws g) (cursor g + rounds)).
Proof.
  revert g. induction rounds as [|rounds IH]; intros g Hmiss.
  - cbn. rewrite Nat.add_0_r. destruct g; reflexivity.
  - cbn [findPhotoParticle]. rewrite bind_run. cbn [random].
    rewrite cursor_drawnIndex, (Hmiss 0%nat) by lia.
    rewrite IH.
    + cbn [draws cursor]. do 3 f_equal. lia.
    + intros j Hj. rewrite drawnIndex_next. apply Hmiss. lia.
Qed.

(** A particle selected by the search has an index inside the array. *)
Lemma isPhotoAt_true isPhotos r :
  isPhotoAt isPhotos r = true ->
  (0 <= r)%Z /\ exists a, isPhotos !! Z.to_nat r = Some a /\ 0.5 < a.
Proof.
  unfold isPhotoAt. destruct (Z.ltb_spec r 0); [discriminate|].
  destruct (isPhotos !! Z.to_nat r) as [a|] eqn:E; [|discriminate].
  intros Hlt. apply ltb_true in Hlt. split; [assumption|]. exists a. auto.
Qed.

Lemma IZR_near (z : Z) : Rabs (IZR z) < 0.1 -> z = 0%Z.
Proof.
  intros Hz. destruct (Z.eq_dec z 0%Z) as [|Hne]; [assumption|exfalso].
  assert (Hcases : (z <= -1)%Z \/ (1 <= z)%Z) by lia.
  destruct Hcases as [Hc|Hc]; apply IZR_le in Hc.
  - rewrite Rabs_left in Hz by lra. lra.
  - rewrite Rabs_right in Hz by lra. lra.
Qed.

(** With ids in order, exactly the particle whose index is [uClickedID]
    is left out of the draw. *)
Lemma hidden_iff st (r : Z) :
  aID (attributes st) = map INR (seq 0 (particleCount st)) ->
  (0 <= r)%Z -> (Z.to_nat r < particleCount st)%nat ->
  uClickedID (uniforms st) = IZR r ->
  forall i, hiddenFromDraw st i <-> i = Z.to_nat r.
Proof.
  intros Hids Hr Hlt Hu i. unfold hiddenFromDraw. rewrite Hids, Hu. split.
  - intros (a & Ha & Hnear).
    rewrite list_lookup_fmap in Ha.
    destruct (seq 0 (particleCount st) !! i) as [j|] eqn:E; [|discriminate].
    apply lookup_seq in E. destruct E as [-> _]. simpl in Ha.
    injection Ha as <-.
    rewrite INR_IZR_INZ, <- minus_IZR in Hnear.
    apply IZR_near in Hnear. lia.
  - intros ->. exists (INR (Z.to_nat r)). split.
    + rewrite list_lookup_fmap, lookup_seq_lt by assumption. reflexivity.
    + rewrite INR_IZR_INZ, Z2Nat.id by assumption.
      replace (IZR r - IZR r) with 0 by lra. rewrite Rabs_R0. lra.
Qed.

Section Activation.

Context `{Three}.

Lemma onClick_closed st g : isClosed st = true -> onClick st g = Some (st, g).
Proof. intros Hc. unfold onClick. rewrite Hc. reflexivity. Qed.

Lemma onClick_miss st g :
  isClosed st = false ->
  (forall k, (k < 100)%nat -> searchMisses st g k) ->
  onClick st g = Some (st, mkRng (draws g) (cursor g + 101)).
Proof.
  intros Hc Hmiss. unfold onClick. rewrite Hc.
  rewrite bind_run. cbn [random]. rewrite bind_run.
  rewrite findPhotoParticle_miss.
  - cbn [draws cursor]. rewrite ret_run.
    replace (S (cursor g) + 100)%nat with (cursor g + 101)%nat by lia. reflexivity.
  - intros j Hj. rewrite drawnIndex_next. apply Hmiss. assumption.
Qed.

Lemma onClick_hit st g k :
  isClosed st = false -> (k < 100)%nat -> firstHit st g k ->
  exists st',
    onClick st g = Some (st', mkRng (draws g) (cursor g + S (S k)))
    /\ uClickedID (uniforms st') = IZR (drawnIndex g (particleCount st) (S k))
    /\ active (popupState st') = true
    /\ timer (popupState st') = 0
    /\ id (popupState st') = IZR (drawnIndex g (particleCount st) (S k))
    /\ visible (popupMesh st') = true
    /\ position (popupMesh st') = startPos (popupState st')
    /\ attributes st' = attributes st
    /\ particleCount st' = particleCount st
    /\ uState (uniforms st') = uState (uniforms st).
Proof.
  intros Hc Hk [Hhit Hmiss]. unfold onClick. rewrite Hc.
  rewrite bind_run. cbn [random]. rewrite bind_run.
  rewrite (findPhotoParticle_hit 100 _ _ _ k).
  - cbn [draws cursor]. rewrite drawnIndex_next.
    eexists. split.
    + rewrite ret_run.
      replace (S (cursor g) + S k)%nat with (cursor g + S (S k))%nat by lia.
      reflexivity.
    + cbn. repeat split; reflexivity.
  - assumption.
  - rewrite drawnIndex_next. assumption.
  - intros j Hj. rewrite drawnIndex_next. apply Hmiss. assumption.
Qed.

(** C4 (as amended).  An activation while the gesture is Closed changes
    nothing.  While it is Open, the search looks at up to 100 random
    particles: if one of these draws selects a particle with a photo, the
    first such particle becomes the one particle hidden from the draw
    ([uClickedID] is its id) and the popup becomes active with timer 0;
    if all 100 draws miss, nothing changes, whether or not particles
    with a photo exist. *)
Theorem focus_activation st g :
  wellFormed st ->
  (isClosed st = true -> onClick st g = Some (st, g))
  /\ (isClosed st = false ->
      (forall k, (k < 100)%nat -> firstHit st g k ->
         let r := drawnIndex g (particleCount st) (S k) in
         exists st',
           onClick st g = Some (st', mkRng (draws g) (cursor g + S (S k)))
           /\ flagged st (Z.to_nat r)
           /\ uClickedID (uniforms st') = IZR r
           /\ (forall i, hiddenFromDraw st' i <-> i = Z.to_nat r)
           /\ active (popupState st') = true
           /\ timer (popupState st') = 0
           /\ visible (popupMesh st') = true)
      /\ ((forall k, (k < 100)%nat -> searchMisses st g k) ->
          onClick st g = Some (st, mkRng (draws g) (cursor g + 101)))).
Proof.
  intros (Hids & Hlen & _). split; [apply onClick_closed|].
  intros Hc. split; [|apply onClick_miss; assumption].
  intros k Hk Hfirst r.
  destruct (onClick_hit st g k Hc Hk Hfirst)
    as (st' & Hrun & Hu & Hact & Htimer & _ & Hvis & _ & Hattr & Hcount & _).
  destruct Hfirst as [Hhit _].
  apply isPhotoAt_true in Hhit. destruct Hhit as (Hr & a & Ha & Hgt).
  fold r in Hr, Ha, Hu.
  exists st'. split; [exact Hrun|]. split; [exists a; auto|]. split; [exact Hu|].
  split; [|auto].
  apply hidden_iff; try assumption.
  - rewrite Hattr, Hcount. assumption.
  - rewrite Hcount, <- Hlen. apply lookup_lt_Some in Ha. assumption.
Qed.

End Activation.

Lemma wellFormed_twoParticles : wellFormed twoParticles.
Proof. repeat split. Qed.

Lemma floor_quarter : Math.floor (1 / 4 * INR 2) = 0%Z.
Proof. apply Zfloor_eq. simpl. lra. Qed.

Lemma floor_three_quarters : Math.floor (3 / 4 * INR 2) = 1%Z.
Proof. apply Zfloor_eq. simpl. lra. Qed.

Lemma firstHit_quarter : firstHit twoParticles (constantDraws (1 / 4)) 0.
Proof.
  split; [|intros j Hj; lia].
  unfold drawnIndex. cbn [constantDraws draws twoParticles particleCount].
  rewrite floor_quarter. cbn. apply ltb_true. lra.
Qed.

Lemma focus_activation_witness :
  wellFormed twoParticles
  /\ isClosed twoParticles = false
  /\ firstHit twoParticles (constantDraws (1 / 4)) 0
  /\ exists st',
       onClick twoParticles (constantDraws (1 / 4))
       = Some (st', mkRng (draws (constantDraws (1 / 4))) 2)
       /\ flagged twoParticles 0
       /\ uClickedID (uniforms st') = 0
       /\ (forall i, hiddenFromDraw st' i <-> i = 0%nat)
       /\ active (popupState st') = true
       /\ timer (popupState st') = 0
       /\ visible (popupMesh st') = true.
Proof.
  split; [exact wellFormed_twoParticles|]. split; [reflexivity|].
  split; [exact firstHit_quarter|].
  pose proof (proj1 (proj2 (focus_activation twoParticles (constantDraws (1 / 4))
                              wellFormed_twoParticles) eq_refl)
                0%nat ltac:(lia) firstHit_quarter) as P.
  cbv zeta in P. unfold drawnIndex in P.
  cbn [constantDraws draws cursor twoParticles particleCount] in P.
  rewrite floor_quarter in P. exact P.
Defined.

(** C4 (as stated) fails: with two particles of which the first carries a
    photo, an open hand and a stream whose draws all select the second
    particle, the 100 draws miss and the activation does nothing. *)
Lemma activation_can_fail_counterexample :
  isClosed twoParticles = false
  /\ flagged twoParticles 0
  /\ unitDraws (constantDraws (3 / 4))
  /\ exists g',
       onClick twoParticles (constantDraws (3 / 4)) = Some (twoParticles, g')
       /\ active (popupState twoParticles) = false
       /\ forall i, ~ hiddenFromDraw twoParticles i.
Proof.
  split; [reflexivity|].
  split; [exists 1; split; [reflexivity | lra]|].
  split; [intros n; simpl; lra|].
  eexists. split; [|split; [reflexivity|]].
  - apply onClick_miss; [reflexivity|].
    intros k _. unfold searchMisses, drawnIndex.
    cbn [constantDraws draws twoParticles particleCount].
    rewrite floor_three_quarters. cbn. apply ltb_false. lra.
  - intros i (a & Ha & Hnear). cbn in Ha, Hnear.
    destruct i as [|[|i]]; cbn in Ha; try discriminate;
      injection Ha as <-.
    + rewrite Rabs_right in Hnear by lra. lra.
    + rewrite Rabs_right in Hnear by lra. lra.
Qed.

(** ** Construction *)

(** The lengths of the arrays that the statements rely on. *)
Lemma initParticle_run col cols rows i a g :
  exists a' g',
    initParticle col cols rows i a g = Some (a', g')
    /\ aID a' = <[i := INR i]> (aID a)
    /\ length (aIsPhoto a') = length (aIsPhoto a)
    /\ length (aTargetPos a') = length (aTargetPos a)
    /\ length (aRandom a') = length (aRandom a)
    /\ length (aColor a') = length (aColor a).
Proof.
  unfold initParticle.
  repeat (rewrite bind_run; cbn [random]).
  rewrite ret_run. eexists _, _. split; [reflexivity|].
  cbn. rewrite !length_insert. repeat split; reflexivity.
Qed.

Lemma initLoop_run col cols rows n i a g :
  (forall j, (j < i)%nat -> aID a !! j = Some (INR j)) ->
  length (aID a) = (i + n)%nat ->
  exists a' g',
    initLoop col cols rows n i a g = Some (a', g')
    /\ (forall j, (j < i + n)%nat -> aID a' !! j = Some (INR j))
    /\ length (aID a') = (i + n)%nat
    /\ length (aIsPhoto a') = length (aIsPhoto a)
    /\ length (aTargetPos a') = length (aTargetPos a)
    /\ length (aRandom a') = length (aRandom a)
    /\ length (aColor a') = length (aColor a).
Proof.
  revert i a g. induction n as [|n IH]; intros i a g Hids Hlen.
  - exists a, g. split; [reflexivity|]. rewrite Nat.add_0_r in *. auto 10.
  - cbn [initLoop]. rewrite bind_run.
    destruct (initParticle_run col cols rows i a g)
      as (a1 & g1 & -> & Hid1 & Hp1 & Ht1 & Hr1 & Hc1).
    destruct (IH (S i) a1 g1) as (a' & g' & Hrun & Hids' & Hlen' & Hp & Ht & Hr & Hc).
    + intros j Hj. rewrite Hid1.
      destruct (Nat.eq_dec j i) as [->|Hne].
      * apply list_lookup_insert_eq. lia.
      * rewrite list_lookup_insert_ne by lia. apply Hids. lia.
    + rewrite Hid1, length_insert. lia.
    + exists a', g'. split; [exact Hrun|].
      replace (i + S n)%nat with (S i + n)%nat by lia.
      repeat split; try assumption; congruence.
Qed.

(** [initParticles] returns attributes with the ids in order and the
    lengths of [wellFormed]. *)
Lemma initParticles_wellFormed count col cols rows g :
  exists a g',
    initParticles count col cols rows g = Some (a, g')
    /\ aID a = map INR (seq 0 count)
    /\ length (aIsPhoto a) = count
    /\ length (aTargetPos a) = (count * 3)%nat
    /\ length (aRandom a) = (count * 3)%nat
    /\ length (aColor a) = (count * 3)%nat.
Proof.
  unfold initParticles.
  match goal with |- context [initLoop _ _ _ _ _ ?a0 _] =>
    destruct (initLoop_run col cols rows count 0 a0 g)
      as (a & g' & Hrun & Hids & Hlen & Hp & Ht & Hr & Hc)
  end.
  - intros j Hj. lia.
  - cbn. rewrite length_replicate. reflexivity.
  - cbn in Hp, Ht, Hr, Hc. rewrite length_replicate in Hp, Ht, Hr, Hc.
    exists a, g'. split; [exact Hrun|]. split; [|auto].
    apply list_eq. intros j.
    destruct (Nat.lt_ge_cases j count) as [Hlt|Hge].
    + rewrite Hids by lia.
      rewrite list_lookup_fmap, lookup_seq_lt by assumption. reflexivity.
    + rewrite (proj2 (lookup_ge_None _ _)) by lia.
      rewrite list_lookup_fmap, lookup_seq_ge by assumption. reflexivity.
Qed.

(** ** Shape reassignment *)

Lemma post_ret {A} (a : A) (Q : A -> Prop) : Q a -> post (mret a : M A) Q.
Proof. intros Ha g b g' E. injection E as <- _. exact Ha. Qed.

Lemma post_bind {A B} (m : M A) (k : A -> M B) (Q : B -> Prop) :
  post m (fun a => post (k a) Q) -> post (m ≫= k) Q.
Proof.
  intros Hm g b g' E. rewrite bind_run in E.
  destruct (m g) as [[a g1]|] eqn:Em; [|discriminate].
  exact (Hm g a g1 Em g1 b g' E).
Qed.

Lemma post_bind_any {A B} (m : M A) (k : A -> M B) (Q : B -> Prop) :
  (forall a, post (k a) Q) -> post (m ≫= k) Q.
Proof. intros Hk. apply post_bind. intros g a g' _. apply Hk. Qed.

Lemma post_throw {A} (Q : A -> Prop) : post throw Q.
Proof. intros g a g' E. discriminate. Qed.

Lemma sameSizes_refl w : sameSizes w w.
Proof. split; reflexivity. Qed.

Lemma sameSizes_trans w1 w2 w3 : sameSizes w1 w2 -> sameSizes w2 w3 -> sameSizes w1 w3.
Proof. intros [A1 A2] [B1 B2]. split; congruence. Qed.

Lemma setRGB_sizes r g b w : sameSizes w (setRGB r g b w).
Proof. split; cbn; rewrite ?length_insert; reflexivity. Qed.

Lemma setHex_sizes c w : sameSizes w (setHex c w).
Proof. apply setRGB_sizes. Qed.

Lemma setPos_sizes a b c w : sameSizes w (setPos a b c w).
Proof. split; cbn; rewrite ?length_insert; reflexivity. Qed.

Lemma setPos_setRGB_sizes a b c r g b' w : sameSizes w (setPos a b c (setRGB r g b' w)).
Proof. eapply sameSizes_trans; [apply setRGB_sizes | apply setPos_sizes]. Qed.

Lemma setPos_setHex_sizes a b c col w : sameSizes w (setPos a b c (setHex col w)).
Proof. apply setPos_setRGB_sizes. Qed.

Lemma post_bind_sizes {B} (m : M Gen) (k : Gen -> M B) (w : Gen) (Q : B -> Prop) :
  post m (sameSizes w) ->
  (forall w1, sameSizes w w1 -> post (k w1) Q) ->
  post (m ≫= k) Q.
Proof.
  intros Hm Hk. apply post_bind. intros g w1 g1 E. apply Hk. exact (Hm g w1 g1 E).
Qed.

Lemma setPos_sizes_after a b c w w1 :
  sameSizes w w1 -> sameSizes w (setPos a b c w1).
Proof. intros Hw. eapply sameSizes_trans; [exact Hw | apply setPos_sizes]. Qed.

Create HintDb sizes.

#[local] Hint Resolve sameSizes_refl setRGB_sizes setHex_sizes setPos_sizes
  setPos_setRGB_sizes setPos_setHex_sizes setPos_sizes_after : sizes.

(** Steps through a particle body: binds, conditionals and returns. *)
Ltac step_body :=
  repeat first
    [ apply post_ret; solve [auto with sizes]
    | apply post_throw
    | match goal with
      | |- post (@mbind _ _ Gen _ _ _) (sameSizes ?w) =>
          apply (post_bind_sizes _ _ w); [|intros ? ?]
      end
    | apply post_bind_any; intros ?
    | match goal with
      | |- post (if ?b then _ else _) _ => destruct b
      | |- post (match ?o with Some _ => _ | None => _ end) _ => destruct o
      | |- post (let '(_, _) := ?p in _) _ => destruct p
      | |- post (match ?p with (_, _) => _ end) _ => destruct p
      end ].

Section Shapes.

Context `{Three}.

Lemma heartParticle_sizes fuel color w : post (heartParticle fuel color w) (sameSizes w).
Proof. unfold heartParticle. step_body. Qed.

Lemma flowerParticle_sizes color w : post (flowerParticle color w) (sameSizes w).
Proof. unfold flowerParticle. step_body. Qed.

Lemma planetParticle_sizes w : post (planetParticle w) (sameSizes w).
Proof. unfold planetParticle. step_body. Qed.

Lemma starParticle_sizes color w : post (starParticle color w) (sameSizes w).
Proof. unfold starParticle. step_body. Qed.

Lemma treeParticle_sizes w : post (treeParticle w) (sameSizes w).
Proof.
  unfold treeParticle. step_body.
Qed.

Lemma forParticles_sizes n body w :
  (forall w0, post (body w0) (sameSizes w0)) ->
  post (forParticles n body w) (sameSizes w).
Proof.
  intros Hbody. revert w. induction n as [|n IH]; intros w; cbn [forParticles].
  - apply post_ret, sameSizes_refl.
  - apply post_bind. intros g w1 g1 E1 g2 w2 g3 E2.
    eapply sameSizes_trans; [exact (Hbody w g w1 g1 E1) | exact (IH w1 g2 w2 g3 E2)].
Qed.

End Shapes.

Section Reassignment.

Context `{Three}.

(** What [generateShape] returns: the state it was given, with the shape
    name recorded and the two arrays replaced by arrays of the same
    lengths. *)
Lemma generateShape_result fuel type st g st' g' :
  generateShape fuel type st g = Some (st', g') ->
  exists w,
    sameSizes (mkGen (aTargetPos (attributes st)) (aColor (attributes st)) 0 0) w
    /\ st' =
       mkParticleSystem (particleCount st)
         (if includes allowedShapes type then type else "heart") (color st)
         (mkAttributes (positions w) (aRandom (attributes st))
            (aImgOffset (attributes st)) (colors w) (aID (attributes st))
            (aIsPhoto (attributes st)) (aSize (attributes st)))
         (uniforms st) (snowTime st) (handPos st) (handRotation st)
         (smoothedHandPos st) (smoothedHandRot st) (smoothedHandScale st)
         (isClosed st) (photoCount st) (atlasCols st) (atlasRows st)
         (popupState st) (popupMesh st) (cameraQuaternion st).
Proof.
  unfold generateShape. cbv zeta. rewrite bind_run.
  cbn [particleCount attributes color].
  match goal with |- context [match ?m g with _ => _ end] => destruct (m g) as [[w g1]|] eqn:E end;
    [|discriminate].
  rewrite ret_run. intros Heq. injection Heq as <- <-.
  exists w. split; [|reflexivity].
  revert E.
  repeat match goal with |- context [if ?b then _ else _] => destruct b end;
    intros E.
  all: try (eapply forParticles_sizes; [|exact E]; intros w0;
            first [ apply heartParticle_sizes | apply flowerParticle_sizes
                  | apply planetParticle_sizes | apply starParticle_sizes
                  | apply treeParticle_sizes ]).
  all: try (rewrite ret_run in E; injection E as <- _; apply sameSizes_refl).
Qed.

(** C5.  Whatever the shape id, a [generateShape] that returns leaves the
    particle count and every particle's random seed and photo flag as
    they were; it rewrites the target-position and colour arrays only,
    whose lengths do not change and so remain three times the particle
    count. *)
Theorem shape_reassignment_frame fuel type st g st' g' :
  generateShape fuel type st g = Some (st', g') ->
  particleCount st' = particleCount st
  /\ aRandom (attributes st') = aRandom (attributes st)
  /\ aIsPhoto (attributes st') = aIsPhoto (attributes st)
  /\ aID (attributes st') = aID (attributes st)
  /\ aImgOffset (attributes st') = aImgOffset (attributes st)
  /\ aSize (attributes st') = aSize (attributes st)
  /\ length (aTargetPos (attributes st')) = length (aTargetPos (attributes st))
  /\ length (aColor (attributes st')) = length (aColor (attributes st))
  /\ (length (aTargetPos (attributes st)) = (particleCount st * 3)%nat ->
      length (aTargetPos (attributes st')) = (particleCount st' * 3)%nat)
  /\ (length (aColor (attributes st)) = (particleCount st * 3)%nat ->
      length (aColor (attributes st')) = (particleCount st' * 3)%nat)
  /\ uniforms st' = uniforms st
  /\ popupState st' = popupState st
  /\ popupMesh st' = popupMesh st
  /\ color st' = color st
  /\ isClosed st' = isClosed st
  /\ (handPos st', handRotation st') = (handPos st, handRotation st)
  /\ (smoothedHandPos st', smoothedHandRot st', smoothedHandScale st')
     = (smoothedHandPos st, smoothedHandRot st, smoothedHandScale st)
  /\ (photoCount st', atlasCols st', atlasRows st')
     = (photoCount st, atlasCols st, atlasRows st)
  /\ (snowTime st', cameraQuaternion st') = (snowTime st, cameraQuaternion st).
Proof.
  intros Hrun.
  destruct (generateShape_result _ _ _ _ _ _ Hrun) as (w & [Hp Hc] & ->).
  cbn in Hp, Hc |- *.
  repeat split; try reflexivity; try assumption; congruence.
Qed.

End Reassignment.

(** ** The rejection loop of the heart *)

Lemma advance_advance g m n : advance (advance g m) n = advance g (m + n).
Proof. unfold advance. cbn. rewrite Nat.add_assoc. reflexivity. Qed.

Lemma heartDraw_advance g k : heartDraw (advance g 3) k = heartDraw g (S k).
Proof.
  unfold heartDraw, advance. cbn [draws cursor].
  replace (cursor g + 3 + 3 * k)%nat with (cursor g + 3 * S k)%nat by lia.
  reflexivity.
Qed.

(** One round of the loop. *)
Lemma sampleHeart_round fuel g :
  sampleHeart (S fuel) g
  = if insideHeart (heartDraw g 0) then Some (heartDraw g 0, advance g 3)
    else sampleHeart fuel (advance g 3).
Proof.
  cbn [sampleHeart]. rewrite !bind_run. cbn [random]. rewrite !bind_run.
  cbn [random draws cursor]. rewrite !bind_run. cbn [random draws cursor].
  unfold heartDraw, advance.
  replace (cursor g + 3 * 0)%nat with (cursor g) by lia.
  replace (cursor g + 1)%nat with (S (cursor g)) by lia.
  replace (cursor g + 2)%nat with (S (S (cursor g))) by lia.
  replace (cursor g + 3)%nat with (S (S (S (cursor g)))) by lia.
  destruct (insideHeart _); reflexivity.
Qed.

(** The loop returns the first accepted candidate, given enough rounds. *)
Lemma sampleHeart_accepts fuel g k :
  firstAccepted g k -> (k < fuel)%nat ->
  sampleHeart fuel g = Some (heartDraw g k, advance g (3 * S k)).
Proof.
  revert g k. induction fuel as [|fuel IH]; intros g k [Hacc Hrej] Hk; [lia|].
  rewrite sampleHeart_round. destruct k as [|k].
  - rewrite Hacc. reflexivity.
  - rewrite (Hrej 0%nat) by lia.
    rewrite (IH _ k).
    + rewrite heartDraw_advance, advance_advance. do 3 f_equal. lia.
    + split.
      * rewrite heartDraw_advance. assumption.
      * intros j Hj. rewrite heartDraw_advance. apply Hrej. lia.
    + lia.
Qed.

(** The loop does not leave while every candidate is rejected. *)
Lemma sampleHeart_rejects fuel g :
  (forall j, (j < fuel)%nat -> insideHeart (heartDraw g j) = false) ->
  sampleHeart fuel g = None.
Proof.
  revert g. induction fuel as [|fuel IH]; intros g Hrej; [reflexivity|].
  rewrite sampleHeart_round, (Hrej 0%nat) by lia.
  apply IH. intros j Hj. rewrite heartDraw_advance. apply Hrej. lia.
Qed.



Lemma heart_rejects_corner : insideHeart (heartCandidate 0 0 0) = false.
Proof. apply ltb_false. cbn. lra. Qed.

Lemma heart_accepts_centre : insideHeart (heartCandidate (1 / 2) (1 / 2) (1 / 2)) = true.
Proof. apply ltb_true. cbn. lra. Qed.

Lemma heartDraw_constant a c k :
  heartDraw (mkRng (fun _ => a) c) k = heartCandidate a a a.
Proof. reflexivity. Qed.

(** The bound on the rounds is in the draws, not in the code: on the
    stream whose draws are all 0, which uniform draws give with
    probability 0, every candidate is the corner (-1.5, -1.5, -1.5),
    outside the heart, and the loop does not return. *)
Lemma heart_loop_on_zeros :
  (forall k, insideHeart (heartDraw (constantDraws 0) k) = false)
  /\ (forall fuel, sampleHeart fuel (constantDraws 0) = None).
Proof.
  assert (Hrej : forall c k, insideHeart (heartDraw (mkRng (fun _ => 0) c) k) = false).
  { intros c k. rewrite heartDraw_constant. exact heart_rejects_corner. }
  split; [intros k; apply Hrej|].
  intros fuel. apply sampleHeart_rejects. intros j _. apply Hrej.
Qed.

(** ** The arrays are filled *)

Lemma agreeBelow_insert k v l1 l2 :
  agreeBelow k l1 l2 -> agreeBelow (S k) (<[k:=v]> l1) (<[k:=v]> l2).
Proof.
  intros [Hlen Hlook]. split; [rewrite !length_insert; assumption|].
  intros i Hi. destruct (Nat.eq_dec i k) as [->|Hne].
  - destruct (Nat.lt_ge_cases k (length l1)) as [Hlt|Hge].
    + rewrite !list_lookup_insert_eq by lia. reflexivity.
    + rewrite !list_insert_ge by lia.
      rewrite !(proj2 (lookup_ge_None _ _)) by lia. reflexivity.
  - rewrite !list_lookup_insert_ne by lia. apply Hlook. lia.
Qed.

Lemma agreeBelow_eq k l1 l2 :
  agreeBelow k l1 l2 -> (length l1 <= k)%nat -> l1 = l2.
Proof.
  intros [Hlen Hlook] Hk. apply list_eq. intros i.
  destruct (Nat.lt_ge_cases i k) as [Hlt|Hge]; [apply Hlook; assumption|].
  rewrite !(proj2 (lookup_ge_None _ _)) by lia. reflexivity.
Qed.

Lemma setRGB_agree r g b w1 w2 :
  genAgree w1 w2 -> genAgree (setRGB r g b w1) (setRGB r g b w2).
Proof.
  intros (Hi & Hc & Hp & Hcol). unfold setRGB, genAgree. cbn.
  rewrite <- Hc. split; [assumption|]. split; [reflexivity|]. split; [assumption|].
  apply agreeBelow_insert, agreeBelow_insert, agreeBelow_insert. assumption.
Qed.

Lemma setPos_agree a b c w1 w2 :
  genAgree w1 w2 -> genAgree (setPos a b c w1) (setPos a b c w2).
Proof.
  intros (Hi & Hc & Hp & Hcol). unfold setPos, genAgree. cbn.
  rewrite <- Hi. split; [reflexivity|]. split; [assumption|]. split; [|assumption].
  apply agreeBelow_insert, agreeBelow_insert, agreeBelow_insert. assumption.
Qed.

Section Filled.

Context `{Three}.

Lemma heartParticle_run fuel col w g :
  heartParticle fuel col w g
  = match sampleHeart fuel g with
    | Some (p, g') =>
        Some (setPos (v_x p * 10) (v_y p * 10) (v_z p * 10) (setHex col w), g')
    | None => None
    end.
Proof. reflexivity. Qed.

(** From two write states that agree so far, the heart loop over [n]
    particles makes the same draws and the same writes, three entries
    per particle and array. *)
Lemma forParticles_heart_agree fuel col n w1 w2 g w1' g' :
  genAgree w1 w2 ->
  forParticles n (heartParticle fuel col) w1 g = Some (w1', g') ->
  exists w2',
    forParticles n (heartParticle fuel col) w2 g = Some (w2', g')
    /\ genAgree w1' w2'
    /\ idx w1' = (idx w1 + 3 * n)%nat
    /\ cIdx w1' = (cIdx w1 + 3 * n)%nat.
Proof.
  revert w1 w2 g. induction n as [|n IH]; intros w1 w2 g Hagree Hrun.
  - cbn [forParticles] in *. rewrite ret_run in *. injection Hrun as <- <-.
    exists w2. split; [reflexivity|]. split; [exact Hagree|]. split; lia.
  - cbn [forParticles] in *. rewrite bind_run in *.
    rewrite heartParticle_run in *.
    destruct (sampleHeart fuel g) as [[p g1]|]; [|discriminate].
    destruct (IH _ (setPos (v_x p * 10) (v_y p * 10) (v_z p * 10) (setHex col w2))
                _ (setPos_agree _ _ _ _ _ (setRGB_agree _ _ _ _ _ Hagree)) Hrun)
      as (w2' & Hrun2 & Hagree' & Hidx & Hcidx).
    exists w2'. split; [exact Hrun2|]. split; [exact Hagree'|].
    cbn in Hidx, Hcidx. lia.
Qed.

(** C6.  A shape id outside the known set is treated as 'heart': the
    call is the call with 'heart', and when it returns, the current shape
    is 'heart' and all entries of the target-position and colour arrays
    have been assigned, so that nothing of their previous contents is
    left. *)
Theorem unknown_shape_falls_back fuel type st g :
  includes allowedShapes type = false ->
  generateShape fuel type st g = generateShape fuel "heart" st g
  /\ forall st' g', generateShape fuel type st g = Some (st', g') ->
       currentShape st' = "heart"
       /\ length (aTargetPos (attributes st')) = length (aTargetPos (attributes st))
       /\ length (aColor (attributes st')) = length (aColor (attributes st))
       /\ forall st2,
            particleCount st2 = particleCount st -> color st2 = color st ->
            length (aTargetPos (attributes st)) = (particleCount st * 3)%nat ->
            length (aColor (attributes st)) = (particleCount st * 3)%nat ->
            length (aTargetPos (attributes st2)) = (particleCount st * 3)%nat ->
            length (aColor (attributes st2)) = (particleCount st * 3)%nat ->
            exists st2',
              generateShape fuel type st2 g = Some (st2', g')
              /\ aTargetPos (attributes st2') = aTargetPos (attributes st')
              /\ aColor (attributes st2') = aColor (attributes st').
Proof.
  intros Hunknown.
  assert (Hfall : forall s, generateShape fuel type s g = generateShape fuel "heart" s g).
  { intros s. unfold generateShape. rewrite Hunknown. reflexivity. }
  split; [apply Hfall|].
  intros st' g' Hrun.
  destruct (generateShape_result _ _ _ _ _ _ Hrun) as (w & [Hp Hc] & Hst').
  rewrite Hunknown in Hst'.
  split; [rewrite Hst'; reflexivity|].
  split; [rewrite Hst'; exact Hp|].
  split; [rewrite Hst'; exact Hc|].
  intros st2 Hcount Hcolor Hlp Hlc Hlp2 Hlc2.
  rewrite Hfall in Hrun. rewrite Hfall.
  unfold generateShape in Hrun |- *. cbv zeta in Hrun |- *.
  rewrite bind_run in Hrun |- *.
  cbn [includes allowedShapes existsb String.eqb Ascii.eqb Bool.eqb orb
       particleCount attributes color] in Hrun |- *.
  rewrite Hcount, Hcolor.
  destruct (forParticles (particleCount st) (heartParticle fuel (color st))
              (mkGen (aTargetPos (attributes st)) (aColor (attributes st)) 0 0) g)
    as [[w1 g1]|] eqn:E1; [|discriminate].
  rewrite ret_run in Hrun. injection Hrun as <- <-.
  destruct (forParticles_heart_agree fuel (color st) (particleCount st)
              (mkGen (aTargetPos (attributes st)) (aColor (attributes st)) 0 0)
              (mkGen (aTargetPos (attributes st2)) (aColor (attributes st2)) 0 0)
              g w1 g1) as (w2 & E2 & (_ & _ & Hap & Hac) & Hidx & Hcidx).
  { split; [reflexivity|]. split; [reflexivity|].
    split; (split; [cbn; congruence | intros i Hi; cbn in Hi; lia]). }
  { exact E1. }
  rewrite E2, ret_run. eexists. split; [reflexivity|]. cbn.
  pose proof (forParticles_sizes _ _ _ (heartParticle_sizes fuel (color st)) g w1 g1 E1)
    as [Hs1 Hs2].
  cbn in Hs1, Hs2, Hidx, Hcidx.
  split; symmetry.
  - apply (agreeBelow_eq _ _ _ Hap). lia.
  - apply (agreeBelow_eq _ _ _ Hac). lia.
Qed.

(** *** When [generateShape] returns *)

Lemma forParticles_heart_returns fuel col n w g :
  (forall c, exists k, (k < fuel)%nat /\ firstAccepted (mkRng (draws g) c) k) ->
  exists w' c', forParticles n (heartParticle fuel col) w g
                = Some (w', mkRng (draws g) c').
Proof.
  intros Hacc. destruct g as [d c]. cbn [draws] in *.
  revert w c. induction n as [|n IH]; intros w c.
  - exists w, c. reflexivity.
  - cbn [forParticles]. rewrite bind_run, heartParticle_run.
    destruct (Hacc c) as (k & Hk & Hfirst).
    rewrite (sampleHeart_accepts fuel _ k Hfirst Hk). unfold advance. cbn [draws cursor].
    apply IH.
Qed.

Lemma generateShape_heart_returns fuel st g :
  (forall c, exists k, (k < fuel)%nat /\ firstAccepted (mkRng (draws g) c) k) ->
  exists st' g', generateShape fuel "heart" st g = Some (st', g').
Proof.
  intros Hacc. unfold generateShape. cbv zeta. rewrite bind_run.
  cbn [includes allowedShapes existsb String.eqb Ascii.eqb Bool.eqb orb
       particleCount attributes color].
  destruct (forParticles_heart_returns fuel (color st) (particleCount st)
              (mkGen (aTargetPos (attributes st)) (aColor (attributes st)) 0 0) g Hacc)
    as (w' & c' & ->).
  rewrite ret_run. eauto.
Qed.

End Filled.

Example buddha_is_unknown : includes allowedShapes "buddha" = false.
Proof. reflexivity. Qed.

(** The shape 'flower' has a branch in [generateShape] but is not in
    [allowedShapes]: it is replaced by 'heart' like any unknown id. *)
Example flower_is_unknown : includes allowedShapes "flower" = false.
Proof. reflexivity. Qed.

Lemma centre_always_accepted c :
  exists k, (k < 1)%nat /\ firstAccepted (mkRng (draws (constantDraws (1 / 2))) c) k.
Proof.
  exists 0%nat. split; [lia|]. split; [|intros j Hj; lia].
  cbn [constantDraws draws]. rewrite heartDraw_constant. exact heart_accepts_centre.
Qed.

Lemma shape_reassignment_frame_witness :
  exists st' g',
    generateShape 1 "heart" twoParticles (constantDraws (1 / 2)) = Some (st', g')
    /\ particleCount st' = particleCount twoParticles
    /\ aRandom (attributes st') = aRandom (attributes twoParticles)
    /\ aIsPhoto (attributes st') = aIsPhoto (attributes twoParticles)
    /\ length (aTargetPos (attributes st')) = 6%nat
    /\ length (aColor (attributes st')) = 6%nat.
Proof.
  destruct (generateShape_heart_returns 1 twoParticles (constantDraws (1 / 2))
              centre_always_accepted) as (st' & g' & Hrun).
  exists st', g'. split; [exact Hrun|].
  destruct (shape_reassignment_frame 1 "heart" twoParticles (constantDraws (1 / 2))
              st' g' Hrun)
    as (H1 & H2 & H3 & _ & _ & _ & H7 & H8 & _).
  repeat split; assumption.
Defined.

Lemma unknown_shape_falls_back_witness :
  includes allowedShapes "buddha" = false
  /\ generateShape 1 "buddha" twoParticles (constantDraws (1 / 2))
     = generateShape 1 "heart" twoParticles (constantDraws (1 / 2))
  /\ exists st' g',
       generateShape 1 "buddha" twoParticles (constantDraws (1 / 2)) = Some (st', g')
       /\ currentShape st' = "heart".
Proof.
  destruct (unknown_shape_falls_back 1 "buddha" twoParticles (constantDraws (1 / 2))
              eq_refl) as [Hfall Hres].
  split; [reflexivity|]. split; [exact Hfall|].
  destruct (generateShape_heart_returns 1 twoParticles (constantDraws (1 / 2))
              centre_always_accepted) as (st' & g' & Hrun).
  rewrite <- Hfall in Hrun.
  exists st', g'. split; [exact Hrun|]. exact (proj1 (Hres st' g' Hrun)).
Defined.

(** *** The shapes without a rejection loop always return *)

Lemma returns_ret {A} (a : A) (P : A -> Prop) : P a -> returns (mret a : M A) P.
Proof. intros Ha g _. exists a, g. auto. Qed.

Lemma returns_bind {A B} (m : M A) (k : A -> M B) (P : A -> Prop) (Q : B -> Prop) :
  returns m P -> (forall a, P a -> returns (k a) Q) -> returns (m ≫= k) Q.
Proof.
  intros Hm Hk g Hg.
  destruct (Hm g Hg) as (a & g1 & E1 & Hd1 & Ha).
  assert (Hg1 : unitDraws g1) by (intros n; rewrite Hd1; apply Hg).
  destruct (Hk a Ha g1 Hg1) as (b & g2 & E2 & Hd2 & Hb).
  exists b, g2. rewrite bind_run, E1. split; [exact E2|]. split; [congruence | exact Hb].
Qed.

Lemma returns_random : returns random (fun a => 0 <= a < 1).
Proof. intros g Hg. eexists _, _. split; [reflexivity|]. split; [reflexivity | apply Hg]. Qed.

(** [moonOffsets[Math.floor(a * 4)]] is one of the four moons. *)
Lemma moon_index a :
  0 <= a < 1 ->
  exists m, (if (Math.floor (a * 4) <? 0)%Z then None
             else moonOffsets !! Z.to_nat (Math.floor (a * 4))) = Some m.
Proof.
  intros Ha. unfold Math.floor.
  pose proof (Zfloor_bound (a * 4)) as [Hlo Hhi].
  assert (H0 : (0 <= Zfloor (a * 4))%Z).
  { apply Zfloor_lub. simpl. lra. }
  assert (H4 : (Zfloor (a * 4) < 4)%Z).
  { apply lt_IZR. lra. }
  destruct (Z.ltb_spec (Zfloor (a * 4)) 0); [lia|].
  apply lookup_lt_is_Some. cbn [moonOffsets length]. lia.
Qed.

(** Steps through a particle body that cannot fail. *)
Ltac step_returns :=
  repeat first
    [ apply returns_ret; exact I
    | eapply returns_bind; [apply returns_random | intros ? ?]
    | match goal with
      | |- returns (if ?b then _ else _) _ => destruct b
      | |- returns (let '(_, _) := ?p in _) _ => destruct p
      | |- returns (match ?p with (_, _) => _ end) _ => destruct p
      end ].

Section Returns.

Context `{Three}.

Lemma randomInSphere_returns : returns randomInSphere (fun _ => True).
Proof. unfold randomInSphere. step_returns. Qed.

Lemma starParticle_returns col w : returns (starParticle col w) (fun _ => True).
Proof.
  unfold starParticle.
  eapply returns_bind; [apply randomInSphere_returns | intros ? ?]. step_returns.
Qed.

Lemma planetParticle_returns w : returns (planetParticle w) (fun _ => True).
Proof.
  unfold planetParticle.
  eapply returns_bind; [apply returns_random | intros r Hr].
  destruct (ltb r 0.55).
  { eapply returns_bind; [apply randomInSphere_returns | intros ? ?]. step_returns. }
  destruct (ltb r 0.78); [step_returns|].
  destruct (ltb r 0.92); [step_returns|].
  eapply returns_bind; [apply returns_random | intros a Ha].
  destruct (moon_index a Ha) as (m & ->); destruct m as [m_r m_a].
  eapply returns_bind; [apply randomInSphere_returns | intros ? ?]. step_returns.
Qed.

Lemma treeParticle_returns w : returns (treeParticle w) (fun _ => True).
Proof.
  unfold treeParticle.
  eapply returns_bind; [apply returns_random | intros t Ht].
  destruct (ltb t 0.08); [step_returns|].
  destruct (ltb 0.94 t).
  { eapply returns_bind; [apply randomInSphere_returns | intros ? ?]. step_returns. }
  eapply returns_bind; [apply returns_random | intros a Ha].
  eapply returns_bind; [apply returns_random | intros b Hb].
  eapply returns_bind; [apply returns_random | intros c Hc].
  destruct (ltb c 0.12); [step_returns|].
  eapply returns_bind; [apply returns_random | intros d Hd].
  eapply returns_bind with (P := fun _ => True); [|intros; step_returns].
  step_returns.
Qed.

Lemma forParticles_returns n body w :
  (forall w0, returns (body w0) (fun _ => True)) ->
  returns (forParticles n body w) (fun _ => True).
Proof.
  intros Hbody. revert w. induction n as [|n IH]; intros w; cbn [forParticles].
  - apply returns_ret. exact I.
  - eapply returns_bind; [apply Hbody | intros w' _; apply IH].
Qed.

(** For draws in [0, 1), [generateShape] returns for the planet, the star
    and the tree. *)
Lemma generateShape_returns fuel type st g :
  unitDraws g ->
  type = "planet" \/ type = "star" \/ type = "tree" ->
  exists st' g', generateShape fuel type st g = Some (st', g').
Proof.
  intros Hg Htype.
  assert (Hloop : exists w g',
            (if String.eqb type "heart"
             then forParticles (particleCount st) (heartParticle fuel (color st))
                    (mkGen (aTargetPos (attributes st)) (aColor (attributes st)) 0 0)
             else if String.eqb type "flower"
             then forParticles (particleCount st) (flowerParticle (color st))
                    (mkGen (aTargetPos (attributes st)) (aColor (attributes st)) 0 0)
             else if String.eqb type "planet"
             then forParticles (particleCount st) planetParticle
                    (mkGen (aTargetPos (attributes st)) (aColor (attributes st)) 0 0)
             else if String.eqb type "star"
             then forParticles (particleCount st) (starParticle (color st))
                    (mkGen (aTargetPos (attributes st)) (aColor (attributes st)) 0 0)
             else if String.eqb type "tree"
             then forParticles (particleCount st) treeParticle
                    (mkGen (aTargetPos (attributes st)) (aColor (attributes st)) 0 0)
             else mret (mkGen (aTargetPos (attributes st)) (aColor (attributes st)) 0 0))
              g = Some (w, g')).
  { destruct Htype as [-> | [-> | ->]]; cbn [String.eqb Ascii.eqb Bool.eqb].
    - destruct (forParticles_returns (particleCount st) planetParticle
                  (mkGen (aTargetPos (attributes st)) (aColor (attributes st)) 0 0)
                  planetParticle_returns g Hg) as (w & g' & E & _); eauto.
    - destruct (forParticles_returns (particleCount st) (starParticle (color st))
                  (mkGen (aTargetPos (attributes st)) (aColor (attributes st)) 0 0)
                  (starParticle_returns (color st)) g Hg) as (w & g' & E & _); eauto.
    - destruct (forParticles_returns (particleCount st) treeParticle
                  (mkGen (aTargetPos (attributes st)) (aColor (attributes st)) 0 0)
                  treeParticle_returns g Hg) as (w & g' & E & _); eauto. }
  destruct Hloop as (w & g' & E).
  unfold generateShape. cbv zeta. rewrite bind_run.
  replace (includes allowedShapes type) with true
    by (destruct Htype as [-> | [-> | ->]]; reflexivity).
  cbn [particleCount attributes color]. rewrite E, ret_run. eauto.
Qed.

End Returns.

(** ** The gesture classifier *)

Lemma scaleFrame_lookup k (lm : list Landmark) i :
  scaleFrame k lm !! i = scaleLandmark k <$> lm !! i.
Proof. unfold scaleFrame. rewrite list_lookup_fmap. reflexivity. Qed.

Lemma wristDistance_scale k w p :
  wristDistance (scaleLandmark k w) (scaleLandmark k p) = Rabs k * wristDistance w p.
Proof.
  unfold wristDistance, scaleLandmark, Math.pow2. cbn [v_x v_y v_z].
  set (s := (v_x p - v_x w) * (v_x p - v_x w) + (v_y p - v_y w) * (v_y p - v_y w)
            + (v_z p - v_z w) * (v_z p - v_z w)).
  replace ((k * v_x p - k * v_x w) * (k * v_x p - k * v_x w)
           + (k * v_y p - k * v_y w) * (k * v_y p - k * v_y w)
           + (k * v_z p - k * v_z w) * (k * v_z p - k * v_z w))
    with (k * k * s) by (unfold s; ring).
  assert (Hs : 0 <= s).
  { pose proof (Rle_0_sqr (v_x p - v_x w)). pose proof (Rle_0_sqr (v_y p - v_y w)).
    pose proof (Rle_0_sqr (v_z p - v_z w)). unfold Rsqr in *. unfold s. lra. }
  rewrite sqrt_mult; [| apply Rle_0_sqr | assumption].
  fold (Rsqr k). rewrite sqrt_Rsqr_abs. reflexivity.
Qed.

Lemma fold_distance_scale k w ps acc :
  fold_left (fun avg p => avg + wristDistance (scaleLandmark k w) p)
    (map (scaleLandmark k) ps) (Rabs k * acc)
  = Rabs k * fold_left (fun avg p => avg + wristDistance w p) ps acc.
Proof.
  revert acc. induction ps as [|p ps IH]; intros acc; cbn [map fold_left]; [reflexivity|].
  rewrite wristDistance_scale, <- Rmult_plus_distr_l. apply IH.
Qed.

Lemma averageDistance_scale k w ps :
  averageDistance (scaleLandmark k w) (map (scaleLandmark k) ps)
  = Rabs k * averageDistance w ps.
Proof.
  unfold averageDistance.
  replace 0 with (Rabs k * 0) at 1 by ring.
  rewrite fold_distance_scale. unfold Rdiv. ring.
Qed.

(** The classification compares two lengths that scale together. *)
Lemma classify_scale k w tips mcps :
  k <> 0 ->
  classify (scaleLandmark k w) (map (scaleLandmark k) tips) (map (scaleLandmark k) mcps)
  = classify w tips mcps.
Proof.
  intros Hk. unfold classify. rewrite !averageDistance_scale.
  pose proof (Rabs_pos_lt k Hk) as Hpos.
  set (a := averageDistance w tips). set (b := averageDistance w mcps).
  destruct (ltb a (b * 1.3)) eqn:E.
  - apply ltb_true in E. apply ltb_true. nra.
  - apply ltb_false in E. apply ltb_false. nra.
Qed.

Section Classifier.

Context `{Three}.

(** On a frame that has the nine landmarks it reads, [updateHandState]
    returns, with the gesture of [classify]. *)
Lemma updateHandState_isClosed lm tr w t8 t12 t16 t20 m5 m9 m13 m17 :
  lm !! 0%nat = Some w ->
  lm !! 8%nat = Some t8 -> lm !! 12%nat = Some t12 ->
  lm !! 16%nat = Some t16 -> lm !! 20%nat = Some t20 ->
  lm !! 5%nat = Some m5 -> lm !! 9%nat = Some m9 ->
  lm !! 13%nat = Some m13 -> lm !! 17%nat = Some m17 ->
  exists tr',
    updateHandState lm tr = Some tr'
    /\ t_isClosed tr' = classify w [t8; t12; t16; t20] [m5; m9; m13; m17].
Proof.
  intros H0 H8 H12 H16 H20 H5 H9 H13 H17.
  unfold updateHandState, Landmark in *. cbn [mapM].
  rewrite H0, H8, H12, H16, H20, H5, H9, H13, H17. simpl.
  eexists. split; reflexivity.
Qed.

(** C7.  For every frame of 21 landmarks and every scaling factor, the
    frame with all coordinates multiplied by the factor is classified
    like the frame itself.  A factor that comes from moving the hand
    towards the camera or away from it is positive; the classification is
    the same for every factor other than zero. *)
Theorem gesture_scale_invariant k lm tr :
  k <> 0 ->
  length lm = 21%nat ->
  exists tr1 tr2,
    updateHandState lm tr = Some tr1
    /\ updateHandState (scaleFrame k lm) tr = Some tr2
    /\ t_isClosed tr2 = t_isClosed tr1.
Proof.
  intros Hk Hlen.
  assert (Hget : forall i, (i < 21)%nat -> exists p, lm !! i = Some p).
  { intros i Hi. apply lookup_lt_is_Some. lia. }
  destruct (Hget 0%nat ltac:(lia)) as (w & H0).
  destruct (Hget 8%nat ltac:(lia)) as (t8 & H8).
  destruct (Hget 12%nat ltac:(lia)) as (t12 & H12).
  destruct (Hget 16%nat ltac:(lia)) as (t16 & H16).
  destruct (Hget 20%nat ltac:(lia)) as (t20 & H20).
  destruct (Hget 5%nat ltac:(lia)) as (m5 & H5).
  destruct (Hget 9%nat ltac:(lia)) as (m9 & H9).
  destruct (Hget 13%nat ltac:(lia)) as (m13 & H13).
  destruct (Hget 17%nat ltac:(lia)) as (m17 & H17).
  destruct (updateHandState_isClosed lm tr _ _ _ _ _ _ _ _ _
              H0 H8 H12 H16 H20 H5 H9 H13 H17) as (tr1 & E1 & C1).
  assert (Hsc : forall i p, lm !! i = Some p ->
                  scaleFrame k lm !! i = Some (scaleLandmark k p)).
  { intros i p Hi. rewrite scaleFrame_lookup, Hi. reflexivity. }
  destruct (updateHandState_isClosed (scaleFrame k lm) tr _ _ _ _ _ _ _ _ _
              (Hsc _ _ H0) (Hsc _ _ H8) (Hsc _ _ H12) (Hsc _ _ H16) (Hsc _ _ H20)
              (Hsc _ _ H5) (Hsc _ _ H9) (Hsc _ _ H13) (Hsc _ _ H17))
    as (tr2 & E2 & C2).
  exists tr1, tr2. split; [exact E1|]. split; [exact E2|].
  rewrite C1, C2.
  exact (classify_scale k w [t8; t12; t16; t20] [m5; m9; m13; m17] Hk).
Qed.

End Classifier.

Lemma gesture_scale_invariant_witness :
  2 <> 0
  /\ length fistFrame = 21%nat
  /\ exists tr1 tr2,
       updateHandState fistFrame newTracker = Some tr1
       /\ updateHandState (scaleFrame 2 fistFrame) newTracker = Some tr2
       /\ t_isClosed tr2 = t_isClosed tr1.
Proof.
  assert (H2 : 2 <> 0) by lra.
  split; [exact H2|]. split; [reflexivity|].
  exact (gesture_scale_invariant 2 fistFrame newTracker H2 eq_refl).
Defined.

(** ** The smoothed orientation *)

Lemma smoothedHandRot_updatePopup dt st :
  smoothedHandRot (updatePopup dt st) = smoothedHandRot st.
Proof.
  unfold updatePopup.
  destruct (active (popupState st)); simpl; [|reflexivity].
  destruct (popupFactor _); reflexivity.
Qed.

Section Orientation.

Context `{UnitThree}.

(** The engine does not smooth towards the tracker's quaternion but
    towards one rebuilt from Euler angles, so that the smoothed
    orientation keeps norm 1 whatever the tracker hands over. *)
Lemma smoothedHandRot_unit_step dt hd st :
  unitQuat (smoothedHandRot st) -> unitQuat (smoothedHandRot (update dt hd st)).
Proof.
  intros Hu. unfold update. rewrite smoothedHandRot_updatePopup.
  destruct hd as [h|]; [|exact Hu].
  destruct (hd_rotation h) as [rot|]; destruct (truthy (hd_scale h)); cbn;
    try exact Hu; apply slerp_unit; try exact Hu; apply setFromEuler_unit.
Qed.

Lemma smoothedHandRot_unit frames st :
  unitQuat (smoothedHandRot st) -> unitQuat (smoothedHandRot (run frames st)).
Proof.
  revert st. induction frames as [|[dt hd] frames IH]; intros st Hu; simpl; [exact Hu|].
  apply IH, smoothedHandRot_unit_step, Hu.
Qed.

End Orientation.

Lemma ThreeJS_setFromEuler_unit e : unitQuat (ThreeJS.setFromEuler e).
Proof.
  unfold unitQuat, ThreeJS.setFromEuler. cbn [q_x q_y q_z q_w].
  pose proof (sin2_cos2 (e_x e / 2)) as H1.
  pose proof (sin2_cos2 (e_y e / 2)) as H2.
  pose proof (sin2_cos2 (e_z e / 2)) as H3.
  unfold Rsqr in *.
  set (s1 := sin (e_x e / 2)) in *. set (c1 := cos (e_x e / 2)) in *.
  set (s2 := sin (e_y e / 2)) in *. set (c2 := cos (e_y e / 2)) in *.
  set (s3 := sin (e_z e / 2)) in *. set (c3 := cos (e_z e / 2)) in *.
  transitivity ((s1 * s1 + c1 * c1) * (s2 * s2 + c2 * c2) * (s3 * s3 + c3 * c3));
    [ring | rewrite H1, H2, H3; ring].
Qed.

(** The half angle recovered by [slerp] has the cosine it was computed
    from. *)
Lemma atan2_half_angle c :
  0 <= c < 1 ->
  cos (Math.atan2 (sqrt (1 - c * c)) c) = c
  /\ sin (Math.atan2 (sqrt (1 - c * c)) c) = sqrt (1 - c * c).
Proof.
  intros Hc.
  assert (Hpos : 0 < 1 - c * c) by nra.
  pose proof (sqrt_lt_R0 _ Hpos) as Hs.
  pose proof (sqrt_sqrt (1 - c * c) ltac:(lra)) as Hss.
  set (s := sqrt (1 - c * c)) in *.
  unfold Math.atan2.
  destruct (Rlt_dec 0 c) as [Hc0|Hc0].
  - rewrite cos_atan, sin_atan.
    assert (Hroot : sqrt (1 + (s / c)²) = 1 / c).
    { apply sqrt_lem_1.
      - unfold Rsqr. apply Rplus_le_le_0_compat; [lra|]. apply Rle_0_sqr.
      - apply Rlt_le. apply Rdiv_lt_0_compat; lra.
      - unfold Rsqr.
        replace (1 + s / c * (s / c)) with ((c * c + s * s) / (c * c)) by (field; lra).
        rewrite Hss. field. lra. }
    rewrite Hroot. split; field; lra.
  - assert (c = 0) by lra. subst c.
    destruct (Rlt_dec 0 0); [lra|]. destruct (Rlt_dec 0 s); [|lra].
    rewrite cos_PI2, sin_PI2. split; [reflexivity|].
    unfold s. replace (1 - 0 * 0) with 1 by ring. rewrite sqrt_1. reflexivity.
Qed.

Lemma slerp_ratio_identity sa ca sb cb :
  sa * sa + ca * ca = 1 -> sb * sb + cb * cb = 1 ->
  sa * sa + sb * sb + 2 * sa * sb * (ca * cb - sa * sb)
  = 1 - (ca * cb - sa * sb) * (ca * cb - sa * sb).
Proof.
  intros Ha Hb.
  assert (E : sa * sa + sb * sb + 2 * sa * sb * (ca * cb - sa * sb)
              - (1 - (ca * cb - sa * sb) * (ca * cb - sa * sb))
              = (sa * sa + ca * ca - 1) * (cb * cb)
                + (sb * sb + cb * cb - 1) * (1 - sa * sa)) by ring.
  rewrite Ha, Hb in E. lra.
Qed.

Lemma ThreeJS_slerp_unit a b t :
  unitQuat a -> unitQuat b -> unitQuat (ThreeJS.slerp a b t).
Proof.
  intros Ha Hb. unfold ThreeJS.slerp.
  destruct (Req_dec_T t 0); [exact Ha|]. destruct (Req_dec_T t 1); [exact Hb|].
  set (c := q_w a * q_w b + q_x a * q_x b + q_y a * q_y b + q_z a * q_z b).
  set (b' := if Rlt_dec c 0 then Quat (- q_x b) (- q_y b) (- q_z b) (- q_w b) else b).
  assert (Hb' : unitQuat b').
  { unfold b'. destruct (Rlt_dec c 0); [|exact Hb].
    unfold unitQuat in *. cbn. rewrite <- Hb. ring. }
  assert (Hdot : q_x a * q_x b' + q_y a * q_y b' + q_z a * q_z b' + q_w a * q_w b'
                 = Rabs c).
  { unfold b'. destruct (Rlt_dec c 0).
    - rewrite Rabs_left by assumption. unfold c. cbn. ring.
    - rewrite Rabs_right by lra. unfold c. ring. }
  destruct (Rle_dec 1 (Rabs c)) as [|Hlt]; [exact Ha|].
  assert (Hc : 0 <= Rabs c < 1) by (split; [apply Rabs_pos | lra]).
  destruct (atan2_half_angle (Rabs c) Hc) as [Hcos Hsin].
  assert (Hpos : 0 < 1 - Rabs c * Rabs c) by nra.
  pose proof (sqrt_lt_R0 _ Hpos) as Hs.
  pose proof (sqrt_sqrt (1 - Rabs c * Rabs c) ltac:(lra)) as Hss.
  set (s := sqrt (1 - Rabs c * Rabs c)) in *.
  set (theta := Math.atan2 s (Rabs c)) in *.
  pose proof (sin2_cos2 ((1 - t) * theta)) as Hal.
  pose proof (sin2_cos2 (t * theta)) as Hbe.
  unfold Rsqr in Hal, Hbe.
  assert (Hsum : cos theta
                 = cos ((1 - t) * theta) * cos (t * theta)
                   - sin ((1 - t) * theta) * sin (t * theta)).
  { rewrite <- cos_plus. f_equal. ring. }
  pose proof (slerp_ratio_identity _ _ _ _ Hal Hbe) as Hid.
  rewrite <- Hsum, Hcos in Hid.
  set (sa := sin ((1 - t) * theta)) in *. set (sb := sin (t * theta)) in *.
  unfold unitQuat in *. cbn [q_x q_y q_z q_w].
  transitivity
    ((sa / s) * (sa / s)
       * (q_x a * q_x a + q_y a * q_y a + q_z a * q_z a + q_w a * q_w a)
     + (sb / s) * (sb / s)
       * (q_x b' * q_x b' + q_y b' * q_y b' + q_z b' * q_z b' + q_w b' * q_w b')
     + 2 * (sa / s) * (sb / s)
       * (q_x a * q_x b' + q_y a * q_y b' + q_z a * q_z b' + q_w a * q_w b'));
    [ring|].
  rewrite Ha, Hb', Hdot.
  transitivity ((sa * sa + sb * sb + 2 * sa * sb * Rabs c) / (s * s)); [field; lra|].
  rewrite Hid, Hss. field. lra.
Qed.

#[global] Instance three_unit : UnitThree := {
  setFromEuler_unit := ThreeJS_setFromEuler_unit;
  slerp_unit := ThreeJS_slerp_unit
}.

(** *** A frame of coincident landmarks *)

Lemma normalize_zero : Vec.normalize Vec.zero = Vec.zero.
Proof.
  unfold Vec.normalize, Vec.length, Vec.zero, Vec.multiplyScalar. cbn [v_x v_y v_z].
  f_equal; ring.
Qed.

Lemma cross_zero : Vec.crossVectors Vec.zero Vec.zero = Vec.zero.
Proof. unfold Vec.crossVectors, Vec.zero. cbn [v_x v_y v_z]. f_equal; ring. Qed.

Section Coincident.

Context `{Three}.

#[local] Arguments Vec.crossVectors : simpl never.
#[local] Arguments Vec.normalize : simpl never.

(** The three axes of a frame whose landmarks all coincide are zero
    vectors, which are no NaN: the orientation update is not skipped but
    made from the zero basis. *)
Lemma coincident_frame_rotation p tr :
  exists tr',
    updateHandState (replicate 21 p) tr = Some tr'
    /\ rotation tr' = quat_setFromBasis Vec.zero Vec.zero Vec.zero.
Proof.
  unfold updateHandState, Landmark. cbn [mapM replicate lookup list_lookup].
  simpl.
  replace (V3 (- (v_x p - v_x p)) (- (v_y p - v_y p)) (v_z p - v_z p)) with Vec.zero
    by (unfold Vec.zero; f_equal; ring).
  rewrite !cross_zero, !normalize_zero, !cross_zero, !normalize_zero.
  eexists. split; reflexivity.
Qed.

End Coincident.

(** With the formulas of three.js the quaternion of the zero basis is
    (0, 0, 0.5, 0), which has norm 0.5. *)
Example zero_basis_quaternion :
  ThreeJS.setFromBasis Vec.zero Vec.zero Vec.zero = Quat 0 0 0.5 0
  /\ ~ unitQuat (Quat 0 0 0.5 0).
Proof.
  split.
  - unfold ThreeJS.setFromBasis, Vec.zero. cbn [v_x v_y v_z].
    destruct (Rlt_dec 0 (0 + 0 + 0)); [lra|].
    replace (ltb 0 0) with false by (symmetry; apply ltb_false; lra).
    cbn [andb]. destruct (Rlt_dec 0 0); [lra|].
    replace (1.0 + 0 - 0 - 0) with 1 by lra. rewrite sqrt_1.
    f_equal; lra.
  - unfold unitQuat. cbn [q_x q_y q_z q_w]. lra.
Qed.

(** ** The heart loop under uniform draws *)

























(** *** The loop reads the draws from its cursor on *)

Lemma sameFuture_advance g g2 n :
  sameFuture g g2 -> sameFuture (advance g n) (advance g2 n).
Proof.
  intros Hs i. unfold advance. cbn [draws cursor].
  rewrite <- !Nat.add_assoc. apply Hs.
Qed.

Lemma heartDraw_future g g2 k : sameFuture g g2 -> heartDraw g k = heartDraw g2 k.
Proof.
  intros Hs. unfold heartDraw.
  rewrite <- !Nat.add_assoc. rewrite !Hs. reflexivity.
Qed.

Lemma sampleHeart_future n g g2 :
  sameFuture g g2 ->
  match sampleHeart n g, sampleHeart n g2 with
  | Some (p, g'), Some (p2, g2') => p = p2 /\ sameFuture g' g2'
  | None, None => True
  | _, _ => False
  end.
Proof.
  revert g g2. induction n as [|n IH]; intros g g2 Hs; [exact I|].
  rewrite !sampleHeart_round, (heartDraw_future g g2 0 Hs).
  destruct (insideHeart (heartDraw g2 0)).
  - split; [reflexivity | apply sameFuture_advance; exact Hs].
  - apply IH. apply sameFuture_advance. exact Hs.
Qed.




Section UniformHearts.

Context `{Three}.

Lemma forParticles_fails_future n col N :
  forall w w2 g g2, sameFuture g g2 ->
    fails (forParticles N (heartParticle n col) w) g
    = fails (forParticles N (heartParticle n col) w2) g2.
Proof.
  induction N as [|N IH]; intros w w2 g g2 Hs; [reflexivity|].
  unfold fails. cbn [forParticles]. rewrite !bind_run, !heartParticle_run.
  pose proof (sampleHeart_future n g g2 Hs) as Hf.
  destruct (sampleHeart n g) as [[p g']|];
    destruct (sampleHeart n g2) as [[p2 g2']|]; try tauto.
  destruct Hf as [-> Hs']. apply IH. exact Hs'.
Qed.

Lemma heartsFrom_fails_future n' n col N w w2 g g2 :
  sameFuture g g2 ->
  fails (heartsFrom n' n col N w) g = fails (heartsFrom n' n col N w2) g2.
Proof.
  intros Hs. unfold fails, heartsFrom. rewrite !bind_run, !heartParticle_run.
  pose proof (sampleHeart_future n' g g2 Hs) as Hf.
  destruct (sampleHeart n' g) as [[p g']|];
    destruct (sampleHeart n' g2) as [[p2 g2']|]; try tauto.
  destruct Hf as [-> Hs']. apply forParticles_fails_future. exact Hs'.
Qed.






End UniformHearts.


(** ** The orientation on degenerate frames and on frames with NaN *)










Section Degenerate.

Context `{Three}.


End Degenerate.


Section Frames.

Context `{Three}.

(** A frame on which [updateHandState] throws is short of landmarks. *)
Lemma updateHandState_short lm tr :
  updateHandState lm tr = None -> (length lm < 21)%nat.
Proof.
  intros Hnone. destruct (Nat.lt_ge_cases (length lm) 21) as [Hlt|Hge]; [exact Hlt|].
  exfalso.
  assert (Hget : forall i, (i < 21)%nat -> exists p, lm !! i = Some p).
  { intros i Hi. apply lookup_lt_is_Some. lia. }
  destruct (Hget 0%nat ltac:(lia)) as (w & H0).
  destruct (Hget 8%nat ltac:(lia)) as (t8 & H8).
  destruct (Hget 12%nat ltac:(lia)) as (t12 & H12).
  destruct (Hget 16%nat ltac:(lia)) as (t16 & H16).
  destruct (Hget 20%nat ltac:(lia)) as (t20 & H20).
  destruct (Hget 5%nat ltac:(lia)) as (m5 & H5).
  destruct (Hget 9%nat ltac:(lia)) as (m9 & H9).
  destruct (Hget 13%nat ltac:(lia)) as (m13 & H13).
  destruct (Hget 17%nat ltac:(lia)) as (m17 & H17).
  destruct (updateHandState_isClosed lm tr _ _ _ _ _ _ _ _ _
              H0 H8 H12 H16 H20 H5 H9 H13 H17) as (tr1 & E1 & _).
  congruence.
Qed.

End Frames.

Section OrientationSafety.

Context `{UnitThree}.


End OrientationSafety.



(** * Further properties *)

(** ** The frame tick *)

(** [updatePopup] touches the popup, its mesh and [uClickedID] only. *)
Ltac through_updatePopup :=
  unfold updatePopup;
  match goal with
  | |- context [active (popupState ?st)] =>
      destruct (active (popupState st)); cbn [negb]; [|reflexivity];
      cbv zeta; destruct (popupFactor _); reflexivity
  end.

Lemma pose_updatePopup dt st : pose (updatePopup dt st) = pose st.
Proof. through_updatePopup. Qed.

Lemma uTime_updatePopup dt st :
  uTime (uniforms (updatePopup dt st)) = uTime (uniforms st).
Proof. through_updatePopup. Qed.

Lemma attributes_updatePopup dt st : attributes (updatePopup dt st) = attributes st.
Proof. through_updatePopup. Qed.

Lemma smoothedHandPos_updatePopup dt st :
  smoothedHandPos (updatePopup dt st) = smoothedHandPos st.
Proof. through_updatePopup. Qed.

Lemma handRotation_updatePopup dt st :
  handRotation (updatePopup dt st) = handRotation st.
Proof. through_updatePopup. Qed.

Section Tick.

Context `{Three}.

Lemma pose_update_none dt st : pose (update dt None st) = pose st.
Proof. unfold update. rewrite pose_updatePopup. reflexivity. Qed.

Lemma uTime_update dt hd st :
  uTime (uniforms (update dt hd st)) = uTime (uniforms st) + dt.
Proof.
  unfold update. rewrite uTime_updatePopup.
  destruct hd as [h|]; [|reflexivity].
  destruct (hd_rotation h); destruct (truthy (hd_scale h)); reflexivity.
Qed.

(** X1.  Frames without a hand hold the pose: the raw and the smoothed
    position, orientation and scale, the gesture, the blend and the
    uniforms that show them stay as they are, however many such frames
    pass. *)
Theorem pose_held_without_hand frames st :
  Forall (fun f => snd f = None) frames ->
  pose (run frames st) = pose st.
Proof.
  intros Hall. revert st.
  induction Hall as [|[dt hd] frames Hnone _ IH]; intros st; [reflexivity|].
  simpl in Hnone. subst hd. cbn [run]. rewrite IH. apply pose_update_none.
Qed.

(** The animation clock [uTime] after any frames is the clock before
    plus the sum of their [dt], whether or not a hand is seen. *)
Lemma clock_accumulates frames st :
  uTime (uniforms (run frames st)) = uTime (uniforms st) + elapsed frames.
Proof.
  revert st. induction frames as [|[dt hd] frames IH]; intros st; cbn [run elapsed fold_right].
  - lra.
  - rewrite IH, uTime_update. cbn [fst]. fold (elapsed frames). lra.
Qed.

Lemma smoothedHandPos_update dt hd st :
  smoothedHandPos (update dt (Some hd) st)
  = Vec.lerp (smoothedHandPos st) (sceneTarget hd)
      (if hd_isClosed hd then 0.03 else 0.15).
Proof.
  unfold update. rewrite smoothedHandPos_updatePopup.
  destruct (hd_rotation hd); destruct (truthy (hd_scale hd)); reflexivity.
Qed.

End Tick.


Lemma pose_held_without_hand_witness :
  Forall (fun f : R * option HandData => snd f = None) [(1 / 60, None); (1 / 30, None)]
  /\ pose (run [(1 / 60, None); (1 / 30, None)]
             (update (1 / 60) (Some turnedHand) twoParticles))
     = pose (update (1 / 60) (Some turnedHand) twoParticles).
Proof.
  assert (Hall : Forall (fun f : R * option HandData => snd f = None)
                   [(1 / 60, None); (1 / 30, None)]).
  { repeat constructor. }
  split; [exact Hall|].
  exact (pose_held_without_hand _ (update (1 / 60) (Some turnedHand) twoParticles) Hall).
Defined.

Section Smoothing.

Context `{Three}.

Lemma sceneTarget_inScene hd :
  0 <= fst (hd_position hd) <= 1 -> 0 <= snd (hd_position hd) <= 1 ->
  inScene (sceneTarget hd).
Proof. intros Hx Hy. unfold inScene, sceneTarget. cbn [v_x v_y v_z]. lra. Qed.

Lemma lerp_inScene p q f :
  inScene p -> inScene q -> 0 <= f <= 1 -> inScene (Vec.lerp p q f).
Proof.
  intros (Hx & Hy & Hz) (Hx' & Hy' & Hz') Hf.
  unfold inScene, Vec.lerp. cbn [v_x v_y v_z]. rewrite Hz, Hz'.
  split; [nra|]. split; [nra | lra].
Qed.

(** X2.  The smoothed hand position never leaves the box of the scene
    that the image is mapped to: from a position in the box, frames
    whose hand positions lie in the image keep it in
    [-20, 20] x [-15, 15] x {0}. *)
Theorem smoothed_position_in_scene frames st :
  inScene (smoothedHandPos st) ->
  Forall inImage frames ->
  inScene (smoothedHandPos (run frames st)).
Proof.
  intros Hin Hall. revert st Hin.
  induction Hall as [|[dt hd] frames Himg _ IH]; intros st Hin; [exact Hin|].
  cbn [run]. apply IH. destruct hd as [h|].
  - rewrite smoothedHandPos_update.
    destruct (Himg h eq_refl) as [Hx Hy].
    apply lerp_inScene; [exact Hin | apply sceneTarget_inScene; assumption|].
    destruct (hd_isClosed h); lra.
  - change (smoothedHandPos (update dt None st))
      with (fst (fst (snd (fst (pose (update dt None st)))))).
    rewrite pose_update_none. exact Hin.
Qed.

(** X3.  While the hand rests in one place, each frame shrinks the
    offset of the smoothed position from its target by the factor
    1 - f (f = 0.03 closed, 0.15 open): after n frames the offset is the
    initial one times (1 - f)^n, whatever the frames' [dt]. *)
Theorem smoothed_position_converges hd dts st :
  let f := if hd_isClosed hd then 0.03 else 0.15 in
  Vec.subVectors (smoothedHandPos (run (map (fun dt => (dt, Some hd)) dts) st))
    (sceneTarget hd)
  = Vec.multiplyScalar (Vec.subVectors (smoothedHandPos st) (sceneTarget hd))
      ((1 - f) ^ length dts).
Proof.
  intros f. revert st. induction dts as [|dt dts IH]; intros st.
  - cbn. unfold Vec.subVectors, Vec.multiplyScalar. cbn [v_x v_y v_z]. f_equal; ring.
  - cbn [map run length]. rewrite IH, smoothedHandPos_update. fold f.
    unfold Vec.subVectors, Vec.multiplyScalar, Vec.lerp. cbn [v_x v_y v_z].
    rewrite <- tech_pow_Rmult. f_equal; ring.
Qed.

Lemma remap_range a : 1 <= remapDepthScale_spec a <= 2.5.
Proof.
  unfold remapDepthScale_spec.
  destruct (Rle_dec a 0.1); [lra|]. destruct (Rle_dec 0.3 a); lra.
Qed.

Lemma smoothedHandScale_update_none dt st :
  smoothedHandScale (update dt None st) = smoothedHandScale st.
Proof. unfold update. rewrite smoothedHandScale_updatePopup. reflexivity. Qed.

(** X4.  The smoothed scale stays between 1 and 2.5: from a value in
    that range no sequence of frames, with any hand data and any [dt],
    takes it out. *)
Theorem smoothed_scale_in_range frames st :
  1 <= smoothedHandScale st <= 2.5 ->
  1 <= smoothedHandScale (run frames st) <= 2.5.
Proof.
  revert st. induction frames as [|[dt hd] frames IH]; intros st Hin; [exact Hin|].
  cbn [run]. apply IH. destruct hd as [h|].
  - rewrite (proj1 (smoothedHandScale_update dt h st)).
    destruct (truthy (hd_scale h)); [|exact Hin].
    pose proof (remap_range (hd_scale h)).
    unfold smoothingFactor_spec. destruct (hd_isClosed h); nra.
  - rewrite smoothedHandScale_update_none. exact Hin.
Qed.

(** X5.  In a frame with a hand and a rotation, the orientation that is
    smoothed towards keeps the tracker's yaw and roll and takes its
    pitch from the smoothed height of the same frame: the pitch is the
    height over 15, clamped to [-1, 1], times minus pi/2.5, so it is
    pi/2.5 (72 degrees) from the height -15 downwards, minus pi/2.5
    from the height 15 upwards and linear in between; it is at most
    pi/2.5 either way, and tilts backwards (is not positive) when the
    smoothed hand is above the middle.  The smoothed orientation moves
    towards that orientation by the step of the gesture. *)
Theorem pitch_is_bounded dt hd rot st :
  hd_rotation hd = Some rot ->
  let st' := update dt (Some hd) st in
  let y := v_y (smoothedHandPos st') in
  handRotation st'
  = quat_setFromEuler (Eul (heightPitch y) (e_y (euler_setFromQuaternion rot))
                                           (e_z (euler_setFromQuaternion rot)))
  /\ (y <= -15 -> heightPitch y = PI / 2.5)
  /\ (-15 <= y <= 15 -> heightPitch y = - (y / 15) * (PI / 2.5))
  /\ (15 <= y -> heightPitch y = - (PI / 2.5))
  /\ Rabs (heightPitch y) <= PI / 2.5
  /\ (0 <= y -> heightPitch y <= 0)
  /\ smoothedHandRot st'
     = quat_slerp (smoothedHandRot st) (handRotation st')
         (if hd_isClosed hd then 0.03 else 0.15).
Proof.
  intros Hrot st' y.
  assert (Hclamp : -1 <= Math.max (-1) (Math.min 1 (y / 15.0)) <= 1).
  { unfold Math.max, Math.min. apply Rmax_case_strong; apply Rmin_case_strong; intros; lra. }
  pose proof PI_RGT_0 as Hpi.
  assert (Hmax : 0 < PI / 2.5) by lra.
  split; [|split; [|split; [|split; [|split; [|split]]]]].
  - subst y st'. rewrite smoothedHandPos_update.
    unfold update. rewrite handRotation_updatePopup, Hrot.
    destruct (truthy (hd_scale hd)); reflexivity.
  - intros Hy. unfold heightPitch, Math.max, Math.min.
    rewrite Rmin_right by lra. rewrite Rmax_left by lra. lra.
  - intros Hy. unfold heightPitch, Math.max, Math.min.
    rewrite Rmin_right by lra. rewrite Rmax_right by lra. lra.
  - intros Hy. unfold heightPitch, Math.max, Math.min.
    rewrite Rmin_left by lra. rewrite Rmax_right by lra. lra.
  - unfold heightPitch. apply Rabs_le. nra.
  - intros Hy. unfold heightPitch.
    assert (0 <= Math.max (-1) (Math.min 1 (y / 15.0))).
    { unfold Math.max, Math.min. apply Rmax_case_strong; apply Rmin_case_strong;
        intros; lra. }
    nra.
  - subst st'. unfold update.
    rewrite smoothedHandRot_updatePopup, handRotation_updatePopup, Hrot.
    destruct (truthy (hd_scale hd)); reflexivity.
Qed.

End Smoothing.

Lemma smoothed_position_in_scene_witness :
  inScene (smoothedHandPos twoParticles)
  /\ Forall inImage [(1 / 60, Some turnedHand); (1 / 60, None)]
  /\ inScene (smoothedHandPos
                (run [(1 / 60, Some turnedHand); (1 / 60, None)] twoParticles)).
Proof.
  assert (H0 : inScene (smoothedHandPos twoParticles)).
  { unfold inScene. cbn. lra. }
  assert (H1 : Forall inImage [(1 / 60, Some turnedHand); (1 / 60, None)]).
  { constructor; [|constructor; [|constructor]].
    - intros hd E. injection E as <-. cbn. lra.
    - intros hd E. discriminate. }
  split; [exact H0|]. split; [exact H1|].
  exact (smoothed_position_in_scene _ twoParticles H0 H1).
Defined.

Lemma smoothed_scale_in_range_witness :
  1 <= smoothedHandScale twoParticles <= 2.5
  /\ 1 <= smoothedHandScale (run [(1 / 60, Some turnedHand)] twoParticles) <= 2.5.
Proof.
  assert (H0 : 1 <= smoothedHandScale twoParticles <= 2.5) by (cbn; lra).
  split; [exact H0|].
  exact (smoothed_scale_in_range [(1 / 60, Some turnedHand)] twoParticles H0).
Defined.

Lemma pitch_is_bounded_witness :
  hd_rotation turnedHand = Some (Quat 0 0 0 1)
  /\ (let st' := update (1 / 60) (Some turnedHand) twoParticles in
      let y := v_y (smoothedHandPos st') in
      handRotation st'
      = quat_setFromEuler
          (Eul (heightPitch y) (e_y (euler_setFromQuaternion (Quat 0 0 0 1)))
                               (e_z (euler_setFromQuaternion (Quat 0 0 0 1))))
      /\ (y <= -15 -> heightPitch y = PI / 2.5)
      /\ (-15 <= y <= 15 -> heightPitch y = - (y / 15) * (PI / 2.5))
      /\ (15 <= y -> heightPitch y = - (PI / 2.5))
      /\ Rabs (heightPitch y) <= PI / 2.5
      /\ (0 <= y -> heightPitch y <= 0)
      /\ smoothedHandRot st'
         = quat_slerp (smoothedHandRot twoParticles) (handRotation st')
             (if hd_isClosed turnedHand then 0.03 else 0.15)).
Proof.
  split; [reflexivity|].
  exact (pitch_is_bounded (1 / 60) turnedHand (Quat 0 0 0 1) twoParticles eq_refl).
Defined.


(** ** The popup from activation to its end *)

Lemma popupFactor_range t :
  0 <= t ->
  match popupFactor t with
  | Some f => 0 <= f <= 1 /\ t < 1.5
  | None => 1.5 <= t
  end.
Proof.
  intros Ht. unfold popupFactor.
  destruct (Rlt_dec t 0.3) as [H1|H1].
  - split; [|lra]. pose proof PI_RGT_0.
    assert (0 <= t / 0.3 * (PI / 2) <= PI).
    { assert (0 <= t / 0.3 <= 1) by lra. nra. }
    split; [apply sin_ge_0; lra | apply SIN_bound].
  - destruct (Rlt_dec t 1.2); [lra|]. destruct (Rlt_dec t 1.5); lra.
Qed.

Lemma lerpVectors_end p q f : f = 1 -> Vec.lerpVectors p q f = q.
Proof. intros ->. destruct q. unfold Vec.lerpVectors. simpl. f_equal; ring. Qed.

Lemma lerpVectors_start p q f : f = 0 -> Vec.lerpVectors p q f = p.
Proof. intros ->. destruct p. unfold Vec.lerpVectors. simpl. f_equal; ring. Qed.

(** X6.  While the popup runs (timer from 0 to below 1.5), its factor is
    between 0 and 1, so that the mesh lies on the segment from the start
    to the target position with a scale between 0.2 and 1; at timer 0 it
    is at the start position, and from 0.3 to below 1.2 it is exactly at
    the target position at full scale. *)
Theorem popup_geometry dt st :
  active (popupState st) = true ->
  0 <= timer (popupState st) + dt < 1.5 ->
  let t := timer (popupState st) + dt in
  let st' := updatePopup dt st in
  exists f,
    0 <= f <= 1
    /\ popupShown st st' f
    /\ 0.2 <= v_x (scale (popupMesh st')) <= 1
    /\ (t = 0 -> position (popupMesh st') = startPos (popupState st))
    /\ (0.3 <= t < 1.2 ->
        position (popupMesh st') = targetPos (popupState st)
        /\ scale (popupMesh st') = V3 1 1 1).
Proof.
  intros Hact Ht t st'.
  pose proof (popupFactor_range t (proj1 Ht)) as Hrange.
  destruct (popupFactor t) as [f|] eqn:Hf; [|unfold t in Hrange; lra].
  destruct Hrange as [Hf01 _].
  pose proof (updatePopup_running dt st f Hact Hf) as Hshown.
  exists f. split; [exact Hf01|]. split; [exact Hshown|].
  destruct Hshown as (_ & _ & Hpos & Hscale & _).
  fold st' in Hpos, Hscale. rewrite Hpos, Hscale. simpl.
  split; [lra|]. split.
  - intros H0. unfold t in H0, Hf. rewrite H0 in Hf.
    rewrite popupFactor_in in Hf by lra. injection Hf as <-.
    apply lerpVectors_start.
    replace (0 / 0.3 * (PI / 2)) with 0 by lra. apply sin_0.
  - intros Hhold. rewrite popupFactor_hold in Hf by exact Hhold. injection Hf as <-.
    split; [apply lerpVectors_end; lra | f_equal; lra].
Qed.

Lemma popup_geometry_witness :
  active (popupState (popupRunning 0.2)) = true
  /\ 0 <= timer (popupState (popupRunning 0.2)) + 0.3 < 1.5
  /\ exists f,
       0 <= f <= 1
       /\ popupShown (popupRunning 0.2) (updatePopup 0.3 (popupRunning 0.2)) f
       /\ position (popupMesh (updatePopup 0.3 (popupRunning 0.2))) = V3 0 0 42
       /\ scale (popupMesh (updatePopup 0.3 (popupRunning 0.2))) = V3 1 1 1.
Proof.
  assert (Ht : 0 <= timer (popupState (popupRunning 0.2)) + 0.3 < 1.5) by (cbn; lra).
  split; [reflexivity|]. split; [exact Ht|].
  destruct (popup_geometry 0.3 (popupRunning 0.2) eq_refl Ht)
    as (f & Hf & Hshown & _ & _ & Hhold).
  exists f. split; [exact Hf|]. split; [exact Hshown|].
  apply Hhold. cbn. lra.
Defined.

(** One call of [updatePopup] on an active popup either advances the
    timer below 1.5 or ends the popup. *)
Lemma popup_phases_cases dt st :
  active (popupState st) = true ->
  (timer (popupState st) + dt < 1.5
   /\ active (popupState (updatePopup dt st)) = true
   /\ timer (popupState (updatePopup dt st)) = timer (popupState st) + dt
   /\ uClickedID (uniforms (updatePopup dt st)) = uClickedID (uniforms st))
  \/ (1.5 <= timer (popupState st) + dt
      /\ active (popupState (updatePopup dt st)) = false
      /\ visible (popupMesh (updatePopup dt st)) = false
      /\ uClickedID (uniforms (updatePopup dt st)) = -1).
Proof.
  intros Hact. unfold updatePopup. rewrite Hact. cbn [negb]. cbv zeta.
  unfold popupFactor.
  destruct (Rlt_dec (timer (popupState st) + dt) 0.3);
    [left; cbn; repeat split; try reflexivity; try assumption; lra|].
  destruct (Rlt_dec (timer (popupState st) + dt) 1.2);
    [left; cbn; repeat split; try reflexivity; try assumption; lra|].
  destruct (Rlt_dec (timer (popupState st) + dt) 1.5);
    [left; cbn; repeat split; try reflexivity; try assumption; lra|].
  right. cbn. repeat split; try reflexivity; lra.
Qed.

Lemma popupView_eq (a b : ParticleSystem) :
  popupView a = popupView b ->
  popupState a = popupState b
  /\ popupMesh a = popupMesh b
  /\ uClickedID (uniforms a) = uClickedID (uniforms b)
  /\ cameraQuaternion a = cameraQuaternion b
  /\ particleCount a = particleCount b
  /\ attributes a = attributes b.
Proof.
  intros Heq.
  split; [exact (f_equal (fun v => fst (fst (fst (fst (fst v))))) Heq)|].
  split; [exact (f_equal (fun v => snd (fst (fst (fst (fst v))))) Heq)|].
  split; [exact (f_equal (fun v => snd (fst (fst (fst v)))) Heq)|].
  split; [exact (f_equal (fun v => snd (fst (fst v))) Heq)|].
  split; [exact (f_equal (fun v => snd (fst v)) Heq)|].
  exact (f_equal snd Heq).
Qed.

Section PopupLife.

Context `{Three}.

(** What [update] does before it calls [updatePopup] leaves the popup
    alone. *)
Lemma update_then_updatePopup dt hd st :
  exists st1, update dt hd st = updatePopup dt st1 /\ popupView st1 = popupView st.
Proof.
  unfold update. eexists. split; [reflexivity|].
  destruct hd as [h|]; [|reflexivity].
  destruct (hd_rotation h); destruct (truthy (hd_scale h)); reflexivity.
Qed.

Lemma popupView_inactive dt st :
  active (popupState st) = false -> popupView (updatePopup dt st) = popupView st.
Proof. intros Hin. unfold updatePopup. rewrite Hin. reflexivity. Qed.

(** Without a click, an ended popup stays ended. *)
Lemma popup_stays_off frames st :
  active (popupState st) = false ->
  popupView (run frames st) = popupView st.
Proof.
  revert st. induction frames as [|[dt hd] frames IH]; intros st Hoff; [reflexivity|].
  cbn [run].
  destruct (update_then_updatePopup dt hd st) as (st1 & -> & Hview).
  destruct (popupView_eq _ _ Hview) as (Hp & _).
  assert (Hoff1 : active (popupState st1) = false) by (rewrite Hp; exact Hoff).
  assert (Hoff2 : active (popupState (updatePopup dt st1)) = false).
  { destruct (popupView_eq _ _ (popupView_inactive dt st1 Hoff1)) as (-> & _).
    exact Hoff1. }
  rewrite (IH _ Hoff2). rewrite popupView_inactive by exact Hoff1. exact Hview.
Qed.

(** X7.  A popup is shown for 1.5 seconds of frame time: with frames of
    non-negative [dt], while the timer has not reached 1.5 the popup is
    still active and its particle still hidden; once the timer plus the
    [dt] of the frames that passed is 1.5 or more, the popup is off, its
    mesh invisible and [uClickedID] back at -1, whatever the hands do. *)
Theorem popup_lasts_1500ms frames st :
  active (popupState st) = true ->
  timer (popupState st) < 1.5 ->
  Forall (fun f => 0 <= fst f) frames ->
  let st' := run frames st in
  (timer (popupState st) + elapsed frames < 1.5 ->
   active (popupState st') = true
   /\ timer (popupState st') = timer (popupState st) + elapsed frames
   /\ uClickedID (uniforms st') = uClickedID (uniforms st))
  /\ (1.5 <= timer (popupState st) + elapsed frames ->
      active (popupState st') = false
      /\ visible (popupMesh st') = false
      /\ uClickedID (uniforms st') = -1).
Proof.
  intros Hact Htimer Hall. revert st Hact Htimer.
  induction Hall as [|[dt hd] frames Hdt Hall IH]; intros st Hact Htimer st'.
  - cbn [elapsed fold_right]. subst st'. cbn [run]. split; [|lra].
    intros _. split; [exact Hact|]. split; lra.
  - cbn [fst] in Hdt. subst st'. cbn [run elapsed fold_right fst]. fold (elapsed frames).
    assert (Hel : 0 <= elapsed frames).
    { clear -Hall. induction Hall as [|f fs Hf _ IHf]; cbn; [lra|].
      fold (elapsed fs). lra. }
    destruct (update_then_updatePopup dt hd st) as (st1 & Heq & Hview).
    destruct (popupView_eq _ _ Hview) as (Hp & Hm & Hu & _).
    assert (Hact1 : active (popupState st1) = true) by (rewrite Hp; exact Hact).
    destruct (popup_phases_cases dt st1 Hact1) as [(Hlt & Hrun & Htm & Hid)|(Hge & Hoff)].
    + rewrite Hp in Hlt, Htm. rewrite Hu in Hid.
      rewrite <- Heq in Hrun, Htm, Hid.
      specialize (IH (update dt hd st) Hrun ltac:(lra)). cbv zeta in IH.
      destruct IH as [IH1 IH2]. rewrite Htm in IH1, IH2. split.
      * intros Hbelow. destruct (IH1 ltac:(lra)) as (A & B & C).
        split; [exact A|]. split; [lra | congruence].
      * intros Habove. apply IH2. lra.
    + rewrite Hp in Hge. split; [intros Hbelow; lra|]. intros _.
      rewrite <- Heq in Hoff. destruct Hoff as (Ho & Hv & Hc).
      pose proof (popup_stays_off frames (update dt hd st) Ho) as Hstay.
      destruct (popupView_eq _ _ Hstay) as (Hp' & Hm' & Hu' & _).
      rewrite Hp', Hm', Hu'. auto.
Qed.

End PopupLife.

Lemma popup_lasts_1500ms_witness :
  let st' := run [(1, None); (1, None)] (popupRunning 0.2) in
  active (popupState st') = false
  /\ visible (popupMesh st') = false
  /\ uClickedID (uniforms st') = -1.
Proof.
  apply (proj2 (popup_lasts_1500ms [(1, None); (1, None)] (popupRunning 0.2)
                  eq_refl ltac:(cbn; lra)
                  ltac:(repeat constructor; cbn; lra))).
  cbn. lra.
Defined.


(** ** Invariants of the engine under the events of the page *)

Lemma particleCount_updatePopup dt st :
  particleCount (updatePopup dt st) = particleCount st.
Proof. through_updatePopup. Qed.

Lemma currentShape_updatePopup dt st :
  currentShape (updatePopup dt st) = currentShape st.
Proof. through_updatePopup. Qed.

Lemma popupConsistent_view a b :
  popupView a = popupView b -> popupConsistent b -> popupConsistent a.
Proof.
  intros Hview. destruct (popupView_eq _ _ Hview) as (Hp & Hm & Hu & _ & Hn & _).
  unfold popupConsistent. rewrite Hp, Hm, Hu, Hn. trivial.
Qed.

Lemma popupConsistent_updatePopup dt st :
  popupConsistent st -> popupConsistent (updatePopup dt st).
Proof.
  unfold popupConsistent, updatePopup.
  destruct (active (popupState st)) eqn:Hact; cbn [negb];
    [|try rewrite Hact; trivial].
  cbv zeta. destruct (popupFactor _); cbn.
  - try rewrite Hact. trivial.
  - intros _. split; [reflexivity | lra].
Qed.

Lemma wellFormed_same st st' :
  particleCount st' = particleCount st ->
  attributes st' = attributes st ->
  wellFormed st -> wellFormed st'.
Proof. intros Hn Ha. unfold wellFormed. rewrite Hn, Ha. trivial. Qed.

Lemma mirrored_pose a b : pose a = pose b -> mirrored b -> mirrored a.
Proof.
  intros Hpose. unfold mirrored.
  pose proof (f_equal (fun v => fst (fst (snd (fst v)))) Hpose) as Hsp.
  pose proof (f_equal (fun v => snd (fst (snd (fst v)))) Hpose) as Hsr.
  pose proof (f_equal (fun v => snd (snd (fst v))) Hpose) as Hss.
  pose proof (f_equal (fun v => snd (fst (fst (snd v)))) Hpose) as Hup.
  pose proof (f_equal (fun v => snd (fst (snd v))) Hpose) as Hur.
  pose proof (f_equal (fun v => snd (snd v)) Hpose) as Hus.
  cbn in Hsp, Hsr, Hss, Hup, Hur, Hus.
  rewrite Hsp, Hsr, Hss, Hup, Hur, Hus. trivial.
Qed.

Lemma includes_In l s : includes l s = true -> In s l.
Proof.
  unfold includes. intros Hin. apply existsb_exists in Hin.
  destruct Hin as (x & Hx & Heq). apply String.eqb_eq in Heq. subst. exact Hx.
Qed.

Lemma findPhotoParticle_some rounds isPhotos count :
  post (findPhotoParticle rounds isPhotos count)
       (fun o => forall r, o = Some r -> isPhotoAt isPhotos r = true).
Proof.
  induction rounds as [|rounds IH]; cbn [findPhotoParticle].
  - apply post_ret. discriminate.
  - apply post_bind_any. intros a. cbv zeta.
    destruct (isPhotoAt isPhotos (Math.floor (a * INR count))) eqn:E; [|exact IH].
    apply post_ret. intros r [= <-]. exact E.
Qed.

Section Reachable.

Context `{Three}.

(** What a click does: nothing, or it starts the popup on a particle [r]
    that carries a photo, with the texture offset of the slot drawn
    first. *)
Lemma onClick_result st g st' g' :
  onClick st g = Some (st', g') ->
  st' = st
  \/ exists r,
       isPhotoAt (aIsPhoto (attributes st)) r = true
       /\ isClosed st = false
       /\ st' =
          let st1 := set_uniforms (set_uClickedID (IZR r) (uniforms st)) st in
          set_popup
            (mkPopupState true 0 (totalDuration (popupState st))
               (getParticlePos (Z.to_nat r) st1) (targetPos (popupState st)) (IZR r))
            (mkPopupMesh true (getParticlePos (Z.to_nat r) st1) (V3 0.1 0.1 0.1)
               (quaternion (popupMesh st))
               (slotOffset (atlasCols st) (atlasRows st)
                  (Math.floor (draws g (cursor g) * IZR (photoCount st)))))
            st1.
Proof.
  unfold onClick. destruct (isClosed st) eqn:Hc.
  - rewrite ret_run. intros [= <- _]. left. reflexivity.
  - rewrite bind_run. cbn [random]. cbv zeta. rewrite bind_run.
    destruct (findPhotoParticle 100 (aIsPhoto (attributes st)) (particleCount st)
                (mkRng (draws g) (S (cursor g)))) as [[[r|] g1]|] eqn:E; [| |discriminate].
    + rewrite ret_run. intros [= <- _]. right. exists r.
      split; [exact (findPhotoParticle_some _ _ _ _ _ _ E r eq_refl)|].
      split; reflexivity.
    + rewrite ret_run. intros [= <- _]. left. reflexivity.
Qed.

Lemma update_static dt hd st :
  particleCount (update dt hd st) = particleCount st
  /\ attributes (update dt hd st) = attributes st
  /\ currentShape (update dt hd st) = currentShape st.
Proof.
  unfold update.
  rewrite particleCount_updatePopup, attributes_updatePopup, currentShape_updatePopup.
  destruct hd as [h|]; [|auto].
  destruct (hd_rotation h); destruct (truthy (hd_scale h)); auto.
Qed.

Lemma setShape_result fuel shape st g st' g' :
  setShape fuel shape st g = Some (st', g') ->
  exists w c,
    sameSizes (mkGen (aTargetPos (attributes st)) (aColor (attributes st)) 0 0) w
    /\ st' =
       mkParticleSystem (particleCount st)
         (if includes allowedShapes shape then shape else "heart") c
         (mkAttributes (positions w) (aRandom (attributes st))
            (aImgOffset (attributes st)) (colors w) (aID (attributes st))
            (aIsPhoto (attributes st)) (aSize (attributes st)))
         (uniforms st) (snowTime st) (handPos st) (handRotation st)
         (smoothedHandPos st) (smoothedHandRot st) (smoothedHandScale st)
         (isClosed st) (photoCount st) (atlasCols st) (atlasRows st)
         (popupState st) (popupMesh st) (cameraQuaternion st).
Proof.
  unfold setShape. rewrite bind_run.
  destruct (generateShape fuel shape st g) as [[st1 g1]|] eqn:E; [|discriminate].
  apply generateShape_result in E. destruct E as (w & Hw & ->).
  rewrite ret_run. intros [= <- _]. cbn [currentShape].
  exists w.
  destruct (String.eqb _ "planet"); [eexists; split; [exact Hw | reflexivity]|].
  destruct (String.eqb _ "tree"); eexists; (split; [exact Hw | reflexivity]).
Qed.

Lemma handleAll_invariant (I : ParticleSystem -> Prop) :
  (forall e st, I st -> post (handle e st) I) ->
  forall es st, I st -> post (handleAll es st) I.
Proof.
  intros Hstep es. induction es as [|e es IH]; intros st Hst; cbn [handleAll].
  - apply post_ret. exact Hst.
  - apply post_bind. intros g st1 g1 E. apply IH. exact (Hstep e st Hst g st1 g1 E).
Qed.

Lemma handle_keeps_count e st :
  post (handle e st) (fun st' => particleCount st' = particleCount st).
Proof.
  destruct e as [dt hd| |fuel shape|hex]; cbn [handle].
  - apply post_ret. apply update_static.
  - intros g st' g' E. apply onClick_result in E.
    destruct E as [-> | (r & _ & _ & ->)]; reflexivity.
  - intros g st' g' E. apply setShape_result in E.
    destruct E as (w & c & _ & ->). reflexivity.
  - apply post_ret. reflexivity.
Qed.

Lemma handle_sound e st :
  wellFormed st /\ popupConsistent st ->
  post (handle e st) (fun st' => wellFormed st' /\ popupConsistent st').
Proof.
  intros [Hwf Hpc]. destruct e as [dt hd| |fuel shape|hex]; cbn [handle].
  - apply post_ret. destruct (update_static dt hd st) as (Hn & Ha & _). split.
    + exact (wellFormed_same _ _ Hn Ha Hwf).
    + destruct (update_then_updatePopup dt hd st) as (st1 & -> & Hview).
      apply popupConsistent_updatePopup. exact (popupConsistent_view _ _ Hview Hpc).
  - intros g st' g' E. apply onClick_result in E.
    destruct E as [-> | (r & Hr & _ & ->)]; [auto|]. split.
    + exact Hwf.
    + apply isPhotoAt_true in Hr. destruct Hr as (Hr0 & a & Ha & _).
      apply lookup_lt_Some in Ha.
      destruct Hwf as (_ & Hlen & _). rewrite Hlen in Ha.
      unfold popupConsistent. cbn. split; [reflexivity|].
      exists (Z.to_nat r). rewrite INR_IZR_INZ, Z2Nat.id by exact Hr0. auto.
  - intros g st' g' E. apply setShape_result in E.
    destruct E as (w & c & [Hpos Hcol] & ->). split; [|exact Hpc].
    destruct Hwf as (Hid & Hph & Htp & Hrn & Hcl).
    cbn in Hpos, Hcol. unfold wellFormed. cbn. rewrite Hpos, Hcol. auto.
  - apply post_ret. auto.
Qed.

(** X8.  Whatever frames, clicks, shape buttons and colour inputs reach
    the engine, the number of particles stays, the attribute arrays keep
    their sizes and the ids stay 0, 1, 2, ..., and the popup stays
    consistent: an active popup is visible and [uClickedID] names the
    particle it was started on; otherwise the popup is invisible and
    [uClickedID] is -1. *)
Theorem events_keep_engine_consistent es st g st' g' :
  wellFormed st ->
  popupConsistent st ->
  handleAll es st g = Some (st', g') ->
  particleCount st' = particleCount st /\ wellFormed st' /\ popupConsistent st'.
Proof.
  intros Hwf Hpc E. split.
  - refine (handleAll_invariant (fun s => particleCount s = particleCount st) _
              es st eq_refl g st' g' E).
    intros e s Hs g0 s' g0' E0. rewrite <- Hs.
    exact (handle_keeps_count e s g0 s' g0' E0).
  - exact (handleAll_invariant _ handle_sound es st (conj Hwf Hpc) g st' g' E).
Qed.

Lemma handle_pose e st :
  (forall dt hd, e <> Frame dt (Some hd)) ->
  post (handle e st) (fun st' => pose st' = pose st).
Proof.
  intros Hne. destruct e as [dt [hd|]| |fuel shape|hex]; cbn [handle].
  - exfalso. exact (Hne dt hd eq_refl).
  - apply post_ret. apply pose_update_none.
  - intros g st' g' E. apply onClick_result in E.
    destruct E as [-> | (r & _ & _ & ->)]; reflexivity.
  - intros g st' g' E. apply setShape_result in E.
    destruct E as (w & c & _ & ->). reflexivity.
  - apply post_ret. reflexivity.
Qed.

Lemma mirrored_update dt hd st : mirrored st -> mirrored (update dt hd st).
Proof.
  intros Hm. unfold update. apply (mirrored_pose _ _ (pose_updatePopup _ _)).
  destruct hd as [h|]; [|exact Hm].
  destruct Hm as (Hp & Hr & Hs). unfold mirrored.
  destruct (hd_rotation h); destruct (truthy (hd_scale h)); cbn; auto.
Qed.

(** X9.  The uniforms that the vertex shader reads always show the
    smoothed pose: [uHandPos], [uHandRotation] and [uScale] equal
    [smoothedHandPos], [smoothedHandRot] and [smoothedHandScale] after
    any events if they did before. *)
Theorem uniforms_mirror_smoothed_pose es st g st' g' :
  mirrored st ->
  handleAll es st g = Some (st', g') ->
  mirrored st'.
Proof.
  intros Hm E. refine (handleAll_invariant mirrored _ es st Hm g st' g' E).
  intros e s Hs. destruct e as [dt hd| | |].
  - apply post_ret. apply mirrored_update. exact Hs.
  - intros g0 s' g0' E0.
    refine (mirrored_pose _ _ (handle_pose Click s _ g0 s' g0' E0) Hs). discriminate.
  - intros g0 s' g0' E0.
    refine (mirrored_pose _ _ (handle_pose _ s _ g0 s' g0' E0) Hs). discriminate.
  - intros g0 s' g0' E0.
    refine (mirrored_pose _ _ (handle_pose _ s _ g0 s' g0' E0) Hs). discriminate.
Qed.

Lemma handle_shape e st :
  In (currentShape st) allowedShapes ->
  post (handle e st) (fun st' => In (currentShape st') allowedShapes).
Proof.
  intros Hin. destruct e as [dt hd| |fuel shape|hex]; cbn [handle].
  - apply post_ret. destruct (update_static dt hd st) as (_ & _ & ->). exact Hin.
  - intros g st' g' E. apply onClick_result in E.
    destruct E as [-> | (r & _ & _ & ->)]; exact Hin.
  - intros g st' g' E. apply setShape_result in E.
    destruct E as (w & c & _ & ->). cbn [currentShape].
    destruct (includes allowedShapes shape) eqn:Hi; [exact (includes_In _ _ Hi)|].
    left. reflexivity.
  - apply post_ret. exact Hin.
Qed.

(** The current shape is always one of heart, planet, star and tree: no
    event, whatever name a shape button passes, makes it anything else. *)
Lemma shape_stays_allowed es st g st' g' :
  In (currentShape st) allowedShapes ->
  handleAll es st g = Some (st', g') ->
  In (currentShape st') allowedShapes.
Proof.
  intros Hin E. exact (handleAll_invariant _ handle_shape es st Hin g st' g' E).
Qed.

End Reachable.

Section UnitOrientation.

Context `{UnitThree}.

(** X10.  The smoothed orientation keeps norm 1 under all events: the
    engine smooths towards a quaternion rebuilt from Euler angles, never
    towards the tracker's own, so that no frame, click, shape button or
    colour input takes a smoothed orientation of norm 1 to another
    norm. *)
Theorem orientation_stays_unit es st g st' g' :
  unitQuat (smoothedHandRot st) ->
  handleAll es st g = Some (st', g') ->
  unitQuat (smoothedHandRot st').
Proof.
  intros Hu E.
  refine (handleAll_invariant (fun s => unitQuat (smoothedHandRot s)) _
            es st Hu g st' g' E).
  intros e s Hs. destruct e as [dt hd| |fuel shape|hex].
  - apply post_ret. apply smoothedHandRot_unit_step. exact Hs.
  - intros g0 s' g0' E0.
    assert (Hne : forall dt hd, Click <> Frame dt (Some hd)) by discriminate.
    pose proof (handle_pose Click s Hne g0 s' g0' E0) as Hp.
    apply (f_equal (fun v => snd (fst (snd (fst v))))) in Hp. cbn in Hp.
    rewrite Hp. exact Hs.
  - intros g0 s' g0' E0.
    assert (Hne : forall dt hd, ShapeButton fuel shape <> Frame dt (Some hd))
      by discriminate.
    pose proof (handle_pose _ s Hne g0 s' g0' E0) as Hp.
    apply (f_equal (fun v => snd (fst (snd (fst v))))) in Hp. cbn in Hp.
    rewrite Hp. exact Hs.
  - intros g0 s' g0' E0.
    assert (Hne : forall dt hd, ColorInput hex <> Frame dt (Some hd)) by discriminate.
    pose proof (handle_pose _ s Hne g0 s' g0' E0) as Hp.
    apply (f_equal (fun v => snd (fst (snd (fst v))))) in Hp. cbn in Hp.
    rewrite Hp. exact Hs.
Qed.

End UnitOrientation.

(** X11.  In a consistent engine the vertex shader hides exactly one
    particle while the popup is active, the one the popup shows, and no
    particle otherwise. *)
Theorem popup_hides_its_particle_only st :
  wellFormed st ->
  popupConsistent st ->
  if active (popupState st)
  then exists i, (i < particleCount st)%nat
                 /\ id (popupState st) = INR i
                 /\ forall j, hiddenFromDraw st j <-> j = i
  else forall j, ~ hiddenFromDraw st j.
Proof.
  intros Hwf Hpc. unfold popupConsistent in Hpc.
  destruct (active (popupState st)).
  - destruct Hpc as (_ & i & Hi & Hu & Hid). exists i.
    split; [exact Hi|]. split; [exact Hid|]. intros j.
    replace (j = i) with (j = Z.to_nat (Z.of_nat i)) by (rewrite Nat2Z.id; reflexivity).
    apply hidden_iff; [apply Hwf | lia | rewrite Nat2Z.id; exact Hi |].
    rewrite Hu. apply INR_IZR_INZ.
  - destruct Hpc as (_ & Hu). intros j (a & Ha & Hnear).
    destruct Hwf as (Hid & _). rewrite Hid, list_lookup_fmap in Ha.
    destruct (seq 0 (particleCount st) !! j) as [k|]; [|discriminate].
    injection Ha as <-. rewrite Hu in Hnear.
    pose proof (pos_INR k). rewrite Rabs_right in Hnear; lra.
Qed.

Lemma popupRunning_wellFormed t0 : wellFormed (popupRunning t0).
Proof. unfold wellFormed. cbn. repeat split; reflexivity. Qed.

Lemma popupRunning_consistent t0 : popupConsistent (popupRunning t0).
Proof.
  unfold popupConsistent. cbn. split; [reflexivity|].
  exists 0%nat. split; [lia|]. split; reflexivity.
Qed.

Lemma events_keep_engine_consistent_witness :
  let st' := update 0.1 None
               (setColor "#00ff00" (update 0.1 (Some openHand) (popupRunning 0.2))) in
  particleCount st' = particleCount (popupRunning 0.2)
  /\ wellFormed st' /\ popupConsistent st'.
Proof.
  exact (events_keep_engine_consistent
           [Frame 0.1 (Some openHand); ColorInput "#00ff00"; Frame 0.1 None]
           (popupRunning 0.2) (constantDraws 0) _ (constantDraws 0)
           (popupRunning_wellFormed 0.2) (popupRunning_consistent 0.2) eq_refl).
Defined.

Lemma uniforms_mirror_smoothed_pose_witness :
  mirrored (update 0.1 None (setColor "#00ff00" (update 0.1 (Some turnedHand) twoParticles))).
Proof.
  refine (uniforms_mirror_smoothed_pose
            [Frame 0.1 (Some turnedHand); ColorInput "#00ff00"; Frame 0.1 None]
            twoParticles (constantDraws 0) _ (constantDraws 0) _ eq_refl).
  unfold mirrored. cbn. auto.
Defined.

Lemma popup_hides_its_particle_only_witness :
  exists i, (i < 2)%nat
            /\ id (popupState (popupRunning 0.2)) = INR i
            /\ forall j, hiddenFromDraw (popupRunning 0.2) j <-> j = i.
Proof.
  exact (popup_hides_its_particle_only (popupRunning 0.2)
           (popupRunning_wellFormed 0.2) (popupRunning_consistent 0.2)).
Defined.

Lemma orientation_stays_unit_witness :
  unitQuat (smoothedHandRot
              (update 0.1 (Some fist) (update 0.1 (Some turnedHand) twoParticles))).
Proof.
  refine (orientation_stays_unit
            [Frame 0.1 (Some turnedHand); Frame 0.1 (Some fist)]
            twoParticles (constantDraws 0) _ (constantDraws 0) _ eq_refl).
  unfold unitQuat. cbn. lra.
Defined.


(** ** The shaders and their mirror on the CPU *)

Lemma Vec_length_scale v k :
  0 <= k -> Vec.length (Vec.multiplyScalar v k) = Vec.length v * k.
Proof.
  intros Hk. unfold Vec.length, Vec.multiplyScalar. simpl.
  replace (v_x v * k * (v_x v * k) + v_y v * k * (v_y v * k) + v_z v * k * (v_z v * k))
    with ((v_x v * v_x v + v_y v * v_y v + v_z v * v_z v) * (k * k)) by ring.
  rewrite sqrt_mult_alt.
  - rewrite sqrt_square by exact Hk. reflexivity.
  - pose proof (Rle_0_sqr (v_x v)). pose proof (Rle_0_sqr (v_y v)).
    pose proof (Rle_0_sqr (v_z v)). unfold Rsqr in *. lra.
Qed.

Lemma Vec_length_pos v : v <> Vec.zero -> 0 < Vec.length v.
Proof.
  intros Hne. unfold Vec.length. apply sqrt_lt_R0.
  pose proof (Rle_0_sqr (v_x v)) as Hx. pose proof (Rle_0_sqr (v_y v)) as Hy.
  pose proof (Rle_0_sqr (v_z v)) as Hz. unfold Rsqr in *.
  destruct (Rle_lt_or_eq_dec 0 _ (Rplus_le_le_0_compat _ _ (Rplus_le_le_0_compat _ _ Hx Hy) Hz))
    as [Hlt|Heq]; [exact Hlt|].
  exfalso. apply Hne. destruct v as [x y z]. simpl in *.
  assert (x * x = 0) by lra. assert (y * y = 0) by lra. assert (z * z = 0) by lra.
  unfold Vec.zero. f_equal; apply Rsqr_0_uniq; assumption.
Qed.

(** Normalising a positive multiple of a vector that is not zero gives
    the vector over its length, for the shader and for three.js. *)
Lemma Vec_normalize_scaled v k :
  v <> Vec.zero -> 0 < k ->
  Vec.normalize (Vec.multiplyScalar v k) = Vec.multiplyScalar v (1 / Vec.length v).
Proof.
  intros Hv Hk. pose proof (Vec_length_pos v Hv) as Hl.
  unfold Vec.normalize. cbv zeta. rewrite Vec_length_scale by lra.
  rewrite (proj2 (truthy_true _)) by nra.
  unfold Vec.multiplyScalar. simpl. f_equal; field; lra.
Qed.

Lemma GLSL_normalize_scaled v k :
  v <> Vec.zero -> 0 < k ->
  GLSL.normalize (Vec.multiplyScalar v k) = Vec.multiplyScalar v (1 / Vec.length v).
Proof.
  intros Hv Hk. pose proof (Vec_length_pos v Hv) as Hl.
  unfold GLSL.normalize. rewrite Vec_length_scale by lra.
  unfold Vec.multiplyScalar. simpl. f_equal; field; lra.
Qed.

(** The chain of [addScaledVector] of [getParticlePos] is the shader's
    [quadraticBezier]. *)
Lemma bezier_mirror p0 p1 p2 t :
  Vec.addScaledVector
    (Vec.addScaledVector
       (Vec.addScaledVector Vec.zero p0 ((1.0 - t) * (1.0 - t)))
       p1 (2.0 * (1.0 - t) * t))
    p2 (t * t)
  = GLSL.quadraticBezier p0 p1 p2 t.
Proof.
  unfold GLSL.quadraticBezier, Vec.addScaledVector, Vec.add, Vec.multiplyScalar,
    Vec.zero. simpl. f_equal; ring.
Qed.

Lemma bezier_start p0 p1 p2 t : t = 0 -> GLSL.quadraticBezier p0 p1 p2 t = p0.
Proof.
  intros ->. destruct p0.
  unfold GLSL.quadraticBezier, Vec.add, Vec.multiplyScalar. simpl. f_equal; lra.
Qed.

Section Mirror.

Context `{Three}.

(** X12.  With the blend fully open ([uState] 0) the position that
    [getParticlePos] computes for a particle is the one the vertex
    shader draws it at, whatever three.js does to rotate: both are the
    cloud position around the hand, and the shape target plays no part. *)
Theorem getParticlePos_matches_shader_when_open i st :
  uState (uniforms st) = 0 ->
  getParticlePos i st = GLSL.finalPos i st
  /\ forall targets,
       getParticlePos i st
       = getParticlePos i
           (set_attributes
              (mkAttributes targets (aRandom (attributes st))
                 (aImgOffset (attributes st)) (aColor (attributes st))
                 (aID (attributes st)) (aIsPhoto (attributes st))
                 (aSize (attributes st))) st).
Proof.
  intros H0. split; [|intros targets];
    unfold getParticlePos, GLSL.finalPos, GLSL.quadraticBezier, readAt; cbv zeta;
    cbn [attributes uniforms set_attributes aRandom aTargetPos];
    rewrite H0;
    unfold Vec.addScaledVector, Vec.add, Vec.multiplyScalar, Vec.zero; simpl;
    f_equal; ring.
Qed.

End Mirror.

Lemma getParticlePos_matches_shader_when_open_witness :
  getParticlePos 0 twoParticles = GLSL.finalPos 0 twoParticles.
Proof.
  exact (proj1 (getParticlePos_matches_shader_when_open 0%nat twoParticles eq_refl)).
Defined.

(** X13.  With the blend fully closed ([uState] 1) the two differ: the
    shader scales the rotated target by [uScale * 1.5], [getParticlePos]
    by [uScale] only, so that the shader draws the particle half a
    scaled target further out than [getParticlePos] says. *)
Theorem getParticlePos_differs_from_shader_when_closed i st :
  uState (uniforms st) = 1 ->
  0 < uScale (uniforms st) ->
  rotatedTarget i st <> Vec.zero ->
  GLSL.finalPos i st
  = Vec.add (getParticlePos i st)
      (Vec.multiplyScalar (rotatedTarget i st) (uScale (uniforms st) * 0.5))
  /\ GLSL.finalPos i st <> getParticlePos i st.
Proof.
  intros H1 Hs Hv.
  assert (Heq : GLSL.finalPos i st
                = Vec.add (getParticlePos i st)
                    (Vec.multiplyScalar (rotatedTarget i st) (uScale (uniforms st) * 0.5))).
  { pose proof (Vec_length_pos _ Hv) as Hl.
    pose proof (Vec_normalize_scaled _ _ Hv Hs) as Hn.
    pose proof (GLSL_normalize_scaled _ (uScale (uniforms st) * 1.5) Hv ltac:(lra)) as Hn'.
    unfold getParticlePos, GLSL.finalPos. cbv zeta.
    rewrite bezier_mirror.
    rewrite !bezier_start by (rewrite H1; lra).
    cbn [vec_applyQuaternion three].
    unfold rotatedTarget, readAt in *.
    remember (ThreeJS.applyQuaternion _ _) as p eqn:Hp. clear Hp.
    rewrite Hn, Hn'.
    remember (Vec.length p) as L eqn:HL. clear HL.
    unfold Vec.add, Vec.multiplyScalar. simpl.
    f_equal; lra. }
  split; [exact Heq|]. rewrite Heq. intros Hsame. apply Hv.
  destruct (rotatedTarget i st) as [x y z].
  destruct (getParticlePos i st) as [a b c].
  unfold Vec.add, Vec.multiplyScalar, Vec.zero in *. simpl in Hsame.
  injection Hsame as Hx Hy Hz.
  assert (Hk : uScale (uniforms st) * 0.5 <> 0) by lra.
  f_equal.
  - apply (Rmult_eq_reg_r (uScale (uniforms st) * 0.5)); [lra | exact Hk].
  - apply (Rmult_eq_reg_r (uScale (uniforms st) * 0.5)); [lra | exact Hk].
  - apply (Rmult_eq_reg_r (uScale (uniforms st) * 0.5)); [lra | exact Hk].
Qed.

Lemma twoClosed_rotatedTarget : rotatedTarget 0 twoClosed <> Vec.zero.
Proof.
  unfold rotatedTarget, ThreeJS.applyQuaternion, readAt, Vec.add, Vec.multiplyScalar,
    Vec.crossVectors, Vec.zero. simpl.
  intros Heq. injection Heq as Hx _ _. lra.
Qed.

Lemma getParticlePos_differs_from_shader_when_closed_witness :
  GLSL.finalPos 0 twoClosed <> getParticlePos 0 twoClosed.
Proof.
  refine (proj2 (getParticlePos_differs_from_shader_when_closed 0%nat twoClosed
                   eq_refl _ twoClosed_rotatedTarget)).
  simpl. lra.
Defined.

Lemma clamp_unit a : 0 <= GLSL.clamp a 0.0 1.0 <= 1.
Proof.
  unfold GLSL.clamp.
  apply Rmin_case_strong; apply Rmax_case_strong; intros; lra.
Qed.

Lemma smootherstep_unit t :
  0 <= t <= 1 -> 0 <= t * t * t * (t * (t * 6.0 - 15.0) + 10.0) <= 1.
Proof.
  intros Ht.
  assert (H3 : 0 <= t * t * t) by (apply Rmult_le_pos; [apply Rmult_le_pos|]; lra).
  assert (Hq : 0 <= t * (t * 6.0 - 15.0) + 10.0) by nra.
  split; [apply Rmult_le_pos; assumption|].
  (* 1 - (6 t^5 - 15 t^4 + 10 t^3) = (1 - t)^3 (6 t^2 + 3 t + 1) *)
  assert (Hfac : 1 - t * t * t * (t * (t * 6.0 - 15.0) + 10.0)
                 = (1 - t) * (1 - t) * (1 - t) * (6 * (t * t) + 3 * t + 1)) by lra.
  assert (H1 : 0 <= (1 - t) * (1 - t) * (1 - t))
    by (apply Rmult_le_pos; [apply Rmult_le_pos|]; lra).
  assert (H2 : 0 <= 6 * (t * t) + 3 * t + 1) by nra.
  pose proof (Rmult_le_pos _ _ H1 H2). lra.
Qed.

(** X14.  The colour blend of the fragment shader is a proper blend for
    every value of [vState]: its factor lies between 0 and 1, is 0 at
    and below [vState] 0 (the photo only) and 1 at and above [vState] 1
    (the sparkle only), and it does not decrease as [vState] grows. *)
Theorem shader_colour_blend_in_range v :
  0 <= GLSL.mixT v <= 1
  /\ (v <= 0 -> GLSL.mixT v = 0)
  /\ (1 <= v -> GLSL.mixT v = 1)
  /\ forall v', v <= v' -> GLSL.mixT v <= GLSL.mixT v'.
Proof.
  unfold GLSL.mixT. cbv zeta.
  split; [apply smootherstep_unit, clamp_unit|].
  split; [|split].
  - intros Hv. replace (GLSL.clamp v 0.0 1.0) with 0; [lra|].
    unfold GLSL.clamp. rewrite Rmax_right by lra. rewrite Rmin_left; lra.
  - intros Hv. replace (GLSL.clamp v 0.0 1.0) with 1; [lra|].
    unfold GLSL.clamp. rewrite Rmax_left by lra. rewrite Rmin_right; lra.
  - intros v' Hle.
    pose proof (clamp_unit v) as Ha. pose proof (clamp_unit v') as Hb.
    assert (Hab : GLSL.clamp v 0.0 1.0 <= GLSL.clamp v' 0.0 1.0).
    { unfold GLSL.clamp.
      apply Rle_min_compat_r. apply Rle_max_compat_r. exact Hle. }
    set (a := GLSL.clamp v 0.0 1.0) in *. set (b := GLSL.clamp v' 0.0 1.0) in *.
    (* the derivative 30 t^2 (1 - t)^2 is not negative *)
    assert (Hdiff : b * b * b * (b * (b * 6.0 - 15.0) + 10.0)
                    - a * a * a * (a * (a * 6.0 - 15.0) + 10.0)
                    = (b - a) * (6 * (b*b*b*b + b*b*b*a + b*b*a*a + b*a*a*a + a*a*a*a)
                                 - 15 * (b*b*b + b*b*a + b*a*a + a*a*a)
                                 + 10 * (b*b + b*a + a*a))) by lra.
    assert (Hpos : 0 <= 6 * (b*b*b*b + b*b*b*a + b*b*a*a + b*a*a*a + a*a*a*a)
                        - 15 * (b*b*b + b*b*a + b*a*a + a*a*a)
                        + 10 * (b*b + b*a + a*a)).
    { assert (Hsq : 6 * (b*b*b*b + b*b*b*a + b*b*a*a + b*a*a*a + a*a*a*a)
                    - 15 * (b*b*b + b*b*a + b*a*a + a*a*a)
                    + 10 * (b*b + b*a + a*a)
                    = 30 * (Rsqr (a * (1 - a) + (b - a) * (1 - 2 * a) / 2
                                  - (b - a) * (b - a) / 3)
                            + Rsqr ((b - a) * (1 - 2 * a) - (b - a) * (b - a)) / 12
                            + Rsqr ((b - a) * (b - a)) / 180))
        by (unfold Rsqr; field).
      rewrite Hsq.
      pose proof (Rle_0_sqr (a * (1 - a) + (b - a) * (1 - 2 * a) / 2
                             - (b - a) * (b - a) / 3)).
      pose proof (Rle_0_sqr ((b - a) * (1 - 2 * a) - (b - a) * (b - a))).
      pose proof (Rle_0_sqr ((b - a) * (b - a))).
      lra. }
    assert (0 <= (b - a) * (6 * (b*b*b*b + b*b*b*a + b*b*a*a + b*a*a*a + a*a*a*a)
                                 - 15 * (b*b*b + b*b*a + b*a*a + a*a*a)
                                 + 10 * (b*b + b*a + a*a)))
      by (apply Rmult_le_pos; lra).
    lra.
Qed.

Lemma mod_range a b : 0 < b -> 0 <= GLSL.mod_ a b < b.
Proof.
  intros Hb. unfold GLSL.mod_.
  pose proof (Zfloor_bound (a / b)) as [Hlo Hhi].
  assert (Ha : a = a / b * b) by (field; lra).
  split.
  - assert (b * IZR (Zfloor (a / b)) <= a / b * b) by nra. lra.
  - assert (a / b * b < b * (IZR (Zfloor (a / b)) + 1)) by nra. lra.
Qed.

(** X15.  A snow flake never leaves the band it falls through: its
    height in the snow shader is at least -20 and below 30 at every
    time, and a flake that falls ([aSpeed] not 0) is back at the same
    height after every 50 / [aSpeed] seconds. *)
Theorem snow_stays_in_band pos_y uTime aSpeed :
  -20 <= GLSL.snowY pos_y uTime aSpeed < 30
  /\ (aSpeed <> 0 ->
      GLSL.snowY pos_y (uTime + 50 / aSpeed) aSpeed = GLSL.snowY pos_y uTime aSpeed).
Proof.
  unfold GLSL.snowY. cbv zeta. split.
  - pose proof (mod_range (pos_y - uTime * aSpeed + 10000.0) 50.0 ltac:(lra)). lra.
  - intros Hs. f_equal. unfold GLSL.mod_.
    assert (Hc : (uTime + 50 / aSpeed) * aSpeed = uTime * aSpeed + 50)
      by (field; exact Hs).
    rewrite Hc.
    replace ((pos_y - (uTime * aSpeed + 50) + 10000.0) / 50.0)
      with ((pos_y - uTime * aSpeed + 10000.0) / 50.0 + IZR (-1)) by lra.
    rewrite Zfloor_addz, plus_IZR. lra.
Qed.


(** ** Construction: what [initParticles] gives every particle *)

Ltac read_insert :=
  repeat first
    [ rewrite list_lookup_insert_eq by (rewrite ?length_insert; lia)
    | rewrite list_lookup_insert_ne by lia ].

Lemma floor_of_unit a (n : Z) :
  (0 < n)%Z -> 0 <= a < 1 -> (0 <= Math.floor (a * IZR n) < n)%Z.
Proof.
  intros Hn Ha. unfold Math.floor.
  pose proof (Zfloor_bound (a * IZR n)) as [Hlo Hhi].
  assert (Hn' : 0 < IZR n) by (apply IZR_lt; exact Hn).
  split.
  - apply Zfloor_lub. simpl. nra.
  - apply lt_IZR. nra.
Qed.

Section Construction.

Context `{Three}.

Lemma initParticle_fresh count c cols rows i a :
  allocated count a ->
  (i < count)%nat ->
  (forall j, (j < i)%nat -> freshParticle c cols rows a j) ->
  returns (initParticle c cols rows i a)
    (fun a' => allocated count a'
               /\ forall j, (j < S i)%nat -> freshParticle c cols rows a' j).
Proof.
  intros (Lt & Lr & Lo & Lc & Li & Lp & Ls) Hi Hold.
  unfold initParticle.
  eapply returns_bind; [apply returns_random | intros t0 Ht0].
  eapply returns_bind; [apply returns_random | intros t1 Ht1].
  eapply returns_bind; [apply returns_random | intros t2 Ht2].
  eapply returns_bind; [apply returns_random | intros r0 Hr0].
  eapply returns_bind; [apply returns_random | intros r1 Hr1].
  eapply returns_bind; [apply returns_random | intros r2 Hr2].
  eapply returns_bind; [apply returns_random | intros f Hf].
  eapply returns_bind; [apply returns_random | intros s Hs].
  eapply returns_bind; [apply returns_random | intros h Hh].
  apply returns_ret. split.
  - unfold allocated. cbn. rewrite !length_insert. auto 10.
  - intros j Hj. unfold freshParticle, within. cbn.
    destruct (Nat.eq_dec j i) as [->|Hne].
    + read_insert.
      repeat match goal with |- _ /\ _ => split end;
        try reflexivity;
        try (eexists; split; [reflexivity | lra]).
      * destruct (ltb 0.75 f); eexists; (split; [reflexivity | lra]).
      * exists (Math.floor (h * 8)).
        split; [exact (floor_of_unit h 8 ltac:(lia) Hh)|].
        split; reflexivity.
    + assert (Hlt : (j < i)%nat) by lia.
      specialize (Hold j Hlt). unfold freshParticle, within in Hold.
      read_insert. exact Hold.
Qed.

Lemma initLoop_fresh count c cols rows n i a :
  allocated count a ->
  (i + n = count)%nat ->
  (forall j, (j < i)%nat -> freshParticle c cols rows a j) ->
  returns (initLoop c cols rows n i a)
    (fun a' => allocated count a'
               /\ forall j, (j < count)%nat -> freshParticle c cols rows a' j).
Proof.
  revert i a. induction n as [|n IH]; intros i a Ha Hn Hold; cbn [initLoop].
  - apply returns_ret. split; [exact Ha|]. intros j Hj. apply Hold. lia.
  - eapply returns_bind.
    + apply (initParticle_fresh count); [exact Ha | lia | exact Hold].
    + intros a1 [Ha1 Hfresh]. apply IH; [exact Ha1 | lia | exact Hfresh].
Qed.

(** X16.  [initParticles] returns for every stream of draws in [0, 1),
    and gives each of the [count] particles a target in the cube from
    -25 to 25, three random numbers in [0, 1), its index as id, a photo
    flag that is 0 or 1, a size from 0.8 to below 1.5, the texture offset
    of one of the photo slots 0 to 7 and the default colour; the arrays
    have the lengths allocated for [count] particles. *)
Theorem initParticles_fresh count c cols rows :
  returns (initParticles count c cols rows)
    (fun a => allocated count a
              /\ forall i, (i < count)%nat -> freshParticle c cols rows a i).
Proof.
  unfold initParticles. cbv zeta.
  apply (initLoop_fresh count); [|lia|intros j Hj; lia].
  unfold allocated. cbn. rewrite !length_replicate. auto 10.
Qed.

End Construction.


(** ** Shape targets: what [generateShape] writes for every particle *)

Lemma written_filled P w w' : written P w w' -> filled P 1 w w'.
Proof.
  intros (p & c & HP & ->). unfold filled, setPos, setRGB. cbn.
  split; [lia|]. split; [lia|].
  split; [split; cbn; rewrite !length_insert; reflexivity|].
  split; [intros j Hj; read_insert; reflexivity|].
  split; [intros j Hj; read_insert; reflexivity|].
  intros Hp Hc i Hi. assert (i = 0%nat) as -> by lia.
  exists p, c. split; [exact HP|].
  replace (idx w + (0 + (0 + (0 + 0))))%nat with (idx w) by lia.
  replace (cIdx w + (0 + (0 + (0 + 0))))%nat with (cIdx w) by lia.
  replace (idx w + 1)%nat with (S (idx w)) by lia.
  replace (idx w + 2)%nat with (S (S (idx w))) by lia.
  replace (cIdx w + 1)%nat with (S (cIdx w)) by lia.
  replace (cIdx w + 2)%nat with (S (S (cIdx w))) by lia.
  read_insert. auto 10.
Qed.

Lemma filled_zero P w : filled P 0 w w.
Proof.
  unfold filled. split; [lia|]. split; [lia|].
  split; [apply sameSizes_refl|]. split; [auto|]. split; [auto|].
  intros _ _ i Hi. lia.
Qed.

Lemma filled_step P n w w1 w' :
  filled P 1 w w1 -> filled P n w1 w' -> filled P (S n) w w'.
Proof.
  intros (Hi1 & Hc1 & Hs1 & Hfp1 & Hfc1 & Hone) (Hi & Hc & Hs & Hfp & Hfc & Hall).
  unfold filled.
  split; [lia|]. split; [lia|].
  split; [eapply sameSizes_trans; eassumption|].
  split; [intros j Hj; rewrite Hfp by lia; apply Hfp1; exact Hj|].
  split; [intros j Hj; rewrite Hfc by lia; apply Hfc1; exact Hj|].
  intros Hp Hcl i Hlt.
  destruct Hs1 as [Hlp Hlc].
  destruct i as [|i].
  - destruct (Hone ltac:(lia) ltac:(lia) 0%nat ltac:(lia))
      as (p & c & HP & Hx & Hy & Hz & Hr & Hg & Hb).
    exists p, c. split; [exact HP|].
    rewrite !Hfp, !Hfc by lia. auto 10.
  - destruct (Hall ltac:(lia) ltac:(lia) i ltac:(lia))
      as (p & c & HP & Hx & Hy & Hz & Hr & Hg & Hb).
    exists p, c. split; [exact HP|].
    replace (idx w + 3 * S i)%nat with (idx w1 + 3 * i)%nat by lia.
    replace (cIdx w + 3 * S i)%nat with (cIdx w1 + 3 * i)%nat by lia.
    auto 10.
Qed.

Lemma forParticles_filled P n body w :
  (forall w0, post (body w0) (written P w0)) ->
  post (forParticles n body w) (filled P n w).
Proof.
  intros Hbody. revert w. induction n as [|n IH]; intros w; cbn [forParticles].
  - apply post_ret. apply filled_zero.
  - apply post_bind. intros g w1 g1 E1 g2 w' g3 E2.
    eapply filled_step.
    + apply written_filled. exact (Hbody w g w1 g1 E1).
    + exact (IH w1 g2 w' g3 E2).
Qed.

Lemma sampleHeart_inside fuel : post (sampleHeart fuel) (fun p => insideHeart p = true).
Proof.
  induction fuel as [|fuel IH]; cbn [sampleHeart].
  - intros g a g' E. discriminate.
  - apply post_bind_any. intros a. apply post_bind_any. intros b.
    apply post_bind_any. intros c. cbv zeta.
    destruct (insideHeart (heartCandidate a b c)) eqn:E; [|exact IH].
    apply post_ret. exact E.
Qed.

Section Hearts.

Context `{Three}.

Lemma heartParticle_written fuel col w :
  post (heartParticle fuel col w)
    (written (fun p c => c = col /\ exists q, insideHeart q = true
                                              /\ p = Vec.multiplyScalar q 10) w).
Proof.
  unfold heartParticle. cbv zeta. apply post_bind.
  intros g q g1 E. apply post_ret.
  exists (Vec.multiplyScalar q 10), col.
  split; [|reflexivity]. split; [reflexivity|]. exists q.
  split; [exact (sampleHeart_inside fuel g q g1 E) | reflexivity].
Qed.

(** A run of [generateShape] that builds the heart ends with the arrays
    that the heart loop has filled. *)
Lemma generateShape_heart_run fuel type st g st' g' :
  type = "heart" \/ includes allowedShapes type = false ->
  generateShape fuel type st g = Some (st', g') ->
  exists w',
    filled (fun p c => c = color st
                       /\ exists q, insideHeart q = true
                                    /\ p = Vec.multiplyScalar q 10)
      (particleCount st)
      (mkGen (aTargetPos (attributes st)) (aColor (attributes st)) 0 0) w'
    /\ aTargetPos (attributes st') = positions w'
    /\ aColor (attributes st') = colors w'.
Proof.
  intros Htype Hrun.
  assert (Hheart : (if includes allowedShapes type then type else "heart") = "heart").
  { destruct Htype as [-> | ->]; reflexivity. }
  unfold generateShape in Hrun. cbv zeta in Hrun. rewrite bind_run in Hrun.
  rewrite Hheart in Hrun.
  cbn [String.eqb Ascii.eqb Bool.eqb particleCount attributes color] in Hrun.
  match type of Hrun with
  | context [forParticles ?n ?b ?w g] =>
      destruct (forParticles n b w g) as [[w' g1]|] eqn:E; [|discriminate]
  end.
  rewrite ret_run in Hrun. injection Hrun as <- _.
  exists w'. split; [|split; reflexivity].
  exact (forParticles_filled _ _ _ _ (heartParticle_written fuel (color st)) g w' g1 E).
Qed.

(** X17.  When [generateShape] builds the heart (asked for by name, or
    as the fallback for a name that is not allowed), every particle
    gets the engine's colour and a target that is ten times a point of
    the heart volume. *)
Theorem heart_fills_every_particle fuel type st g st' g' :
  wellFormed st ->
  type = "heart" \/ includes allowedShapes type = false ->
  generateShape fuel type st g = Some (st', g') ->
  forall i, (i < particleCount st)%nat ->
    colourOf (attributes st') i (color st)
    /\ exists q, insideHeart q = true
                 /\ targetOf (attributes st') i (Vec.multiplyScalar q 10).
Proof.
  intros (_ & _ & Hlt & _ & Hlc) Htype Hrun i Hi.
  destruct (generateShape_heart_run fuel type st g st' g' Htype Hrun)
    as (w' & (_ & _ & _ & _ & _ & Hall) & Hpos & Hcol).
  cbn [idx cIdx positions colors] in Hall.
  destruct (Hall ltac:(lia) ltac:(lia) i Hi)
    as (p & c & (-> & q & Hq & ->) & Hx & Hy & Hz & Hr & Hgr & Hb).
  unfold colourOf, targetOf. rewrite Hpos, Hcol.
  replace (i * 3)%nat with (0 + 3 * i)%nat by lia.
  split; [auto|]. exists q. auto.
Qed.

(** X18.  A colour input alone recolours no particle: it changes the
    engine's colour and leaves every attribute as it is.  The particles
    take the colour when the heart is built next: after the shape button
    for the heart, or for a name that is not allowed, every particle has
    the colour that was put in. *)
Theorem colour_applies_at_next_heart hex fuel shape st g st' g' :
  wellFormed st ->
  shape = "heart" \/ includes allowedShapes shape = false ->
  setShape fuel shape (setColor hex st) g = Some (st', g') ->
  attributes (setColor hex st) = attributes st
  /\ color st' = color_ofHex hex
  /\ forall i, (i < particleCount st)%nat ->
       colourOf (attributes st') i (color_ofHex hex).
Proof.
  intros Hwf Hshape Hrun. split; [reflexivity|].
  unfold setShape in Hrun. rewrite bind_run in Hrun.
  destruct (generateShape fuel shape (setColor hex st) g) as [[st1 g1]|] eqn:E;
    [|discriminate].
  rewrite ret_run in Hrun.
  destruct (generateShape_heart_run fuel shape (setColor hex st) g st1 g1 Hshape E)
    as (w' & (_ & _ & _ & _ & _ & Hall) & _ & Hcol).
  pose proof (generateShape_result _ _ _ _ _ _ E) as (w & _ & Hst1).
  assert (Hheart : currentShape st1 = "heart").
  { rewrite Hst1. cbn [currentShape]. destruct Hshape as [-> | ->]; reflexivity. }
  rewrite Hheart in Hrun. cbn [String.eqb Ascii.eqb Bool.eqb] in Hrun.
  injection Hrun as <- _.
  split; [rewrite Hst1; reflexivity|].
  intros i Hi. destruct Hwf as (_ & _ & Hlt & _ & Hlc).
  cbn [idx cIdx positions colors setColor attributes particleCount color] in Hall.
  destruct (Hall ltac:(lia) ltac:(lia) i Hi)
    as (p & c & (-> & _) & _ & _ & _ & Hr & Hgr & Hb).
  unfold colourOf. rewrite Hcol.
  replace (i * 3)%nat with (0 + 3 * i)%nat by lia. auto.
Qed.

End Hearts.

Lemma heart_fills_every_particle_witness :
  exists st' g',
    generateShape 1 "heart" twoParticles (constantDraws (1 / 2)) = Some (st', g')
    /\ colourOf (attributes st') 1 (color twoParticles)
    /\ exists q, insideHeart q = true
                 /\ targetOf (attributes st') 1 (Vec.multiplyScalar q 10).
Proof.
  destruct (generateShape_heart_returns 1 twoParticles (constantDraws (1 / 2))
              centre_always_accepted) as (st' & g' & Hrun).
  exists st', g'. split; [exact Hrun|].
  apply (heart_fills_every_particle 1 "heart" twoParticles (constantDraws (1 / 2))
           st' g' wellFormed_twoParticles (or_introl eq_refl) Hrun 1%nat).
  cbn. lia.
Defined.

Lemma colour_applies_at_next_heart_witness :
  exists st' g',
    setShape 1 "heart" (setColor "#00ff00" twoParticles) (constantDraws (1 / 2))
    = Some (st', g')
    /\ color st' = color_ofHex "#00ff00"
    /\ colourOf (attributes st') 0 (color_ofHex "#00ff00").
Proof.
  destruct (generateShape_heart_returns 1 (setColor "#00ff00" twoParticles)
              (constantDraws (1 / 2)) centre_always_accepted) as (st1 & g1 & Hgen).
  assert (Hrun : exists st' g',
            setShape 1 "heart" (setColor "#00ff00" twoParticles) (constantDraws (1 / 2))
            = Some (st', g')).
  { unfold setShape. rewrite bind_run, Hgen. rewrite ret_run. eauto. }
  destruct Hrun as (st' & g' & Hrun). exists st', g'. split; [exact Hrun|].
  destruct (colour_applies_at_next_heart "#00ff00" 1 "heart" twoParticles
              (constantDraws (1 / 2)) st' g' wellFormed_twoParticles
              (or_introl eq_refl) Hrun) as (_ & Hc & Hall).
  split; [exact Hc|]. apply Hall. cbn. lia.
Defined.


(** ** The photo atlas: drawing *)

(** [Math.floor(a / b)] on integers is the integer quotient. *)
Lemma floor_quotient (a b : Z) :
  (0 < b)%Z -> Math.floor (IZR a / IZR b) = (a / b)%Z.
Proof.
  intros Hb. unfold Math.floor. apply Zfloor_eq.
  assert (Hb' : 0 < IZR b) by (apply IZR_lt; exact Hb).
  pose proof (Z.div_mod a b ltac:(lia)) as Hdm.
  pose proof (Z.mod_pos_bound a b Hb) as [Hr0 Hr1].
  assert (Ha : IZR a = IZR b * IZR (a / b) + IZR (a mod b)).
  { rewrite <- mult_IZR, <- plus_IZR. f_equal. exact Hdm. }
  apply IZR_le in Hr0. apply IZR_lt in Hr1.
  assert (Hq : IZR a / IZR b = IZR (a / b) + IZR (a mod b) / IZR b).
  { rewrite Ha. field. lra. }
  rewrite Hq.
  assert (0 <= IZR (a mod b) / IZR b < 1).
  { split.
    - apply Rmult_le_pos; [exact Hr0 | left; apply Rinv_0_lt_compat; exact Hb'].
    - apply (Rmult_lt_reg_r (IZR b)); [exact Hb'|].
      replace (IZR (a mod b) / IZR b * IZR b) with (IZR (a mod b)) by (field; lra).
      lra. }
  lra.
Qed.

(** The column and the row of a slot. *)
Lemma slot_cell (cols slot : Z) :
  (0 < cols)%Z -> (0 <= slot)%Z ->
  Z.rem slot cols = (slot mod cols)%Z
  /\ Math.floor (IZR slot / IZR cols) = (slot / cols)%Z.
Proof.
  intros Hc Hs. split; [apply Z.rem_mod_nonneg; lia | apply floor_quotient; exact Hc].
Qed.

(** X19.  The part of an image that is drawn into a slot is the centre
    square: as wide as high, with the shorter side of the image as its
    side, inside the image and around its centre. *)
Theorem crop_is_centre_square size cols rows img slot :
  0 < img_width img ->
  0 < img_height img ->
  let c := _drawImageToSlot size cols rows img slot in
  src_w c = Rmin (img_width img) (img_height img)
  /\ src_h c = src_w c
  /\ 0 <= src_x c /\ src_x c + src_w c <= img_width img
  /\ 0 <= src_y c /\ src_y c + src_h c <= img_height img
  /\ src_x c + src_w c / 2 = img_width img / 2
  /\ src_y c + src_h c / 2 = img_height img / 2.
Proof.
  intros Hw Hh. unfold _drawImageToSlot, cropToSquare. cbv zeta.
  destruct (Rlt_dec 1 (img_width img / img_height img)) as [Hl|Hp]; cbn.
  - assert (img_height img < img_width img).
    { apply (Rmult_lt_compat_r (img_height img)) in Hl; [|exact Hh].
      replace (img_width img / img_height img * img_height img)
        with (img_width img) in Hl by (field; lra). lra. }
    rewrite Rmin_right by lra. repeat split; lra.
  - assert (img_width img <= img_height img).
    { apply Rnot_lt_le in Hp.
      apply (Rmult_le_compat_r (img_height img)) in Hp; [|lra].
      replace (img_width img / img_height img * img_height img)
        with (img_width img) in Hp by (field; lra). lra. }
    rewrite Rmin_left by lra. repeat split; lra.
Qed.

Lemma crop_is_centre_square_witness :
  let c := _drawImageToSlot 4096 8 8 landscape 9 in
  src_w c = Rmin 1200 800 /\ src_h c = src_w c.
Proof.
  pose proof (crop_is_centre_square 4096 8 8 landscape 9
                ltac:(cbn; lra) ltac:(cbn; lra)) as (Hw & Hh & _).
  split; [exact Hw | exact Hh].
Defined.

Lemma cell_on_canvas size (cols k : Z) :
  0 < size -> (0 < cols)%Z -> (0 <= k < cols)%Z ->
  0 <= IZR k * (size / IZR cols)
  /\ IZR k * (size / IZR cols) + size / IZR cols <= size.
Proof.
  intros Hs Hc [Hk0 Hk1].
  assert (Hc' : 0 < IZR cols) by (apply IZR_lt; exact Hc).
  assert (Hw : 0 < size / IZR cols) by (apply Rdiv_lt_0_compat; assumption).
  apply IZR_le in Hk0. assert (Hk1' : IZR k + 1 <= IZR cols).
  { rewrite <- plus_IZR. apply IZR_le. lia. }
  split; [apply Rmult_le_pos; lra|].
  replace size with (IZR cols * (size / IZR cols)) at 3 by (field; lra).
  nra.
Qed.

Lemma cells_apart size (cols k k' : Z) :
  0 < size -> (0 < cols)%Z -> (k < k')%Z ->
  IZR k * (size / IZR cols) + size / IZR cols <= IZR k' * (size / IZR cols).
Proof.
  intros Hs Hc Hk.
  assert (Hc' : 0 < IZR cols) by (apply IZR_lt; exact Hc).
  assert (Hw : 0 < size / IZR cols) by (apply Rdiv_lt_0_compat; assumption).
  assert (IZR k + 1 <= IZR k') by (rewrite <- plus_IZR; apply IZR_le; lia).
  nra.
Qed.

(** The eight initial photos are drawn as any later photo is: the
    [onload] handler of [createPhotoAtlas] for the photo number [index]
    makes the [drawImage] call of [_drawImageToSlot] for the slot
    [index]. *)
Lemma initial_photos_drawn_as_slots size cols rows index img :
  createPhotoAtlas_onload size cols rows index img
  = _drawImageToSlot size cols rows img index.
Proof.
  unfold createPhotoAtlas_onload, _drawImageToSlot, cropToSquare. cbv zeta.
  destruct (Rlt_dec 1 (img_width img / img_height img)); reflexivity.
Qed.

(** X20.  The slots tile the atlas: a slot from 0 to below
    [cols * rows] is drawn into a cell that lies on the canvas, two
    different slots are drawn into cells that do not overlap, and the
    initial photos of [createPhotoAtlas] are drawn into the cells of
    their numbers by the same rule. *)
Theorem slots_tile_the_atlas size cols rows img img' slot slot' :
  0 < size ->
  (0 < cols)%Z -> (0 < rows)%Z ->
  (0 <= slot < cols * rows)%Z ->
  (0 <= slot' < cols * rows)%Z ->
  let c := _drawImageToSlot size cols rows img slot in
  let c' := _drawImageToSlot size cols rows img' slot' in
  onCanvas size c
  /\ (slot <> slot' -> apart c c')
  /\ createPhotoAtlas_onload size cols rows slot img = c.
Proof.
  intros Hs Hc Hr Hslot Hslot' c c'. subst c c'.
  rewrite initial_photos_drawn_as_slots.
  cut (onCanvas size (_drawImageToSlot size cols rows img slot)
       /\ (slot <> slot' ->
           apart (_drawImageToSlot size cols rows img slot)
                 (_drawImageToSlot size cols rows img' slot'))); [tauto|].
  unfold _drawImageToSlot, onCanvas, apart. cbv zeta.
  destruct (cropToSquare img) as [[[sx sy] sw] sh].
  destruct (cropToSquare img') as [[[sx' sy'] sw'] sh'].
  cbn.
  destruct (slot_cell cols slot Hc ltac:(lia)) as [-> ->].
  destruct (slot_cell cols slot' Hc ltac:(lia)) as [-> ->].
  pose proof (Z.mod_pos_bound slot cols Hc) as Hcol.
  pose proof (Z.mod_pos_bound slot' cols Hc) as Hcol'.
  assert (Hrow : (0 <= slot / cols < rows)%Z).
  { split; [apply Z.div_pos; lia | apply Z.div_lt_upper_bound; lia]. }
  assert (Hrow' : (0 <= slot' / cols < rows)%Z).
  { split; [apply Z.div_pos; lia | apply Z.div_lt_upper_bound; lia]. }
  split.
  - pose proof (cell_on_canvas size cols _ Hs Hc Hcol).
    pose proof (cell_on_canvas size rows _ Hs Hr Hrow). tauto.
  - intros Hne.
    destruct (Z.lt_total (slot mod cols) (slot' mod cols)) as [Hlt|[Heq|Hgt]].
    + left. apply cells_apart; assumption.
    + destruct (Z.lt_total (slot / cols) (slot' / cols)) as [Hlt|[Heq'|Hgt]].
      * right. right. left. apply cells_apart; assumption.
      * exfalso. apply Hne.
        rewrite (Z.div_mod slot cols), (Z.div_mod slot' cols) by lia.
        rewrite Heq, Heq'. reflexivity.
      * right. right. right. apply cells_apart; assumption.
    + right. left. apply cells_apart; assumption.
Qed.

Lemma slots_tile_the_atlas_witness :
  onCanvas 4096 (_drawImageToSlot 4096 8 8 landscape 9)
  /\ apart (_drawImageToSlot 4096 8 8 landscape 9)
           (_drawImageToSlot 4096 8 8 landscape 17).
Proof.
  destruct (slots_tile_the_atlas 4096 8 8 landscape landscape 9 17
              ltac:(lra) ltac:(lia) ltac:(lia) ltac:(lia) ltac:(lia))
    as (Hon & Hapart & _).
  split; [exact Hon | apply Hapart; lia].
Defined.

(** X21.  On a square grid the texture offset that the particles and the
    popup are given for a slot is the corner of the cell that the slot
    was drawn into: the left edge of the cell over the atlas size, and
    one minus the lower edge of the cell over the atlas size (the
    texture is flipped). *)
Theorem texture_offset_is_cell_corner size n img slot :
  0 < size ->
  (0 < n)%Z ->
  let c := _drawImageToSlot size n n img slot in
  slotOffset n n slot = (dst_x c / size, 1 - (dst_y c + dst_h c) / size).
Proof.
  intros Hs Hn c. subst c. unfold _drawImageToSlot, slotOffset. cbv zeta.
  destruct (cropToSquare img) as [[[sx sy] sw] sh]. cbn.
  assert (Hn' : 0 < IZR n) by (apply IZR_lt; exact Hn).
  f_equal.
  - replace (1.0) with 1 by lra. field. lra.
  - rewrite !minus_IZR. replace (1.0) with 1 by lra. field. lra.
Qed.

Lemma texture_offset_is_cell_corner_witness :
  let c := _drawImageToSlot 4096 8 8 landscape 9 in
  slotOffset 8 8 9 = (dst_x c / 4096, 1 - (dst_y c + dst_h c) / 4096).
Proof.
  exact (texture_offset_is_cell_corner 4096 8 landscape 9 ltac:(lra) ltac:(lia)).
Defined.


(** ** The photo atlas: counters and assignments *)

Lemma returns_mono {A} (m : M A) (P Q : A -> Prop) :
  returns m P -> (forall a, P a -> Q a) -> returns m Q.
Proof.
  intros Hm HPQ g Hg. destruct (Hm g Hg) as (a & g' & E & Hd & Ha).
  exists a, g'. auto.
Qed.

Lemma assignLoop_returns n i isPhotos cols rows maxSlots offs :
  (0 < maxSlots)%Z ->
  (2 * (i + n) <= length offs)%nat ->
  returns (assignLoop n i isPhotos cols rows maxSlots offs)
    (fun offs' =>
       length offs' = length offs
       /\ (forall j, (j < 2 * i)%nat -> offs' !! j = offs !! j)
       /\ forall p, (i <= p < i + n)%nat ->
            if isPhotoAt isPhotos (Z.of_nat p)
            then exists k, (0 <= k < maxSlots)%Z /\ showsSlot cols rows offs' p k
            else offs' !! (p * 2)%nat = offs !! (p * 2)%nat
                 /\ offs' !! (p * 2 + 1)%nat = offs !! (p * 2 + 1)%nat).
Proof.
  intros Hmax. revert i offs.
  induction n as [|n IH]; intros i offs Hlen; cbn [assignLoop].
  - apply returns_ret. split; [reflexivity|]. split; [auto|]. intros p Hp. lia.
  - destruct (isPhotoAt isPhotos (Z.of_nat i)) eqn:Ephoto.
    + eapply returns_bind; [apply returns_random | intros a Ha]. cbv zeta.
      eapply returns_mono.
      * apply (IH (S i)). rewrite !length_insert. lia.
      * cbv beta. intros offs' (Hl & Hframe & Hall). rewrite !length_insert in Hl.
        split; [exact Hl|]. split.
        { intros j Hj. rewrite Hframe by lia. read_insert. reflexivity. }
        intros p Hp. destruct (Nat.eq_dec p i) as [->|Hne].
        -- rewrite Ephoto. exists (Math.floor (a * IZR maxSlots)).
           split; [exact (floor_of_unit a maxSlots Hmax Ha)|].
           unfold showsSlot, slotOffset. cbv zeta. cbn [fst snd].
           rewrite !Hframe by lia. read_insert. split; reflexivity.
        -- specialize (Hall p ltac:(lia)).
           destruct (isPhotoAt isPhotos (Z.of_nat p)); [exact Hall|].
           destruct Hall as [H0 H1]. rewrite H0, H1. read_insert. split; reflexivity.
    + eapply returns_mono.
      * apply (IH (S i)). lia.
      * cbv beta. intros offs' (Hl & Hframe & Hall).
        split; [exact Hl|]. split; [intros j Hj; apply Hframe; lia|].
        intros p Hp. destruct (Nat.eq_dec p i) as [->|Hne].
        -- rewrite Ephoto. split; apply Hframe; lia.
        -- apply Hall. lia.
Qed.

Lemma assignLoop_runs n i isPhotos cols rows maxSlots offs g :
  exists offs' g', assignLoop n i isPhotos cols rows maxSlots offs g = Some (offs', g').
Proof.
  revert i offs g. induction n as [|n IH]; intros i offs g; cbn [assignLoop].
  - eexists _, _. reflexivity.
  - destruct (isPhotoAt isPhotos (Z.of_nat i)); [|apply IH].
    rewrite bind_run. cbn [random]. apply IH.
Qed.

(** [updateParticlePhotoAssignments] returns, whatever the draws, and
    changes the texture offsets only. *)
Lemma updateParticlePhotoAssignments_runs st g :
  exists offs g',
    updateParticlePhotoAssignments st g
    = Some (set_attributes
              (mkAttributes (aTargetPos (attributes st)) (aRandom (attributes st)) offs
                 (aColor (attributes st)) (aID (attributes st))
                 (aIsPhoto (attributes st)) (aSize (attributes st))) st, g').
Proof.
  unfold updateParticlePhotoAssignments. cbv zeta. rewrite bind_run.
  destruct (assignLoop_runs (particleCount st) 0 (aIsPhoto (attributes st))
              (atlasCols st) (atlasRows st)
              (Z.min (photoCount st) (atlasCols st * atlasRows st))
              (aImgOffset (attributes st)) g) as (offs & g' & ->).
  rewrite ret_run. eauto.
Qed.

(** X22.  When photos are reassigned, every particle that carries a
    photo is given the texture offset of a loaded photo, a slot from 0
    to below the smaller of [photoCount] and the number of slots; the
    offsets of the other particles, and every other attribute, stay as
    they are. *)
Theorem photo_particles_show_loaded_photos st :
  length (aImgOffset (attributes st)) = (particleCount st * 2)%nat ->
  (0 < photoCount st)%Z ->
  (0 < atlasCols st)%Z -> (0 < atlasRows st)%Z ->
  returns (updateParticlePhotoAssignments st)
    (fun st' =>
       let a := attributes st in
       let offs' := aImgOffset (attributes st') in
       st' = set_attributes
               (mkAttributes (aTargetPos a) (aRandom a) offs' (aColor a) (aID a)
                  (aIsPhoto a) (aSize a)) st
       /\ length offs' = length (aImgOffset a)
       /\ forall i, (i < particleCount st)%nat ->
            if isPhotoAt (aIsPhoto a) (Z.of_nat i)
            then exists k,
                   (0 <= k < Z.min (photoCount st) (atlasCols st * atlasRows st))%Z
                   /\ showsSlot (atlasCols st) (atlasRows st) offs' i k
            else offs' !! (i * 2)%nat = aImgOffset a !! (i * 2)%nat
                 /\ offs' !! (i * 2 + 1)%nat = aImgOffset a !! (i * 2 + 1)%nat).
Proof.
  intros Hlen Hcount Hcols Hrows.
  unfold updateParticlePhotoAssignments. cbv zeta.
  eapply returns_bind.
  - apply assignLoop_returns; [nia | lia].
  - cbv beta. intros offs' (Hl & _ & Hall). apply returns_ret.
    cbn [attributes set_attributes aImgOffset].
    split; [reflexivity|]. split; [exact Hl|].
    intros i Hi. apply Hall. lia.
Qed.

Lemma photo_particles_show_loaded_photos_witness :
  exists st' g',
    updateParticlePhotoAssignments twoParticles (constantDraws (1 / 2)) = Some (st', g')
    /\ exists k, (0 <= k < 8)%Z
                 /\ showsSlot 8 8 (aImgOffset (attributes st')) 0 k.
Proof.
  destruct (photo_particles_show_loaded_photos twoParticles
              eq_refl ltac:(cbn; lia) ltac:(cbn; lia) ltac:(cbn; lia)
              (constantDraws (1 / 2)) ltac:(intros n; cbn; lra))
    as (st' & g' & Hrun & _ & _ & _ & Hall).
  exists st', g'. split; [exact Hrun|].
  specialize (Hall 0%nat ltac:(cbn; lia)).
  assert (Hphoto : isPhotoAt (aIsPhoto (attributes twoParticles)) (Z.of_nat 0) = true).
  { cbn. apply ltb_true. lra. }
  rewrite Hphoto in Hall. exact Hall.
Defined.

Section Popup.

Context `{Three}.

(** X23.  The photo in the popup is a loaded photo: a click that starts
    the popup gives it the texture offset of a slot from 0 to below
    [photoCount], chosen by the first draw of the click; a click that
    starts no popup changes nothing. *)
Theorem popup_shows_loaded_photo st g st' g' :
  unitDraws g ->
  (0 < photoCount st)%Z ->
  onClick st g = Some (st', g') ->
  st' = st
  \/ (active (popupState st') = true
      /\ exists k, (0 <= k < photoCount st)%Z
                   /\ k = Math.floor (draws g (cursor g) * IZR (photoCount st))
                   /\ uImgOffset (popupMesh st')
                      = slotOffset (atlasCols st) (atlasRows st) k).
Proof.
  intros Hg Hcount Hrun. apply onClick_result in Hrun.
  destruct Hrun as [-> | (r & _ & _ & ->)]; [left; reflexivity|].
  right. split; [reflexivity|].
  exists (Math.floor (draws g (cursor g) * IZR (photoCount st))).
  split; [exact (floor_of_unit _ _ Hcount (Hg (cursor g)))|].
  split; reflexivity.
Qed.

End Popup.

(** *** Uploads and restores *)

Lemma addPhotoToAtlas_run img at_ g :
  atlasReady at_ = true ->
  let st := system at_ in
  let maxSlots := (atlasCols st * atlasRows st)%Z in
  exists at' g',
    addPhotoToAtlas img at_ g
    = Some ((Some (Z.rem (nextPhotoSlot at_) maxSlots), at'), g')
    /\ nextPhotoSlot at' = (nextPhotoSlot at_ + 1)%Z
    /\ photoCount (system at')
       = (if (photoCount st <? nextPhotoSlot at_ + 1)%Z
          then Z.min (nextPhotoSlot at_ + 1) maxSlots else photoCount st)
    /\ grid at' = grid at_
    /\ atlasReady at' = true
    /\ atlasSize at' = atlasSize at_
    /\ drawn at'
       = _drawImageToSlot (atlasSize at_) (atlasCols st) (atlasRows st) img
           (Z.rem (nextPhotoSlot at_) maxSlots) :: drawn at_.
Proof.
  intros Hready st maxSlots. unfold addPhotoToAtlas. rewrite Hready. cbn [negb].
  cbv zeta. rewrite bind_run.
  match goal with
  | |- context [updateParticlePhotoAssignments ?s g] =>
      destruct (updateParticlePhotoAssignments_runs s g) as (offs & g' & ->)
  end.
  rewrite ret_run. eexists _, _. split; [reflexivity|].
  cbn [nextPhotoSlot system atlasReady atlasSize drawn].
  unfold grid. cbn [system].
  fold st. destruct (photoCount st <? nextPhotoSlot at_ + 1)%Z; cbn; auto 10.
Qed.

Lemma addPhotoToAtlasAtSlot_run img slot at_ g :
  atlasReady at_ = true ->
  let st := system at_ in
  exists at' g',
    addPhotoToAtlasAtSlot img slot at_ g = Some ((true, at'), g')
    /\ counters at' = restoreStep (atlasCols st * atlasRows st) (counters at_) slot
    /\ grid at' = grid at_
    /\ atlasReady at' = true
    /\ atlasSize at' = atlasSize at_
    /\ drawn at'
       = _drawImageToSlot (atlasSize at_) (atlasCols st) (atlasRows st) img slot
         :: drawn at_.
Proof.
  intros Hready st. unfold addPhotoToAtlasAtSlot. rewrite Hready. cbn [negb].
  cbv zeta. rewrite bind_run.
  match goal with
  | |- context [updateParticlePhotoAssignments ?s g] =>
      destruct (updateParticlePhotoAssignments_runs s g) as (offs & g' & ->)
  end.
  rewrite ret_run. eexists _, _. split; [reflexivity|].
  unfold counters, grid, restoreStep.
  cbn [nextPhotoSlot system atlasReady atlasSize drawn].
  fold st.
  destruct ((photoCount st <=? slot)%Z && (slot <? atlasCols st * atlasRows st)%Z);
    cbn; auto 10.
Qed.

Lemma uploadSlots_lookup maxSlots next n k :
  (k < n)%nat ->
  uploadSlots maxSlots next n !! k = Some (Z.rem (next + Z.of_nat k) maxSlots).
Proof.
  revert next k. induction n as [|n IH]; intros next k Hk; [lia|].
  cbn [uploadSlots]. destruct k as [|k].
  - cbn. do 2 f_equal. lia.
  - cbn [lookup list_lookup]. change (uploadSlots maxSlots (next + 1) n !! k
      = Some (Z.rem (next + Z.of_nat (S k)) maxSlots)).
    rewrite IH by lia. do 2 f_equal. lia.
Qed.

Lemma drawCalls_cons size cols rows slot img photos tail :
  drawCalls size cols rows ((slot, img) :: photos) ++ tail
  = drawCalls size cols rows photos
    ++ _drawImageToSlot size cols rows img slot :: tail.
Proof.
  unfold drawCalls. cbn [map rev fst snd]. rewrite <- app_assoc. reflexivity.
Qed.

Lemma uploadPhotos_run imgs at_ g :
  atlasInvariant at_ ->
  let maxSlots := (atlasCols (system at_) * atlasRows (system at_))%Z in
  exists saved at' g',
    uploadPhotos imgs at_ g = Some ((saved, at'), g')
    /\ map fst saved = uploadSlots maxSlots (nextPhotoSlot at_) (length imgs)
    /\ map snd saved = imgs
    /\ nextPhotoSlot at' = (nextPhotoSlot at_ + Z.of_nat (length imgs))%Z
    /\ grid at' = grid at_
    /\ atlasInvariant at'
    /\ atlasSize at' = atlasSize at_
    /\ drawn at'
       = drawCalls (atlasSize at_) (atlasCols (system at_)) (atlasRows (system at_))
           saved ++ drawn at_.
Proof.
  revert at_ g. induction imgs as [|img imgs IH]; intros at_ g Hinv maxSlots.
  - exists [], at_, g. split; [reflexivity|]. split; [reflexivity|].
    split; [reflexivity|]. split; [cbn; lia|]. split; [reflexivity|].
    split; [exact Hinv|]. split; reflexivity.
  - destruct Hinv as (Hready & Hcols & Hrows & Hnext & Hcount).
    cbn [uploadPhotos]. rewrite bind_run.
    destruct (addPhotoToAtlas_run img at_ g Hready)
      as (at1 & g1 & -> & Hn1 & Hc1 & Hg1 & Hr1 & Hsz1 & Hd1).
    cbn [snd fst].
    assert (Hgrid : atlasCols (system at1) = atlasCols (system at_)
                    /\ atlasRows (system at1) = atlasRows (system at_)).
    { unfold grid in Hg1. split; congruence. }
    destruct Hgrid as [Hgc Hgr].
    assert (Hinv1 : atlasInvariant at1).
    { unfold atlasInvariant. cbv zeta. rewrite Hgc, Hgr, Hn1, Hc1.
      split; [exact Hr1|]. split; [exact Hcols|]. split; [exact Hrows|].
      split; [lia|].
      destruct (Z.ltb_spec (photoCount (system at_)) (nextPhotoSlot at_ + 1)); lia. }
    destruct (IH at1 g1 Hinv1)
      as (saved & at' & g' & Hrun & Hs & Himgs & Hn & Hg & Hinv' & Hsz & Hd).
    rewrite bind_run, Hrun, ret_run. cbn [fst snd].
    eexists _, _, _. split; [reflexivity|].
    cbn [map fst snd length uploadSlots].
    rewrite drawCalls_cons.
    rewrite Hs, Himgs, Hn, Hn1, Hg, Hg1, Hsz, Hsz1, Hd, Hd1, Hsz1, Hgc, Hgr.
    split; [reflexivity|]. split; [reflexivity|]. split; [lia|].
    split; [reflexivity|]. split; [exact Hinv'|]. split; reflexivity.
Qed.

(** X24.  Uploads fill the slots in turn: from a ready atlas whose
    counters fit together, any number of uploads return, the k-th of
    them is drawn into and saved under the slot
    [(nextPhotoSlot + k) % (cols * rows)], which is a slot of the grid:
    the [drawImage] calls added to the canvas are those of
    [_drawImageToSlot] for the uploaded images and these slots, in the
    order of the uploads, on the unchanged canvas size.
    [nextPhotoSlot] grows by the number of uploads, and [photoCount]
    is again [nextPhotoSlot] capped at the number of slots. *)
Theorem uploads_fill_slots_in_turn imgs at_ g :
  atlasInvariant at_ ->
  let cols := atlasCols (system at_) in
  let rows := atlasRows (system at_) in
  let maxSlots := (cols * rows)%Z in
  exists saved at' g',
    uploadPhotos imgs at_ g = Some ((saved, at'), g')
    /\ map fst saved = uploadSlots maxSlots (nextPhotoSlot at_) (length imgs)
    /\ Forall (fun s => (0 <= s < maxSlots)%Z) (map fst saved)
    /\ map snd saved = imgs
    /\ nextPhotoSlot at' = (nextPhotoSlot at_ + Z.of_nat (length imgs))%Z
    /\ getPhotoCount at'
       = Z.min (nextPhotoSlot at_ + Z.of_nat (length imgs)) maxSlots
    /\ atlasInvariant at'
    /\ atlasSize at' = atlasSize at_
    /\ drawn at' = drawCalls (atlasSize at_) cols rows saved ++ drawn at_
    /\ forall k img, imgs !! k = Some img ->
         let slot := Z.rem (nextPhotoSlot at_ + Z.of_nat k) maxSlots in
         saved !! k = Some (slot, img)
         /\ rev (drawn at') !! (length (drawn at_) + k)%nat
            = Some (_drawImageToSlot (atlasSize at_) cols rows img slot).
Proof.
  intros Hinv cols rows maxSlots.
  destruct (uploadPhotos_run imgs at_ g Hinv)
    as (saved & at' & g' & Hrun & Hs & Himgs & Hn & Hg & Hinv' & Hsz & Hd).
  fold cols rows in Hs, Hd. fold maxSlots in Hs.
  exists saved, at', g'. split; [exact Hrun|]. split; [exact Hs|].
  split; [|split; [exact Himgs|split; [exact Hn|split;
    [|split; [exact Hinv'|split; [exact Hsz|split; [exact Hd|]]]]]]].
  - rewrite Hs. destruct Hinv as (_ & Hcols & Hrows & Hnext & _).
    assert (Hmax : (0 < maxSlots)%Z) by (unfold maxSlots, cols, rows; nia).
    clear -Hnext Hmax. generalize dependent (nextPhotoSlot at_).
    induction (length imgs) as [|n IH]; intros next Hnext; cbn [uploadSlots].
    + constructor.
    + constructor; [|apply IH; lia].
      rewrite Z.rem_mod_nonneg by lia. apply Z.mod_pos_bound. exact Hmax.
  - destruct Hinv' as (_ & _ & _ & _ & Hcount).
    unfold getPhotoCount. rewrite Hcount, Hn.
    unfold grid in Hg. unfold maxSlots, cols, rows.
    assert (atlasCols (system at') = atlasCols (system at_)) as -> by congruence.
    assert (atlasRows (system at') = atlasRows (system at_)) as -> by congruence.
    reflexivity.
  - intros k img Hk slot.
    assert (Hlt : (k < length imgs)%nat) by (eapply lookup_lt_Some; exact Hk).
    assert (Hsaved : saved !! k = Some (slot, img)).
    { assert (Hf : map fst saved !! k = Some slot).
      { rewrite Hs. apply uploadSlots_lookup. exact Hlt. }
      assert (Hi : map snd saved !! k = Some img) by (rewrite Himgs; exact Hk).
      change (map fst saved) with (fst <$> saved) in Hf.
      change (map snd saved) with (snd <$> saved) in Hi.
      rewrite list_lookup_fmap in Hf. rewrite list_lookup_fmap in Hi.
      destruct (saved !! k) as [[s i]|]; [|discriminate].
      cbn in Hf, Hi. congruence. }
    split; [exact Hsaved|].
    rewrite Hd. unfold drawCalls. rewrite rev_app_distr, rev_involutive.
    rewrite lookup_app_r by (rewrite length_rev; lia).
    rewrite length_rev.
    replace (length (drawn at_) + k - length (drawn at_))%nat with k by lia.
    change (map ?f saved) with (f <$> saved).
    rewrite list_lookup_fmap, Hsaved. reflexivity.
Qed.

Lemma newAtlas_invariant : atlasInvariant newAtlas.
Proof. unfold atlasInvariant. cbn. repeat split; lia. Qed.

Lemma uploads_fill_slots_in_turn_witness :
  exists saved at' g',
    uploadPhotos [landscape; landscape] newAtlas (constantDraws 0)
    = Some ((saved, at'), g')
    /\ map fst saved = [8; 9]%Z
    /\ nextPhotoSlot at' = 10%Z
    /\ getPhotoCount at' = 10%Z
    /\ drawn at' = drawCalls 4096 8 8 saved.
Proof.
  destruct (uploads_fill_slots_in_turn [landscape; landscape] newAtlas
              (constantDraws 0) newAtlas_invariant)
    as (saved & at' & g' & Hrun & Hs & _ & _ & Hn & Hc & _ & _ & Hd & _).
  exists saved, at', g'. split; [exact Hrun|]. split; [exact Hs|].
  split; [exact Hn|]. split; [exact Hc|].
  rewrite Hd. cbn [drawn newAtlas]. apply app_nil_r.
Defined.

(** Before the atlas canvas exists nothing is added: both ways of adding
    a photo return [false] and leave the atlas, the counters and the
    particles as they are, and no slot is handed on for saving. *)
Lemma unready_atlas_takes_no_photo img slot imgs at_ g :
  atlasReady at_ = false ->
  addPhotoToAtlas img at_ g = Some ((None, at_), g)
  /\ addPhotoToAtlasAtSlot img slot at_ g = Some ((false, at_), g)
  /\ uploadPhotos imgs at_ g = Some (([], at_), g).
Proof.
  intros Hready.
  assert (Hadd : forall i g0, addPhotoToAtlas i at_ g0 = Some ((None, at_), g0)).
  { intros i g0. unfold addPhotoToAtlas. rewrite Hready. reflexivity. }
  split; [apply Hadd|]. split.
  - unfold addPhotoToAtlasAtSlot. rewrite Hready. reflexivity.
  - induction imgs as [|i imgs IH]; [reflexivity|].
    cbn [uploadPhotos]. rewrite bind_run, Hadd. cbn [snd fst].
    rewrite bind_run, IH. reflexivity.
Qed.

Lemma restoreStep_comm maxSlots c s s' :
  restoreStep maxSlots (restoreStep maxSlots c s) s'
  = restoreStep maxSlots (restoreStep maxSlots c s') s.
Proof.
  destruct c as [next count]. unfold restoreStep. f_equal.
  - destruct (Z.leb_spec next s); destruct (Z.leb_spec next s');
      repeat match goal with
             | |- context [(?a <=? ?b)%Z] => destruct (Z.leb_spec a b)
             end; lia.
  - destruct (Z.leb_spec count s); destruct (Z.ltb_spec s maxSlots);
      destruct (Z.leb_spec count s'); destruct (Z.ltb_spec s' maxSlots);
      cbn [andb];
      repeat match goal with
             | |- context [(?a <=? ?b)%Z] => destruct (Z.leb_spec a b)
             | |- context [(?a <? ?b)%Z] => destruct (Z.ltb_spec a b)
             end; cbn [andb]; lia.
Qed.

Lemma restoreStep_perm maxSlots l l' c :
  Permutation l l' ->
  fold_left (restoreStep maxSlots) l c = fold_left (restoreStep maxSlots) l' c.
Proof.
  intros Hperm. revert c.
  induction Hperm as [|x l l' _ IH|x y l|l l' l'' _ IH1 _ IH2]; intros c; cbn [fold_left].
  - reflexivity.
  - apply IH.
  - rewrite restoreStep_comm. reflexivity.
  - rewrite IH1. apply IH2.
Qed.

Lemma restorePhotos_run photos at_ g :
  atlasReady at_ = true ->
  exists at' g',
    restorePhotos photos at_ g = Some (at', g')
    /\ counters at'
       = fold_left (restoreStep (atlasCols (system at_) * atlasRows (system at_)))
           (map fst photos) (counters at_)
    /\ grid at' = grid at_
    /\ atlasReady at' = true
    /\ atlasSize at' = atlasSize at_
    /\ drawn at'
       = drawCalls (atlasSize at_) (atlasCols (system at_)) (atlasRows (system at_))
           photos ++ drawn at_.
Proof.
  revert at_ g. induction photos as [|[slot img] photos IH]; intros at_ g Hready.
  - exists at_, g. cbn. auto 10.
  - cbn [restorePhotos]. rewrite bind_run.
    destruct (addPhotoToAtlasAtSlot_run img slot at_ g Hready)
      as (at1 & g1 & -> & Hc1 & Hg1 & Hr1 & Hsz1 & Hd1).
    cbn [snd].
    destruct (IH at1 g1 Hr1) as (at' & g' & Hrun & Hc & Hg & Hr & Hsz & Hd).
    exists at', g'. split; [exact Hrun|].
    cbn [map fst fold_left].
    rewrite drawCalls_cons.
    rewrite Hc, Hc1, Hg, Hg1, Hsz, Hsz1, Hd, Hd1, Hsz1.
    assert (atlasCols (system at1) = atlasCols (system at_)) as ->
      by (unfold grid in Hg1; congruence).
    assert (atlasRows (system at1) = atlasRows (system at_)) as ->
      by (unfold grid in Hg1; congruence).
    repeat split; try reflexivity. exact Hr.
Qed.

Lemma drawCalls_length size cols rows photos :
  length (drawCalls size cols rows photos) = length photos.
Proof. unfold drawCalls. rewrite length_rev, length_map. reflexivity. Qed.

(** X25.  The order in which the stored photos finish loading does not
    matter for the counters: restoring the same photos in any two orders
    returns, with one [drawImage] call per photo, the call of
    [_drawImageToSlot] for that photo and its stored slot, so that both
    orders make the same calls, and ends with the same [nextPhotoSlot]
    and the same [photoCount]. *)
Theorem restore_order_is_irrelevant photos photos' at_ g1 g2 :
  atlasReady at_ = true ->
  Permutation photos photos' ->
  let size := atlasSize at_ in
  let cols := atlasCols (system at_) in
  let rows := atlasRows (system at_) in
  exists at1 g1' at2 g2',
    restorePhotos photos at_ g1 = Some (at1, g1')
    /\ restorePhotos photos' at_ g2 = Some (at2, g2')
    /\ nextPhotoSlot at1 = nextPhotoSlot at2
    /\ getPhotoCount at1 = getPhotoCount at2
    /\ drawn at1 = drawCalls size cols rows photos ++ drawn at_
    /\ drawn at2 = drawCalls size cols rows photos' ++ drawn at_
    /\ length (drawn at1) = (length photos + length (drawn at_))%nat
    /\ Permutation (drawn at1) (drawn at2).
Proof.
  intros Hready Hperm size cols rows.
  destruct (restorePhotos_run photos at_ g1 Hready)
    as (at1 & g1' & H1 & Hc1 & _ & _ & _ & Hd1).
  destruct (restorePhotos_run photos' at_ g2 Hready)
    as (at2 & g2' & H2 & Hc2 & _ & _ & _ & Hd2).
  exists at1, g1', at2, g2'. split; [exact H1|]. split; [exact H2|].
  assert (Hsame : counters at1 = counters at2).
  { rewrite Hc1, Hc2. apply restoreStep_perm. apply Permutation_map. exact Hperm. }
  unfold counters in Hsame. unfold getPhotoCount.
  split; [congruence|]. split; [congruence|].
  split; [exact Hd1|]. split; [exact Hd2|]. split.
  - rewrite Hd1, length_app, drawCalls_length. reflexivity.
  - rewrite Hd1, Hd2. apply Permutation_app_tail. unfold drawCalls.
    rewrite <- !Permutation_rev. apply Permutation_map. exact Hperm.
Qed.

Lemma restore_order_is_irrelevant_witness :
  exists at1 g1' at2 g2',
    restorePhotos [(9, landscape); (12, landscape)]%Z newAtlas (constantDraws 0)
    = Some (at1, g1')
    /\ restorePhotos [(12, landscape); (9, landscape)]%Z newAtlas (constantDraws 0)
       = Some (at2, g2')
    /\ nextPhotoSlot at1 = nextPhotoSlot at2
    /\ getPhotoCount at1 = getPhotoCount at2
    /\ drawn at1 = drawCalls 4096 8 8 [(9, landscape); (12, landscape)]%Z
    /\ drawn at2 = drawCalls 4096 8 8 [(12, landscape); (9, landscape)]%Z.
Proof.
  destruct (restore_order_is_irrelevant
              [(9, landscape); (12, landscape)]%Z [(12, landscape); (9, landscape)]%Z
              newAtlas (constantDraws 0) (constantDraws 0) eq_refl
              (perm_swap _ _ _))
    as (at1 & g1' & at2 & g2' & H1 & H2 & Hn & Hc & Hd1 & Hd2 & _).
  exists at1, g1', at2, g2'.
  split; [exact H1|]. split; [exact H2|]. split; [exact Hn|]. split; [exact Hc|].
  split; [rewrite Hd1 | rewrite Hd2]; cbn [drawn newAtlas]; apply app_nil_r.
Defined.

Lemma restore_uploaded maxSlots next n :
  (0 <= next)%Z -> (next + Z.of_nat n <= maxSlots)%Z ->
  fold_left (restoreStep maxSlots) (uploadSlots maxSlots next n) (next, next)
  = ((next + Z.of_nat n)%Z, (next + Z.of_nat n)%Z).
Proof.
  revert next. induction n as [|n IH]; intros next H0 Hfit; cbn [uploadSlots fold_left].
  - f_equal; lia.
  - rewrite Z.rem_small by lia. unfold restoreStep at 2.
    rewrite Z.leb_refl.
    destruct (Z.ltb_spec next maxSlots); [|lia]. cbn [andb].
    rewrite IH by lia. f_equal; lia.
Qed.

(** X26.  Uploads survive a reload: when the uploads of a session fit
    into the free slots, restoring what was saved for them, in any order,
    on the atlas the session started with gives the [nextPhotoSlot] and
    the [photoCount] that the session ended with. *)
Theorem reload_restores_counters imgs at_ g saved at1 g1 stored g2 :
  atlasInvariant at_ ->
  (nextPhotoSlot at_ + Z.of_nat (length imgs)
   <= atlasCols (system at_) * atlasRows (system at_))%Z ->
  uploadPhotos imgs at_ g = Some ((saved, at1), g1) ->
  Permutation saved stored ->
  exists at2 g3,
    restorePhotos stored at_ g2 = Some (at2, g3)
    /\ nextPhotoSlot at2 = nextPhotoSlot at1
    /\ getPhotoCount at2 = getPhotoCount at1.
Proof.
  intros Hinv Hfit Hup Hperm.
  destruct (uploadPhotos_run imgs at_ g Hinv)
    as (saved' & at1' & g1' & Hrun & Hs & _ & Hn & Hg & Hinv1 & _).
  rewrite Hrun in Hup. injection Hup as -> -> ->.
  pose proof Hinv as (Hready & Hcols & Hrows & Hnext & Hcount).
  destruct (restorePhotos_run stored at_ g2 Hready) as (at2 & g3 & Hres & Hc & _).
  exists at2, g3. split; [exact Hres|].
  rewrite <- (restoreStep_perm _ _ _ _ (Permutation_map fst Hperm)) in Hc.
  rewrite Hs in Hc. unfold counters at 2 in Hc.
  rewrite Hcount, Z.min_l in Hc by lia.
  rewrite restore_uploaded in Hc by lia.
  unfold counters in Hc. injection Hc as Hn2 Hc2.
  destruct Hinv1 as (_ & _ & _ & _ & Hcount1).
  unfold getPhotoCount. rewrite Hn2, Hc2, Hcount1, Hn.
  assert (atlasCols (system at1) = atlasCols (system at_)) as ->
    by (unfold grid in Hg; congruence).
  assert (atlasRows (system at1) = atlasRows (system at_)) as ->
    by (unfold grid in Hg; congruence).
  split; lia.
Qed.

Lemma reload_restores_counters_witness :
  exists saved at1 g1 at2 g3,
    uploadPhotos [landscape; landscape] newAtlas (constantDraws 0)
    = Some ((saved, at1), g1)
    /\ restorePhotos (rev saved) newAtlas (constantDraws 0) = Some (at2, g3)
    /\ nextPhotoSlot at2 = nextPhotoSlot at1
    /\ getPhotoCount at2 = getPhotoCount at1.
Proof.
  destruct (uploadPhotos_run [landscape; landscape] newAtlas (constantDraws 0)
              newAtlas_invariant) as (saved & at1 & g1 & Hrun & _).
  destruct (reload_restores_counters [landscape; landscape] newAtlas (constantDraws 0)
              saved at1 g1 (rev saved) (constantDraws 0)
              newAtlas_invariant ltac:(cbn; lia) Hrun (Permutation_rev saved))
    as (at2 & g3 & Hres & Hn & Hc).
  exists saved, at1, g1, at2, g3. auto.
Defined.

Lemma popup_shows_loaded_photo_witness :
  exists st' g',
    onClick twoParticles (constantDraws (1 / 4)) = Some (st', g')
    /\ (st' = twoParticles
        \/ (active (popupState st') = true
            /\ exists k, (0 <= k < 8)%Z
                 /\ k = Math.floor (draws (constantDraws (1 / 4))
                                      (cursor (constantDraws (1 / 4))) * IZR 8)
                 /\ uImgOffset (popupMesh st') = slotOffset 8 8 k)).
Proof.
  destruct (onClick_hit twoParticles (constantDraws (1 / 4)) 0 eq_refl
              ltac:(lia) firstHit_quarter) as (st' & Hrun & _).
  exists st', (mkRng (draws (constantDraws (1 / 4)))
                 (cursor (constantDraws (1 / 4)) + 2)).
  split; [exact Hrun|].
  apply (popup_shows_loaded_photo twoParticles (constantDraws (1 / 4)) st' _
           ltac:(intros n; cbn; lra) ltac:(cbn; lia) Hrun).
Defined.


(** ** The pose estimator *)

Section Estimator.

Context `{Three}.

(** X27.  [updateHandState] needs the 21 landmarks of a hand: on a frame
    with fewer it throws before anything is assigned, and on every frame
    with 21 or more it returns. *)
Theorem updateHandState_needs_21_landmarks lm tr :
  updateHandState lm tr = None <-> (length lm < 21)%nat.
Proof.
  split; [apply updateHandState_short|].
  intros Hlt.
  assert (H20 : lm !! 20%nat = None) by (apply lookup_ge_None; lia).
  unfold updateHandState, Landmark in *. cbn [mapM]. rewrite H20.
  destruct (lm !! 0%nat); [|reflexivity].
  destruct (lm !! 8%nat); [|reflexivity].
  destruct (lm !! 12%nat); [|reflexivity].
  destruct (lm !! 16%nat); reflexivity.
Qed.

(** X28.  Moving the whole hand in the image changes where it is and
    nothing else: on the frame with every landmark moved by [d],
    [updateHandState] gives the gesture, the depth scale and the
    rotation of the frame itself, and the hand position moved by [d],
    mirrored in x. *)
Theorem hand_translation_moves_position_only d lm tr :
  updateHandState (translateFrame d lm) tr = movedBy d <$> updateHandState lm tr.
Proof.
  unfold updateHandState, translateFrame, Landmark, movedBy in *. cbn [mapM].
  rewrite !list_lookup_fmap.
  destruct (lm !! 0%nat) as [[xw yw zw]|]; [|reflexivity].
  destruct (lm !! 8%nat) as [[x8 y8 z8]|]; [|reflexivity].
  destruct (lm !! 12%nat) as [[x12 y12 z12]|]; [|reflexivity].
  destruct (lm !! 16%nat) as [[x16 y16 z16]|]; [|reflexivity].
  destruct (lm !! 20%nat) as [[x20 y20 z20]|]; [|reflexivity].
  destruct (lm !! 5%nat) as [[x5 y5 z5]|]; [|reflexivity].
  destruct (lm !! 9%nat) as [[x9 y9 z9]|]; [|reflexivity].
  destruct (lm !! 13%nat) as [[x13 y13 z13]|]; [|reflexivity].
  destruct (lm !! 17%nat) as [[x17 y17 z17]|]; [|reflexivity].
  destruct d as [dx dy dz].
  unfold classify, averageDistance, wristDistance, Math.pow2, translateLandmark,
    Vec.subVectors.
  simpl.
  repeat match goal with
         | |- context [?a + ?b - (?c + ?b)] =>
             replace (a + b - (c + b)) with (a - c) by ring
         end.
  do 2 f_equal. f_equal. ring.
Qed.

(** X29.  What the tracker hands to the engine always drives all of
    [update]: for a frame of 21 landmarks the callback gets hand data
    with the position of landmark 9 mirrored in x, with a rotation, and
    with a depth scale that is not 0 (0.2 when the measured one is 0);
    so the engine smooths the position, the orientation and the scale in
    every such frame, the scale towards a target from 1 to 2.5. *)
Theorem tracked_frame_drives_every_step lm others tr l9 dt st :
  (21 <= length lm)%nat ->
  lm !! 9%nat = Some l9 ->
  exists tr' hd,
    handleResults (lm :: others) tr = Some (tr', Some hd)
    /\ hd = getState tr'
    /\ hd_position hd = (1 - v_x l9, v_y l9)
    /\ is_Some (hd_rotation hd)
    /\ hd_scale hd <> 0
    /\ smoothedHandScale (update dt (Some hd) st)
       = smoothedHandScale st
         + (remapDepthScale_spec (hd_scale hd) - smoothedHandScale st)
           * smoothingFactor_spec (hd_isClosed hd)
    /\ uScale (uniforms (update dt (Some hd) st))
       = smoothedHandScale (update dt (Some hd) st).
Proof.
  intros Hlen H9.
  destruct (updateHandState lm tr) as [tr'|] eqn:E.
  2:{ apply updateHandState_short in E. lia. }
  exists tr', (getState tr'). cbn [handleResults]. rewrite E. cbn.
  split; [reflexivity|]. split; [reflexivity|].
  pose proof (getState_scale_nonzero tr') as Hnz.
  destruct (smoothedHandScale_update dt (getState tr') st) as [Hs Hu].
  rewrite (proj2 (truthy_true _) Hnz) in Hs, Hu.
  split; [|split; [eexists; reflexivity|split; [exact Hnz|split; [exact Hs|exact Hu]]]].
  revert E. unfold updateHandState, Landmark in *. cbn [mapM]. rewrite H9.
  destruct (lm !! 0%nat); [|discriminate].
  destruct (lm !! 8%nat); [|discriminate].
  destruct (lm !! 12%nat); [|discriminate].
  destruct (lm !! 16%nat); [|discriminate].
  destruct (lm !! 20%nat); [|discriminate].
  destruct (lm !! 5%nat); [|discriminate].
  destruct (lm !! 13%nat); [|discriminate].
  destruct (lm !! 17%nat); [|discriminate].
  simpl. intros [= <-]. reflexivity.
Qed.

End Estimator.

Lemma tracked_frame_drives_every_step_witness :
  exists tr' hd,
    handleResults [fistFrame] newTracker = Some (tr', Some hd)
    /\ hd_position hd = (1 - 1, 0)
    /\ hd_scale hd <> 0.
Proof.
  destruct (tracked_frame_drives_every_step fistFrame [] newTracker (V3 1 0 0)
              (1 / 60) twoParticles ltac:(cbn; lia) eq_refl)
    as (tr' & hd & Hrun & _ & Hpos & _ & Hnz & _).
  exists tr', hd. auto.
Defined.


(** ** Shape targets: every shape fits around the origin *)

Lemma postUnit_ret {A} (a : A) (Q : A -> Prop) : Q a -> postUnit (mret a : M A) Q.
Proof. intros Ha g b g' Hg E. injection E as <- <-. auto. Qed.

Lemma postUnit_bind {A B} (m : M A) (k : A -> M B) (P : A -> Prop) (Q : B -> Prop) :
  postUnit m P -> (forall a, P a -> postUnit (k a) Q) -> postUnit (m ≫= k) Q.
Proof.
  intros Hm Hk g b g' Hg E. rewrite bind_run in E.
  destruct (m g) as [[a g1]|] eqn:E1; [|discriminate].
  destruct (Hm g a g1 Hg E1) as [Hg1 Ha]. exact (Hk a Ha g1 b g' Hg1 E).
Qed.

Lemma postUnit_random : postUnit random (fun a => 0 <= a < 1).
Proof.
  intros g a g' Hg E. injection E as <- <-. split; [|apply Hg].
  intros n. apply Hg.
Qed.

Lemma returns_postUnit {A} (m : M A) (P : A -> Prop) : returns m P -> postUnit m P.
Proof.
  intros Hm g a g' Hg E. destruct (Hm g Hg) as (a0 & g0 & E0 & Hd & Ha).
  rewrite E0 in E. injection E as <- <-. split; [|exact Ha].
  intros n. rewrite Hd. apply Hg.
Qed.

Lemma forParticles_filled_unit P n body w :
  (forall w0, postUnit (body w0) (written P w0)) ->
  postUnit (forParticles n body w) (filled P n w).
Proof.
  intros Hbody. revert w. induction n as [|n IH]; intros w; cbn [forParticles].
  - apply postUnit_ret. apply filled_zero.
  - eapply postUnit_bind; [apply Hbody|]. intros w1 Hw1.
    intros g w' g' Hg E. destruct (IH w1 g w' g' Hg E) as [Hg' Hfill].
    split; [exact Hg'|]. eapply filled_step; [apply written_filled|]; eassumption.
Qed.

(** *** Bounds of the operations *)

Lemma normSq_nonneg p : 0 <= normSq p.
Proof.
  unfold normSq. pose proof (Rle_0_sqr (v_x p)). pose proof (Rle_0_sqr (v_y p)).
  pose proof (Rle_0_sqr (v_z p)). unfold Rsqr in *. lra.
Qed.

Lemma normSq_scaled p k : normSq (Vec.multiplyScalar p k) = normSq p * (k * k).
Proof. unfold normSq, Vec.multiplyScalar. simpl. ring. Qed.

(** A normalised vector has length 1, or 0 when the vector is zero. *)
Lemma normSq_normalize d : normSq (Vec.normalize d) <= 1.
Proof.
  unfold Vec.normalize. cbv zeta. rewrite normSq_scaled.
  assert (Hsq : Vec.length d * Vec.length d = normSq d).
  { unfold Vec.length. apply sqrt_sqrt. apply normSq_nonneg. }
  destruct (truthy (Vec.length d)) eqn:E.
  - apply truthy_true in E.
    replace (1 / Vec.length d * (1 / Vec.length d))
      with (1 / (Vec.length d * Vec.length d)) by (field; exact E).
    rewrite Hsq.
    assert (normSq d <> 0) by (rewrite <- Hsq; nra).
    replace (normSq d * (1 / normSq d)) with 1 by (field; assumption). lra.
  - apply truthy_false in E. rewrite E in Hsq. rewrite <- Hsq. lra.
Qed.

Lemma normalize_component d :
  -1 <= v_y (Vec.normalize d) <= 1.
Proof.
  pose proof (normSq_normalize d) as Hn. unfold normSq in Hn.
  pose proof (Rle_0_sqr (v_x (Vec.normalize d))).
  pose proof (Rle_0_sqr (v_z (Vec.normalize d))). unfold Rsqr in *.
  split; nra.
Qed.

Lemma on_circle r a : r * cos a * (r * cos a) + r * sin a * (r * sin a) = r * r.
Proof.
  pose proof (sin2_cos2 a) as Hsc. unfold Rsqr in Hsc.
  transitivity (r * r * (sin a * sin a + cos a * cos a)); [ring|].
  rewrite Hsc. ring.
Qed.

(** The two tilts of the planet are rotations. *)
Lemma planetTilt_normSq x y z :
  let '(x2, y2, z2) := planetTilt x y z in
  x2 * x2 + y2 * y2 + z2 * z2 = x * x + y * y + z * z.
Proof.
  unfold planetTilt. cbv zeta.
  pose proof (sin2_cos2 0.4) as H1. pose proof (sin2_cos2 0.2) as H2.
  unfold Rsqr in *.
  set (s1 := sin 0.4) in *. set (c1 := cos 0.4) in *.
  set (s2 := sin 0.2) in *. set (c2 := cos 0.2) in *.
  transitivity (x * x * (s2 * s2 + c2 * c2)
                + (y * y + z * z) * (s1 * s1 + c1 * c1) * (s2 * s2 + c2 * c2)
                + (y * s1 + z * c1) * (y * s1 + z * c1) * (1 - (s2 * s2 + c2 * c2)));
    [ring|].
  rewrite H1, H2. ring.
Qed.

Lemma pow_unit a b :
  0 <= a <= 1 -> 0 < b -> 0 <= Math.pow a b <= 1.
Proof.
  intros Ha Hb. unfold Math.pow.
  destruct (Rlt_dec 0 a) as [Hpos|Hzero].
  - split; [unfold Rpower; left; apply exp_pos|].
    replace 1 with (Rpower 1 b).
    + apply Rle_Rpower_l; lra.
    + unfold Rpower. rewrite ln_1, Rmult_0_r. apply exp_0.
  - destruct (Rlt_dec 0 b); lra.
Qed.

Lemma mod1_unit a : 0 <= Math.mod1 a < 1.
Proof. unfold Math.mod1. pose proof (Zfloor_bound a). lra. Qed.

Lemma moon_radius k m_r m_a :
  (if (k <? 0)%Z then None else moonOffsets !! Z.to_nat k) = Some (m_r, m_a) ->
  0 <= m_r <= 27.
Proof.
  destruct (k <? 0)%Z; [discriminate|].
  unfold moonOffsets.
  destruct (Z.to_nat k) as [|[|[|[|n]]]]; cbn; intros E; try discriminate;
    injection E as <- _; lra.
Qed.


Section Fits.

Context `{Three}.

Lemma cbrt_unit a : 0 <= a < 1 -> 0 <= Math.cbrt a <= 1.
Proof.
  intros Ha. unfold Math.cbrt.
  destruct (Rlt_dec 0 a) as [Hpos|Hzero].
  - split; [unfold Rpower; left; apply exp_pos|].
    apply Rle_trans with (Rpower 1 (1 / 3)).
    + apply Rle_Rpower_l; lra.
    + unfold Rpower. rewrite ln_1, Rmult_0_r, exp_0. lra.
  - destruct (Rlt_dec a 0); lra.
Qed.

(** [randomInSphere] gives a point of the unit ball. *)
Lemma randomInSphere_ball : returns randomInSphere (fun d => normSq d <= 1).
Proof.
  unfold randomInSphere.
  eapply returns_bind; [apply returns_random | intros u Hu].
  eapply returns_bind; [apply returns_random | intros v Hv]. cbv zeta.
  eapply returns_bind; [apply returns_random | intros a Ha].
  apply returns_ret. unfold normSq. simpl.
  pose proof (cbrt_unit a Ha) as Hr.
  pose proof (sin2_cos2 (2 * PI * u)) as H1. pose proof (sin2_cos2 (acos (2 * v - 1))) as H2.
  unfold Rsqr in *.
  set (r := Math.cbrt a) in *.
  set (st := sin (2 * PI * u)) in *. set (ct := cos (2 * PI * u)) in *.
  set (sp := sin (acos (2 * v - 1))) in *. set (cp := cos (acos (2 * v - 1))) in *.
  replace (r * sp * ct * (r * sp * ct) + r * sp * st * (r * sp * st) + r * cp * (r * cp))
    with (r * r * (sp * sp * (st * st + ct * ct) + cp * cp)) by ring.
  rewrite H1. replace (sp * sp * 1 + cp * cp) with (sp * sp + cp * cp) by ring.
  rewrite H2. nra.
Qed.

Lemma sampleHeart_box fuel :
  postUnit (sampleHeart fuel)
    (fun p => -1.5 <= v_x p <= 1.5 /\ -1.5 <= v_y p <= 1.5 /\ -1.5 <= v_z p <= 1.5).
Proof.
  induction fuel as [|fuel IH]; cbn [sampleHeart].
  - intros g a g' _ E. discriminate.
  - eapply postUnit_bind; [apply postUnit_random | intros a Ha].
    eapply postUnit_bind; [apply postUnit_random | intros b Hb].
    eapply postUnit_bind; [apply postUnit_random | intros c Hc].
    cbv zeta. destruct (insideHeart (heartCandidate a b c)); [|exact IH].
    apply postUnit_ret. unfold heartCandidate. simpl. lra.
Qed.

Lemma heartParticle_fits fuel col w :
  postUnit (heartParticle fuel col w) (written fits w).
Proof.
  unfold heartParticle. cbv zeta.
  eapply postUnit_bind; [apply sampleHeart_box | intros q (Hx & Hy & Hz)].
  apply postUnit_ret. exists (Vec.multiplyScalar q 10), col.
  split; [|reflexivity].
  unfold fits. rewrite normSq_scaled. unfold normSq. nra.
Qed.

Lemma starParticle_fits col w : returns (starParticle col w) (written fits w).
Proof.
  unfold starParticle. cbv zeta.
  eapply returns_bind; [apply randomInSphere_returns | intros d _].
  eapply returns_bind; [apply returns_random | intros a Ha].
  apply returns_ret.
  set (dir := Vec.normalize d).
  set (r := 8 + Math.pow (Math.abs (cos (2.5 * Math.atan2 (v_z dir) (v_x dir))
                                    * sin (acos (v_y dir)))) 4.0 * 15 + a * 2).
  exists (Vec.multiplyScalar dir r), col. split; [|reflexivity].
  unfold fits. rewrite normSq_scaled.
  pose proof (normSq_normalize d) as Hn. fold dir in Hn.
  pose proof (normSq_nonneg dir) as Hn0.
  assert (Hspike : 0 <= Math.pow (Math.abs (cos (2.5 * Math.atan2 (v_z dir) (v_x dir))
                                            * sin (acos (v_y dir)))) 4.0 <= 1).
  { apply pow_unit; [|lra]. unfold Math.abs. split; [apply Rabs_pos|].
    rewrite Rabs_mult.
    pose proof (COS_bound (2.5 * Math.atan2 (v_z dir) (v_x dir))) as [? ?].
    pose proof (SIN_bound (acos (v_y dir))) as [? ?].
    assert (Rabs (cos (2.5 * Math.atan2 (v_z dir) (v_x dir))) <= 1)
      by (apply Rabs_le; lra).
    assert (Rabs (sin (acos (v_y dir))) <= 1) by (apply Rabs_le; lra).
    pose proof (Rabs_pos (cos (2.5 * Math.atan2 (v_z dir) (v_x dir)))).
    pose proof (Rabs_pos (sin (acos (v_y dir)))). nra. }
  assert (Hr : 0 <= r <= 25) by (unfold r; lra).
  assert (r * r <= 625) by nra.
  nra.
Qed.

Lemma tilted_fits (x y z bound : R) col w :
  x * x + y * y + z * z <= bound -> bound <= 961 ->
  written fits w
    (let '(x2, y2, z2) := planetTilt x y z in
     setPos x2 y2 z2 (setRGB (c_r col) (c_g col) (c_b col) w)).
Proof.
  intros Hb Hbound. pose proof (planetTilt_normSq x y z) as Hn.
  destruct (planetTilt x y z) as [[x2 y2] z2].
  exists (V3 x2 y2 z2), col. split; [|reflexivity].
  unfold fits, normSq. simpl. lra.
Qed.

Lemma planetParticle_fits w : returns (planetParticle w) (written fits w).
Proof.
  unfold planetParticle.
  eapply returns_bind; [apply returns_random | intros r Hr].
  destruct (ltb r 0.55).
  { eapply returns_bind; [apply randomInSphere_returns | intros d _]. cbv zeta.
    eapply returns_bind; [apply returns_random | intros a Ha].
    eapply returns_bind; [apply returns_random | intros b Hb].
    apply returns_ret.
    eexists (Vec.multiplyScalar (Vec.normalize d) (10.0 + b * 0.8)), _.
    split; [|reflexivity].
    unfold fits. rewrite normSq_scaled.
    pose proof (normSq_normalize d). pose proof (normSq_nonneg (Vec.normalize d)).
    assert ((10.0 + b * 0.8) * (10.0 + b * 0.8) <= 121) by nra. nra. }
  destruct (ltb r 0.78).
  { eapply returns_bind; [apply returns_random | intros a Ha].
    eapply returns_bind; [apply returns_random | intros b Hb].
    eapply returns_bind; [apply returns_random | intros c Hc].
    eapply returns_bind; [apply returns_random | intros d Hd].
    cbv zeta. apply returns_ret.
    apply (tilted_fits _ _ _ 600
             (Col.lerp (color_ofHex "#c9a34a") (color_ofHex "#f3d38c") (0.6 + d * 0.3)));
      [|lra].
    pose proof (on_circle (14 + b * 10) (a * PI * 2)) as Hc2.
    assert ((14 + b * 10) * (14 + b * 10) <= 576) by nra.
    assert ((c - 0.5) * 0.6 * ((c - 0.5) * 0.6) <= 1) by nra.
    lra. }
  destruct (ltb r 0.92).
  { eapply returns_bind; [apply returns_random | intros a Ha].
    eapply returns_bind; [apply returns_random | intros b Hb].
    eapply returns_bind; [apply returns_random | intros c Hc].
    eapply returns_bind; [apply returns_random | intros d Hd].
    eapply returns_bind; [apply returns_random | intros e He].
    cbv zeta. apply returns_ret.
    apply (tilted_fits _ _ _ 961
             (Col.lerp (color_ofHex "#d3b17d") (color_ofHex "#8c5c2b") (e * 0.4)));
      [|lra].
    pose proof (SIN_bound (a * PI * 2 * 2.0)) as [Hs0 Hs1].
    set (s := sin (a * PI * 2 * 2.0)) in *.
    destruct (ltb b 0.35).
    - pose proof (on_circle (18 + c * 6) (a * PI * 2)) as Hc2.
      assert ((18 + c * 6) * (18 + c * 6) <= 576) by nra.
      assert (((d - 0.5) * 8.0 + s * 0.4) * ((d - 0.5) * 8.0 + s * 0.4) <= 20) by nra.
      lra.
    - pose proof (on_circle (24 + c * 6) (a * PI * 2)) as Hc2.
      assert ((24 + c * 6) * (24 + c * 6) <= 900) by nra.
      assert (((d - 0.5) * 2.5 + s * 0.4) * ((d - 0.5) * 2.5 + s * 0.4) <= 3) by nra.
      lra. }
  eapply returns_bind; [apply returns_random | intros a Ha].
  cbv zeta.
  destruct (moon_index a Ha) as (m & Hm). rewrite Hm. destruct m as [m_r m_a].
  apply moon_radius in Hm.
  eapply returns_bind; [apply randomInSphere_ball | intros dir Hdir].
  eapply returns_bind; [apply returns_random | intros b Hb].
  eapply returns_bind; [apply returns_random | intros c Hc].
  cbv zeta.
  pose proof (planetTilt_normSq (m_r * cos m_a) 0 (m_r * sin m_a)) as Hn.
  destruct (planetTilt (m_r * cos m_a) 0 (m_r * sin m_a)) as [[x2 y2] z2].
  apply returns_ret.
  exists (V3 (x2 + v_x dir * (1.8 + b * 0.8)) (y2 + v_y dir * (1.8 + b * 0.8))
             (z2 + v_z dir * (1.8 + b * 0.8))),
         (Col.lerp (color_ofHex "#f0f8ff") (color_ofHex "#ffefd5") (c * 0.4)).
  split; [|reflexivity].
  unfold fits, normSq. simpl.
  pose proof (on_circle m_r m_a) as Hcirc.
  assert (Hm2 : m_r * m_r <= 729) by nra.
  assert (Hn2 : x2 * x2 + y2 * y2 + z2 * z2 <= 729) by lra.
  clear Hn Hcirc.
  unfold normSq in Hdir.
  set (k := 1.8 + b * 0.8) in *.
  assert (Hk : 0 <= k <= 2.6) by (unfold k; lra).
  assert (Hk2 : k * k <= 6.76) by nra.
  set (dx := v_x dir) in *. set (dy := v_y dir) in *. set (dz := v_z dir) in *.
  assert (Hd2 : (dx * k) * (dx * k) + (dy * k) * (dy * k) + (dz * k) * (dz * k) <= 6.76).
  { replace ((dx * k) * (dx * k) + (dy * k) * (dy * k) + (dz * k) * (dz * k))
      with ((dx * dx + dy * dy + dz * dz) * (k * k)) by ring.
    pose proof (Rle_0_sqr dx). pose proof (Rle_0_sqr dy). pose proof (Rle_0_sqr dz).
    pose proof (Rle_0_sqr k). unfold Rsqr in *. nra. }
  pose proof (Rle_0_sqr (x2 - 10 * (dx * k))) as Q1.
  pose proof (Rle_0_sqr (y2 - 10 * (dy * k))) as Q2.
  pose proof (Rle_0_sqr (z2 - 10 * (dz * k))) as Q3.
  unfold Rsqr in *. nra.
Qed.

Lemma treeParticle_fits w : returns (treeParticle w) (written fits w).
Proof.
  unfold treeParticle. cbv zeta.
  eapply returns_bind; [apply returns_random | intros t Ht].
  destruct (ltb t 0.08) eqn:Etrunk.
  { eapply returns_bind; [apply returns_random | intros a Ha].
    eapply returns_bind; [apply returns_random | intros b Hb].
    eapply returns_bind; [apply returns_random | intros c Hc].
    apply returns_ret.
    exists (V3 ((0.6 + b * 0.8) * cos (a * PI * 2) * 0.8) (-10 + c * 4)
               ((0.6 + b * 0.8) * sin (a * PI * 2) * 0.8)),
           (color_ofHex "#4a2e16").
    split; [|reflexivity]. unfold fits, normSq. simpl.
    pose proof (on_circle (0.6 + b * 0.8) (a * PI * 2)) as Hcirc.
    assert ((0.6 + b * 0.8) * (0.6 + b * 0.8) <= 2) by nra.
    assert ((-10 + c * 4) * (-10 + c * 4) <= 100) by nra.
    nra. }
  apply ltb_false in Etrunk.
  destruct (ltb 0.94 t) eqn:Etop.
  { eapply returns_bind; [apply randomInSphere_returns | intros d _].
    eapply returns_bind; [apply returns_random | intros a Ha].
    pose proof (normSq_normalize d) as Hn. unfold normSq in Hn.
    pose proof (normalize_component d) as Hy.
    remember (Vec.normalize d) as dir eqn:Hdir. clear Hdir.
    apply returns_ret.
    exists (V3 (0 + v_x dir * (1.0 + a * 0.8)) (11 + v_y dir * (1.0 + a * 0.8))
               (0 + v_z dir * (1.0 + a * 0.8))),
           (color_ofHex "#FFD700").
    split; [|reflexivity]. unfold fits, normSq. simpl.
    set (dx := v_x dir) in *. set (dy := v_y dir) in *. set (dz := v_z dir) in *.
    set (s := 1.0 + a * 0.8).
    assert (Hs : 1 <= s <= 1.8) by (unfold s; lra).
    assert (Hs2 : s * s <= 3.24) by nra.
    assert (Hd : (dx * dx + dy * dy + dz * dz) * (s * s) <= 3.24).
    { pose proof (Rle_0_sqr dx). pose proof (Rle_0_sqr dy). pose proof (Rle_0_sqr dz).
      pose proof (Rle_0_sqr s). unfold Rsqr in *. nra. }
    assert (Hys : dy * s <= 1.8) by nra.
    replace ((0 + dx * s) * (0 + dx * s) + (11 + dy * s) * (11 + dy * s)
             + (0 + dz * s) * (0 + dz * s))
      with ((dx * dx + dy * dy + dz * dz) * (s * s) + 22 * (dy * s) + 121) by ring.
    lra. }
  apply ltb_false in Etop.
  eapply returns_bind; [apply returns_random | intros a Ha].
  eapply returns_bind; [apply returns_random | intros b Hb].
  eapply returns_bind; [apply returns_random | intros c Hc].
  pose proof (mod1_unit (t * 7)) as Hlp.
  pose proof (pow_unit (1 - Math.mod1 (t * 7)) 0.8 ltac:(lra) ltac:(lra)) as Hls.
  set (ls := Math.pow (1 - Math.mod1 (t * 7)) 0.8) in *.
  set (rB := (1 - t) * 6.5 * (0.75 + 0.5 * ls)) in *.
  assert (HrB : 0 <= rB <= 7.475) by (unfold rB; nra).
  pose proof (SIN_bound (a * PI * 2 * 3.0 + t * 7)) as [Hw0 Hw1].
  set (wobble := sin (a * PI * 2 * 3.0 + t * 7) * 0.2) in *.
  assert (Hy : -8.6 <= t * 20 - 10 + wobble <= 9) by (unfold wobble; lra).
  set (yPos := t * 20 - 10 + wobble) in *.
  assert (Hy2 : yPos * yPos <= 81) by nra.
  destruct (ltb c 0.12).
  { apply returns_ret.
    exists (V3 ((rB * 0.85 + 0.3) * cos (t * 4.5 * 2 * PI)) yPos
               ((rB * 0.85 + 0.3) * sin (t * 4.5 * 2 * PI))),
           (color_ofHex "#FFD966").
    split; [|reflexivity]. unfold fits, normSq. simpl.
    pose proof (on_circle (rB * 0.85 + 0.3) (t * 4.5 * 2 * PI)) as Hcirc.
    assert ((rB * 0.85 + 0.3) * (rB * 0.85 + 0.3) <= 50) by nra.
    lra. }
  eapply returns_bind; [apply returns_random | intros d Hd].
  set (r := rB * sqrt (0.1 + 0.9 * b)).
  assert (Hr2 : r * r <= 56).
  { unfold r.
    replace (rB * sqrt (0.1 + 0.9 * b) * (rB * sqrt (0.1 + 0.9 * b)))
      with (rB * rB * (sqrt (0.1 + 0.9 * b) * sqrt (0.1 + 0.9 * b))) by ring.
    rewrite sqrt_sqrt by lra. nra. }
  pose proof (on_circle r (a * PI * 2)) as Hcirc.
  eapply returns_bind with (P := fun w1 => exists col, w1 = setHex col w).
  - destruct (ltb d _); [apply returns_ret; eexists; reflexivity|].
    eapply returns_bind; [apply returns_random | intros e He].
    destruct (ltb e 0.14); [|apply returns_ret; eexists; reflexivity].
    eapply returns_bind; [apply returns_random | intros o Ho].
    destruct (ltb o 0.33); [apply returns_ret; eexists; reflexivity|].
    destruct (ltb o 0.66); apply returns_ret; eexists; reflexivity.
  - intros w1 (col & ->). apply returns_ret.
    exists (V3 (r * cos (a * PI * 2)) yPos (r * sin (a * PI * 2))), col.
    split; [|reflexivity]. unfold fits, normSq. simpl. lra.
Qed.

(** X30.  Every shape fits around the origin: for draws in [0, 1), when
    [generateShape] returns, whichever of the heart, the planet, the
    star and the tree it has built, every particle's target lies within
    31 units of the origin. *)
Theorem shapes_fit_around_origin fuel type st g st' g' :
  wellFormed st ->
  unitDraws g ->
  generateShape fuel type st g = Some (st', g') ->
  forall i, (i < particleCount st)%nat ->
    exists p, targetOf (attributes st') i p /\ normSq p <= 961.
Proof.
  intros (_ & _ & Hlt & _ & Hlc) Hg Hrun i Hi.
  unfold generateShape in Hrun. cbv zeta in Hrun. rewrite bind_run in Hrun.
  cbn [particleCount attributes color] in Hrun.
  match type of Hrun with
  | context [match ?m g with _ => _ end] =>
      destruct (m g) as [[w' g1]|] eqn:E; [|discriminate];
      assert (Hfill : filled fits (particleCount st)
                        (mkGen (aTargetPos (attributes st)) (aColor (attributes st)) 0 0)
                        w')
  end.
  { assert (Hin : In (if includes allowedShapes type then type else "heart")
                     allowedShapes).
    { destruct (includes allowedShapes type) eqn:Hi'; [exact (includes_In _ _ Hi')|].
      left. reflexivity. }
    revert E. generalize (if includes allowedShapes type then type else "heart") Hin.
    intros shape [<- | [<- | [<- | [<- | []]]]];
      cbn [String.eqb Ascii.eqb Bool.eqb]; intros E.
    - exact (proj2 (forParticles_filled_unit fits _ _ _
                      (heartParticle_fits fuel (color st)) g w' g1 Hg E)).
    - exact (proj2 (forParticles_filled_unit fits _ _ _
                      (fun w0 => returns_postUnit _ _ (planetParticle_fits w0))
                      g w' g1 Hg E)).
    - exact (proj2 (forParticles_filled_unit fits _ _ _
                      (fun w0 => returns_postUnit _ _ (starParticle_fits (color st) w0))
                      g w' g1 Hg E)).
    - exact (proj2 (forParticles_filled_unit fits _ _ _
                      (fun w0 => returns_postUnit _ _ (treeParticle_fits w0))
                      g w' g1 Hg E)). }
  rewrite ret_run in Hrun. injection Hrun as <- _.
  destruct Hfill as (_ & _ & _ & _ & _ & Hall).
  cbn [idx cIdx positions colors] in Hall.
  destruct (Hall ltac:(lia) ltac:(lia) i Hi) as (p & c & Hfit & Hx & Hy & Hz & _).
  exists p. split; [|exact Hfit].
  unfold targetOf. cbn [set_attributes attributes aTargetPos].
  replace (i * 3)%nat with (0 + 3 * i)%nat by lia. auto.
Qed.

End Fits.

Lemma shapes_fit_around_origin_witness :
  exists st' g',
    generateShape 0 "tree" twoParticles (constantDraws (1 / 2)) = Some (st', g')
    /\ exists p, targetOf (attributes st') 1 p /\ normSq p <= 961.
Proof.
  assert (Hunit : unitDraws (constantDraws (1 / 2))) by (intros n; cbn; lra).
  destruct (generateShape_returns 0 "tree" twoParticles (constantDraws (1 / 2)) Hunit
              (or_intror (or_intror eq_refl))) as (st' & g' & Hrun).
  exists st', g'. split; [exact Hrun|].
  apply (shapes_fit_around_origin 0 "tree" twoParticles (constantDraws (1 / 2)) st' g'
           wellFormed_twoParticles Hunit Hrun 1%nat).
  cbn. lia.
Defined.
